(** * rpcjs: the RPC pair and the actor registry, embedded in Rocq

    The development follows [src/rpcjs.js], [src/actors.js] and
    [src/helpers.js].  A JavaScript closure becomes a function over an
    explicit [world]: the variables the closure captures are the fields
    of the record, the functions the host injects ([send],
    [wrapEffects], user listeners) are the fields of [env], and the
    promise machinery is an explicit store with a queue of reaction
    jobs.  An exception is a result of the function, next to the world
    it leaves behind. *)

From stdpp Require Import base option list strings pretty gmap.
From Stdlib Require Import ZArith Lia.

Set Warnings "-register-all".

Open Scope Z_scope.
Open Scope string_scope.
Open Scope list_scope.

(** ** Values *)

(** What travels in frames and through handlers: JSON data, [undefined]
    and instances of [Error].  An [Error] keeps its two own fields that
    are not enumerable ([message], [stack]) apart from the enumerable
    ones added later. Numbers are the integers among the JS numbers. *)
Inductive val :=
| VUndef
| VNull
| VBool (b : bool)
| VNum (n : Z)
| VStr (s : string)
| VArr (xs : list val)
| VObj (fs : list (string * val))
| VErr (message stack : val) (fs : list (string * val)).

(** Lookup in a list of fields; an absent key reads [None]. *)
Fixpoint assoc {A} (k : string) (fs : list (string * A)) : option A :=
  match fs with
  | [] => None
  | (k', x) :: fs' => if String.eqb k k' then Some x else assoc k fs'
  end.

(** [obj[k] = x]: replace the field in place or add it at the end. *)
Fixpoint assign {A} (k : string) (x : A) (fs : list (string * A)) : list (string * A) :=
  match fs with
  | [] => [(k, x)]
  | (k', y) :: fs' =>
      if String.eqb k k' then (k, x) :: fs' else (k', y) :: assign k x fs'
  end.

(** JS truthiness, as [||], [&&] and [if] see it. *)
Definition truthy (v : val) : bool :=
  match v with
  | VUndef | VNull => false
  | VBool b => b
  | VNum n => negb (n =? 0)%Z
  | VStr s => negb (String.eqb s "")
  | VArr _ | VObj _ | VErr _ _ _ => true
  end.

(** [a || b] *)
Definition js_or (a b : val) : val := if truthy a then a else b.

Definition typeof (v : val) : string :=
  match v with
  | VUndef => "undefined"
  | VBool _ => "boolean"
  | VNum _ => "number"
  | VStr _ => "string"
  | VNull | VArr _ | VObj _ | VErr _ _ _ => "object"
  end.

(** [new Error(msg)]; the stack is the engine's and is kept abstract as
    the header line of the trace. *)
Definition new_error (msg : string) : val :=
  VErr (VStr msg) (VStr ("Error: " +:+ msg)) [].

Definition type_error (msg : string) : val :=
  VErr (VStr msg) (VStr ("TypeError: " +:+ msg)) [("name", VStr "TypeError")].

(** ToString, used by [+] on strings and by property keys. *)
Fixpoint to_string (v : val) : string :=
  match v with
  | VUndef => "undefined"
  | VNull => "null"
  | VBool true => "true"
  | VBool false => "false"
  | VNum n => pretty n
  | VStr s => s
  | VArr xs =>
      (fix join (l : list val) : string :=
         match l with
         | [] => ""
         | x :: l' =>
             let sx := match x with VUndef | VNull => "" | _ => to_string x end in
             match l' with [] => sx | _ => sx +:+ "," +:+ join l' end
         end) xs
  | VObj _ => "[object Object]"
  | VErr m _ fs =>
      let name :=
        (fix name_of (l : list (string * val)) : string :=
           match l with
           | [] => "Error"
           | (k, x) :: l' => if String.eqb "name" k then to_string x else name_of l'
           end) fs in
      let msg := match m with VUndef => "" | _ => to_string m end in
      if String.eqb msg "" then name
      else if String.eqb name "" then msg
      else name +:+ ": " +:+ msg
  end.

(** [v[k]] for reading; [None] is the TypeError on [null] and
    [undefined].  Of an array and of a string only [length] is modelled
    among the own properties: the code reads fixed names, never an index. *)
Definition vget (v : val) (k : string) : option val :=
  match v with
  | VUndef | VNull => None
  | VObj fs => Some (default VUndef (assoc k fs))
  | VErr m st fs =>
      Some (if String.eqb k "message" then m
            else if String.eqb k "stack" then st
            else match assoc k fs with
                 | Some x => x
                 | None => if String.eqb k "name" then VStr "Error" else VUndef
                 end)
  | VArr xs => Some (if String.eqb k "length" then VNum (Z.of_nat (length xs)) else VUndef)
  | VStr s => Some (if String.eqb k "length" then VNum (Z.of_nat (String.length s)) else VUndef)
  | VBool _ | VNum _ => Some VUndef
  end.

(** [k in v]; [None] is the TypeError on a primitive. *)
Definition has_key (k : string) (v : val) : option bool :=
  match v with
  | VObj fs => Some (bool_decide (is_Some (assoc k fs)))
  | VErr _ _ fs =>
      Some (String.eqb k "message" || String.eqb k "stack" || String.eqb k "name"
            || bool_decide (is_Some (assoc k fs)))
  | VArr _ => Some (String.eqb k "length")
  | _ => None
  end.

(** Values that survive [JSON.stringify] followed by [JSON.parse] unchanged. *)
Fixpoint json (v : val) : bool :=
  match v with
  | VNull | VBool _ | VNum _ | VStr _ => true
  | VArr xs => forallb json xs
  | VObj fs => forallb (fun kv => json kv.2) fs
  | VUndef | VErr _ _ _ => false
  end.

(** ** Handlers, objects and the promise store *)

(** A promise constructor: the ambient global [Promise], or the one of a
    library (bluebird in the tests). *)
Inductive ctor := Global | Library (n : nat).

Global Instance ctor_eq_dec : EqDecision ctor.
Proof. solve_decision. Defined.

(** What a user function does when it is applied: the model keeps its
    result, not its body.  A promise it returns is settled at once, after
    a delay, or never. *)
Inductive settlement := Fulfils (v : val) | Rejects (e : val).
Inductive planned := Already (s : settlement) | Later (ms : Z) (s : settlement) | Never.
Inductive outcome :=
| Returns (v : val)
| Throws (e : val)
| ReturnsPromise (c : ctor) (b : planned).

(** A property of an object that is not plain data.  [FWrappedEmit k id f]
    is the function [exposeActorEvents] writes over [actor.emit]: [k]
    names its [proxy] flag, [f] is the [wrappedEmit] it closes over. *)
Inductive field :=
| FData (v : val)
| FMethod (f : list val -> outcome)
| FWrappedEmit (k : nat) (id : string) (f : field).

Definition object := list (string * field).

(** Every value [exposeActor] can be handed.  [JExpired] is the object
    [EXPIRED = {}] of the registry, told apart by identity. *)
Inductive jsval :=
| JData (v : val)
| JFunction
| JSymbol
| JExpired
| JObject (o : object).

Definition typeof_js (x : jsval) : string :=
  match x with
  | JData v => typeof v
  | JFunction => "function"
  | JSymbol => "symbol"
  | JExpired | JObject _ => "object"
  end.

Definition truthy_js (x : jsval) : bool :=
  match x with JData v => truthy v | _ => true end.

Definition is_function (f : field) : bool :=
  match f with FData _ => false | _ => true end.

(** [x[k]]; [None] is the TypeError on [null] and [undefined]. *)
Definition jget (x : jsval) (k : string) : option field :=
  match x with
  | JData v => FData <$> vget v k
  | JObject o => Some (default (FData VUndef) (assoc k o))
  | JFunction | JSymbol | JExpired => Some (FData VUndef)
  end.

(** A property as data.  A function is no data: the JSON codec leaves it
    out, and the model reads it as [undefined]. *)
Definition prop_value (f : field) : val :=
  match f with FData v => v | _ => VUndef end.

(** The value as the JSON codec carries it in a frame. *)
Definition wire (x : jsval) : val :=
  match x with
  | JData v => v
  | JObject o => VObj (omap (fun kf => match kf.2 with FData v => Some (kf.1, v) | _ => None end) o)
  | JExpired => VObj []
  | JFunction | JSymbol => VUndef
  end.

Abbreviation pid := nat (only parsing).

Inductive pstate := Pending | Fulfilled (x : jsval) | Rejected (e : val).

(** The closures the two files pass to [.then], one constructor each. *)
Inductive cont :=
| KForward                                  (* resolve, reject of the derived promise *)
| KHandleResult                             (* rpcjs.js: call, .then(handleResult) *)
| KReply (id : val)                         (* rpcjs.js: callIncoming, .then(sendResult id, sendError id) *)
| KNotExpired (id : string)                 (* actors.js: waitForActor, .then(notExpired(actors[id])) *)
| KRunCall (method : val) (params : list val)   (* actors.js: call, .then(runCall) *)
| KGetProp (property : val).                (* actors.js: getActorProperty, .then(actor[property]) *)

Record promise := Promise {
  p_ctor : ctor;
  p_state : pstate;
  p_reactions : list (cont * pid)
}.

Record job := Job { j_cont : cont; j_target : pid; j_state : pstate }.

Inductive timer_action :=
| TReject (p : pid) (msg : string)          (* the timeout helper *)
| TSettle (p : pid) (s : settlement).       (* a promise a user function settles later *)

Record timer := Timer { t_due : Z; t_act : timer_action }.

(** A listener of an [EventEmitter]. *)
Inductive listener :=
| LResolve (q : pid)                        (* eventToPromise: once(event, resolve) *)
| LUser (u : nat) (once : bool)             (* pair.on, pair.once with the user's function u *)
| LProxyOff (k : nat).                      (* exposeActorEvents: once(deregister, proxy = false) *)

Global Instance listener_eq_dec : EqDecision listener.
Proof. solve_decision. Defined.

(** What the pair does to the functions injected into it, in order. *)
Inductive event :=
| EvSend (m : val)                          (* send(m) *)
| EvListener (u : nat) (args : list val)    (* the user's listener u applied *)
| EvError (e : val).                        (* opts.error(e) *)

Inductive handler :=
| HUser (f : list val -> outcome)
| HCallActor                                (* _.partial(call, node._Promise) *)
| HGetActorProperty.                        (* _.partial(getActorProperty, node._Promise) *)

(** ** The world *)

Record world := World {
  (* the engine *)
  promises : list promise;
  jobs : list job;
  timers : list timer;
  now : Z;
  (* rpcjs.js, module level *)
  outgoingId : Z;
  (* the closure of RpcPair *)
  methods : gmap string handler;
  localListeners : gmap string (list listener);
  (* the closure of ActorRegister *)
  actors : gmap string jsval;
  actorRegistrations : gmap string (list listener);
  proxies : list bool;
  (* node.exposeActor is defined *)
  exposed : bool;
  (* the injected functions, observed *)
  outbox : list val;
  trace : list event
}.

Definition set_promises (f : (list promise) -> (list promise)) (w : world) : world :=
  World (f (promises w)) (jobs w) (timers w) (now w) (outgoingId w) (methods w) (localListeners w) (actors w) (actorRegistrations w) (proxies w) (exposed w) (outbox w) (trace w).
Definition set_jobs (f : (list job) -> (list job)) (w : world) : world :=
  World (promises w) (f (jobs w)) (timers w) (now w) (outgoingId w) (methods w) (localListeners w) (actors w) (actorRegistrations w) (proxies w) (exposed w) (outbox w) (trace w).
Definition set_timers (f : (list timer) -> (list timer)) (w : world) : world :=
  World (promises w) (jobs w) (f (timers w)) (now w) (outgoingId w) (methods w) (localListeners w) (actors w) (actorRegistrations w) (proxies w) (exposed w) (outbox w) (trace w).
Definition set_now (f : Z -> Z) (w : world) : world :=
  World (promises w) (jobs w) (timers w) (f (now w)) (outgoingId w) (methods w) (localListeners w) (actors w) (actorRegistrations w) (proxies w) (exposed w) (outbox w) (trace w).
Definition set_outgoingId (f : Z -> Z) (w : world) : world :=
  World (promises w) (jobs w) (timers w) (now w) (f (outgoingId w)) (methods w) (localListeners w) (actors w) (actorRegistrations w) (proxies w) (exposed w) (outbox w) (trace w).
Definition set_methods (f : (gmap string handler) -> (gmap string handler)) (w : world) : world :=
  World (promises w) (jobs w) (timers w) (now w) (outgoingId w) (f (methods w)) (localListeners w) (actors w) (actorRegistrations w) (proxies w) (exposed w) (outbox w) (trace w).
Definition set_localListeners (f : (gmap string (list listener)) -> (gmap string (list listener))) (w : world) : world :=
  World (promises w) (jobs w) (timers w) (now w) (outgoingId w) (methods w) (f (localListeners w)) (actors w) (actorRegistrations w) (proxies w) (exposed w) (outbox w) (trace w).
Definition set_actors (f : (gmap string jsval) -> (gmap string jsval)) (w : world) : world :=
  World (promises w) (jobs w) (timers w) (now w) (outgoingId w) (methods w) (localListeners w) (f (actors w)) (actorRegistrations w) (proxies w) (exposed w) (outbox w) (trace w).
Definition set_actorRegistrations (f : (gmap string (list listener)) -> (gmap string (list listener))) (w : world) : world :=
  World (promises w) (jobs w) (timers w) (now w) (outgoingId w) (methods w) (localListeners w) (actors w) (f (actorRegistrations w)) (proxies w) (exposed w) (outbox w) (trace w).
Definition set_proxies (f : (list bool) -> (list bool)) (w : world) : world :=
  World (promises w) (jobs w) (timers w) (now w) (outgoingId w) (methods w) (localListeners w) (actors w) (actorRegistrations w) (f (proxies w)) (exposed w) (outbox w) (trace w).
Definition set_exposed (f : bool -> bool) (w : world) : world :=
  World (promises w) (jobs w) (timers w) (now w) (outgoingId w) (methods w) (localListeners w) (actors w) (actorRegistrations w) (proxies w) (f (exposed w)) (outbox w) (trace w).
Definition set_outbox (f : (list val) -> (list val)) (w : world) : world :=
  World (promises w) (jobs w) (timers w) (now w) (outgoingId w) (methods w) (localListeners w) (actors w) (actorRegistrations w) (proxies w) (exposed w) (f (outbox w)) (trace w).
Definition set_trace (f : (list event) -> (list event)) (w : world) : world :=
  World (promises w) (jobs w) (timers w) (now w) (outgoingId w) (methods w) (localListeners w) (actors w) (actorRegistrations w) (proxies w) (exposed w) (outbox w) (f (trace w)).

Arguments set_promises f w /.
Arguments set_jobs f w /.
Arguments set_timers f w /.
Arguments set_now f w /.
Arguments set_outgoingId f w /.
Arguments set_methods f w /.
Arguments set_localListeners f w /.
Arguments set_actors f w /.
Arguments set_actorRegistrations f w /.
Arguments set_proxies f w /.
Arguments set_exposed f w /.
Arguments set_outbox f w /.
Arguments set_trace f w /.

(** A program that is loaded and has done nothing yet. *)
Definition empty_world : world :=
  World [] [] [] 0 0 ∅ ∅ ∅ ∅ [] false [] [].

(** ** Functions that may throw *)

Inductive res (A : Type) := Ok (a : A) | Throw (e : val).
Arguments Ok {A} a.
Arguments Throw {A} e.

Definition M (A : Type) : Type := world -> world * res A.

Definition ret {A} (a : A) : M A := fun w => (w, Ok a).
Definition throw {A} (e : val) : M A := fun w => (w, Throw e).
Definition bind {A B} (m : M A) (k : A -> M B) : M B :=
  fun w => match m w with
           | (w', Ok a) => k a w'
           | (w', Throw e) => (w', Throw e)
           end.
(** [try { m; k } catch(e) { h }], where only [m] is guarded. *)
Definition attempt {A B} (m : M A) (k : A -> M B) (h : val -> M B) : M B :=
  fun w => match m w with
           | (w', Ok a) => k a w'
           | (w', Throw e) => h e w'
           end.
Definition modify (f : world -> world) : M unit := fun w => (f w, Ok tt).
Definition gets {A} (f : world -> A) : M A := fun w => (w, Ok (f w)).

Definition mapM {A B} (f : A -> B) (m : M A) : M B :=
  fun w => match m w with
           | (w', Ok a) => (w', Ok (f a))
           | (w', Throw e) => (w', Throw e)
           end.

Arguments ret {A} a w /.
Arguments throw {A} e w /.
Arguments bind {A B} m k w /.
Arguments attempt {A B} m k h w /.
Arguments modify f w /.
Arguments gets {A} f w /.
Arguments mapM {A B} f m w /.

Notation "'let!' x ':=' m 'in' k" := (bind m (fun x => k))
  (at level 10, x name, m at level 200, k at level 200, only parsing).
Notation "'do!' m 'in' k" := (bind m (fun _ => k))
  (at level 10, m at level 200, k at level 200, only parsing).

(** What the host injects into the pair and never changes while the
    model runs: the options of [rpc(opts)], the function installed by
    [setSend], and the listeners of the user. *)
Record env := Env {
  name : string;                            (* opts.name *)
  P : ctor;                                 (* opts.Promise *)
  timeout : Z;                              (* opts.timeout, 500 by default *)
  emitTimeout : Z;                          (* opts.emitTimeout, 500 by default *)
  wrapEffects : M unit -> M unit;           (* opts.wrapEffects, fn => fn() by default *)
  send : val -> M unit;                     (* the function given to setSend *)
  user : nat -> list val -> option val      (* listener u applied: returns, or throws e *)
}.

(** ** The engine: promises, timers, event emitters *)

Module Engine.

Definition alloc (c : ctor) (s : pstate) : M pid :=
  fun w => (set_promises (fun ps => ps ++ [Promise c s []]) w, Ok (length (promises w))).

Definition enqueue (js : list job) : world -> world :=
  set_jobs (fun q => q ++ js).

Arguments enqueue js /.

(** Fulfil or reject: a promise settles once, and its reactions are
    queued in the order they were attached. *)
Definition settle (p : pid) (s : pstate) (w : world) : world :=
  match promises w !! p with
  | Some (Promise c Pending rs) =>
      enqueue (map (fun kd => Job kd.1 kd.2 s) rs)
              (set_promises (fun ps => <[p := Promise c s []]> ps) w)
  | _ => w
  end.

(** Attach the reaction [k], which settles [d], to [p]. *)
Definition subscribe (p : pid) (k : cont) (d : pid) (w : world) : world :=
  match promises w !! p with
  | Some (Promise c Pending rs) =>
      set_promises (fun ps => <[p := Promise c Pending (rs ++ [(k, d)])]> ps) w
  | Some (Promise _ s _) => enqueue [Job k d s] w
  | None => w
  end.

Definition ctor_of (p : pid) (w : world) : ctor :=
  match promises w !! p with Some pr => p_ctor pr | None => Global end.

(** [p.then(k)]: the derived promise is built by the constructor of [p]. *)
Definition then_ (p : pid) (k : cont) : M pid :=
  let! c := gets (ctor_of p) in
  let! d := alloc c Pending in
  do! modify (subscribe p k d) in
  ret d.

(** [C.resolve(x)] and [C.reject(e)] for a value that is no promise. *)
Definition resolved (c : ctor) (x : jsval) : M pid := alloc c (Fulfilled x).
Definition rejected (c : ctor) (e : val) : M pid := alloc c (Rejected e).

(** [C.resolve(p)] for a promise: [p] itself when [C] built it, else a
    promise of [C] that follows [p]. *)
Definition resolve_promise (c : ctor) (p : pid) : M pid :=
  let! c' := gets (ctor_of p) in
  if decide (c' = c) then ret p
  else let! d := alloc c Pending in
       do! modify (subscribe p KForward d) in
       ret d.

Definition state_of (p : pid) (w : world) : option pstate :=
  p_state <$> promises w !! p.

(** *** Timers *)

Definition setTimeout (ms : Z) (a : timer_action) : M unit :=
  modify (fun w => set_timers (fun ts => ts ++ [Timer (now w + ms) a]) w).

(** *** EventEmitter *)

Inductive emitter := LocalListeners | ActorRegistrations.

Definition table (em : emitter) (w : world) : gmap string (list listener) :=
  match em with
  | LocalListeners => localListeners w
  | ActorRegistrations => actorRegistrations w
  end.

Definition set_table (em : emitter)
    (f : gmap string (list listener) -> gmap string (list listener)) : world -> world :=
  match em with
  | LocalListeners => set_localListeners f
  | ActorRegistrations => set_actorRegistrations f
  end.

Definition listeners (em : emitter) (ev : string) (w : world) : list listener :=
  default [] (table em w !! ev).

Definition add_listener (em : emitter) (ev : string) (l : listener) : world -> world :=
  set_table em (fun t => <[ev := default [] (t !! ev) ++ [l]]> t).

Fixpoint remove_first (l : listener) (ls : list listener) : list listener :=
  match ls with
  | [] => []
  | l' :: ls' => if decide (l = l') then ls' else l' :: remove_first l ls'
  end.

Definition drop_listener (em : emitter) (ev : string) (l : listener) : world -> world :=
  set_table em (fun t => <[ev := remove_first l (default [] (t !! ev))]> t).

Arguments set_table !em f /.
Arguments add_listener em ev l /.
Arguments drop_listener em ev l /.

Definition is_once (l : listener) : bool :=
  match l with LUser _ o => o | LResolve _ | LProxyOff _ => true end.

Section Emit.
Variable E : env.

Definition invoke (l : listener) (args : list val) : M unit :=
  match l with
  | LResolve q => modify (settle q (Fulfilled (JData (default VUndef (head args)))))
  | LUser u _ =>
      do! modify (set_trace (fun t => t ++ [EvListener u args])) in
      match user E u args with
      | None => ret tt
      | Some e => throw e
      end
  | LProxyOff k => modify (set_proxies (fun ps => <[k := false]> ps))
  end.

(** The listeners present when [emit] starts are applied in order; a
    [once] listener is removed just before it is applied; a throw
    ends the round. *)
Fixpoint fire (em : emitter) (ev : string) (ls : list listener) (args : list val) : M unit :=
  match ls with
  | [] => ret tt
  | l :: ls' =>
      do! modify (if is_once l then drop_listener em ev l else id) in
      do! invoke l args in
      fire em ev ls' args
  end.

(** [emitter.emit(ev, ...args)].  Node throws on an ["error"] event
    that nobody listens to. *)
Definition emit (em : emitter) (ev : string) (args : list val) : M bool :=
  let! ls := gets (listeners em ev) in
  match ls with
  | [] =>
      if String.eqb ev "error"
      then throw (match head args with
                  | Some (VErr m st fs) => VErr m st fs
                  | _ => new_error "Unhandled error."
                  end)
      else ret false
  | _ => do! fire em ev ls args in ret true
  end.
End Emit.

(** *** universal-promise-helpers *)

(** Modelled from the spec: the package [universal-promise-helpers] is
    a dependency and not part of the sources.  [eventToPromise] is the
    "one-shot waiter" of section 4.D: a promise resolved with the
    first argument of the next [event]. *)
Definition eventToPromise (c : ctor) (em : emitter) (ev : string) : M pid :=
  let! q := alloc c Pending in
  do! modify (add_listener em ev (LResolve q)) in
  ret q.

(** Modelled from the spec: [timeout(C, n, promise, msg)] "races the
    waiter against a timeout producing an error message": a promise of
    [C] that follows [promise] unless the timer rejects it first. *)
Definition timeoutPromise (c : ctor) (n : Z) (p : pid) (msg : string) : M pid :=
  let! t := alloc c Pending in
  do! setTimeout n (TReject t msg) in
  do! modify (subscribe p KForward t) in
  ret t.

End Engine.

(** ** helpers.js *)

Module Helpers.

(** A promise made by a user function, settled the way the function
    planned it. *)
Definition user_promise (c : ctor) (b : planned) : M pid :=
  match b with
  | Already (Fulfils v) => Engine.alloc c (Fulfilled (JData v))
  | Already (Rejects e) => Engine.alloc c (Rejected e)
  | Never => Engine.alloc c Pending
  | Later ms s =>
      let! p := Engine.alloc c Pending in
      do! Engine.setTimeout ms (TSettle p s) in
      ret p
  end.

(** What applying a function gives back, when it does not throw. *)
Inductive returned := RValue (v : val) | RPromise (p : pid).

(** The outcome of a user function, carried out in the world. *)
Definition perform (o : outcome) : M returned :=
  match o with
  | Returns v => ret (RValue v)
  | Throws e => throw e
  | ReturnsPromise c b => mapM RPromise (user_promise c b)
  end.

(** [runEnsuringPromise(Promise, fn, params)], with [fn.apply(null,
    params)] given as the computation [fn].  [RValue v] is the
    [result] handed back as it is because [result.then] is truthy,
    although a value of the model is never a promise. *)
Definition runEnsuringPromise (c : ctor) (fn : M returned) : M returned :=
  attempt fn
    (fun result =>
       match result with
       | RPromise p => ret (RPromise p)
       | RValue v =>
           if truthy v && truthy (default VUndef (vget v "then"))
           then ret (RValue v)
           else mapM RPromise (Engine.resolved c (JData v))
       end)
    (fun e => mapM RPromise (Engine.rejected c e)).

End Helpers.

(** What a reaction hands back to the promise it settles: a value, or a
    promise to follow. *)
Inductive hres := HValue (x : jsval) | HPromise (p : pid).

(** ** actors.js *)

Module Actors.

Definition GET_PROPERTY : string := "-getActorProperty-".
Definition REGISTRATION_TIMEOUT : Z := 500.
Definition callTimeout : Z := 500.

Definition actorEventName (id eventName : string) : string :=
  "remote:" +:+ id +:+ ":" +:+ eventName.

(** [actors[id]]; a free slot reads [undefined].  The keys are the ids
    the registry was given.  [actors] is a plain object, so in the
    code an id that every object inherits ([constructor], [toString],
    [__proto__], ...) reads a truthy value on a registry that never
    bound it; the table does not hold these.  A statement about an id
    that is not bound is made for the other ids only (see
    [inherited]); what is stated of an id that is bound or expired
    holds for every id, the own property being read first. *)
Definition slot (id : string) (w : world) : jsval :=
  default (JData VUndef) (actors w !! id).

(** [_.methods(actor)].  The sources load lodash by the module paths
    of lodash 4 ([lodash/defaults], [lodash/extend], ...), and lodash 4
    has no [methods]: [_.methods] is [undefined] and applying it
    throws. *)
Definition lodash_methods (actor : jsval) : M val :=
  throw (type_error "_.methods is not a function").

(** [actor.emit = function(name) { ... }] on the object held in the slot.
    Objects are held by value: the assignment reaches the slot that
    was just written.  In the code an object that sits in another
    slot as well shows the new [emit] there too: of the other slots
    an exposure is only said to leave every field but [emit] as it
    was. *)
Definition wrap_emit (k : nat) (id : string) (x : jsval) : jsval :=
  match x with
  | JObject o =>
      JObject (assign "emit" (FWrappedEmit k id (default (FData VUndef) (assoc "emit" o))) o)
  | _ => x
  end.

Section Register.
Variable E : env.
(** [node.emit], as the node the registry is exposed on provides it. *)
Variable node_emit : string -> list val -> M pid.

Definition exposeActorEvents (id : string) (actor : jsval) : M unit :=
  match jget actor "on" with
  | None => throw (type_error "Cannot read property 'on' of null")
  | Some f =>
      if is_function f then
        let! k := gets (fun w => length (proxies w)) in
        do! modify (set_proxies (fun ps => ps ++ [true])) in
        do! modify (set_actors (fun m => <[id := wrap_emit k id actor]> m)) in
        modify (Engine.add_listener Engine.ActorRegistrations ("deregister:" +:+ id) (LProxyOff k))
      else ret tt
  end.

Definition exposeActor (id : string) (actor : jsval) : M unit :=
  if negb (String.eqb (typeof_js actor) "object")
  then throw (new_error "actor must be object")
  else
    let! found := gets (slot id) in
    if truthy_js found
    then throw (new_error ("duplicate actor id: " +:+ id))
    else
      do! modify (set_actors (fun m => <[id := actor]> m)) in
      do! exposeActorEvents id actor in
      do! Engine.emit E Engine.ActorRegistrations ("register:" +:+ id) [] in
      ret tt.

Definition expireActor (id : string) : M unit :=
  do! modify (set_actors (fun m => <[id := JExpired]> m)) in
  do! Engine.emit E Engine.ActorRegistrations ("deregister:" +:+ id) [] in
  ret tt.

Definition getLocalActor (id : string) : M jsval := gets (slot id).

Definition notExpired (found : jsval) : M hres :=
  match found with
  | JExpired => mapM HPromise (Engine.rejected (P E) (new_error "ActorExpired"))
  | _ => ret (HValue found)
  end.

(** The first branch goes through [Promise.resolve] of the ambient
    [Promise], the second through the helpers bound to
    [PromiseConstructor]. *)
Definition waitForActor (id : string) (n : Z) : M pid :=
  let! found := gets (slot id) in
  if truthy_js found then
    let! r := notExpired found in
    match r with
    | HValue x => Engine.resolved Global x
    | HPromise p => Engine.resolve_promise Global p
    end
  else
    let! q := Engine.eventToPromise (P E) Engine.ActorRegistrations ("register:" +:+ id) in
    let! t := Engine.timeoutPromise (P E) n q "ActorRegistrationTimeout" in
    Engine.then_ t (KNotExpired id).

Definition call (id : string) (method : val) (params : list val) : M pid :=
  let! a := waitForActor id REGISTRATION_TIMEOUT in
  Engine.then_ a (KRunCall method params).

Definition getActorProperty (id : string) (property : val) : M pid :=
  let! a := waitForActor id REGISTRATION_TIMEOUT in
  Engine.then_ a (KGetProp property).

(** [fireEvents(id, originalParams)], the listener of [actorEvents]. *)
Definition fireEvents (id : string) (originalParams : list val) : M unit :=
  do! node_emit (actorEventName id (to_string (default VUndef (head originalParams))))
                (tail originalParams) in
  ret tt.

(** [fn.apply(actor, args)] for a property of an actor. *)
Fixpoint apply_field (fn : field) (args : list val) : M Helpers.returned :=
  match fn with
  | FMethod f => Helpers.perform (f args)
  | FData _ => throw (type_error "not a function")
  | FWrappedEmit k id f =>
      let! proxy := gets (fun w => default false (proxies w !! k)) in
      do! (if proxy then fireEvents id args else ret tt) in
      do! apply_field f args in
      ret (Helpers.RValue VUndef)
  end.

(** [function runCall(actor)], the reaction of [call]. *)
Definition runCall (method : val) (params : list val) (actor : jsval) : M hres :=
  match jget actor (to_string method) with
  | None => throw (type_error "Cannot read property of null")
  | Some fn =>
      if is_function fn then
        let! r := Helpers.runEnsuringPromise (P E) (apply_field fn params) in
        match r with
        | Helpers.RPromise p =>
            mapM HPromise (Engine.timeoutPromise (P E) callTimeout p "ActorCallTimeout")
        | Helpers.RValue _ => throw (type_error "promise.then is not a function")
        end
      else
        (* error.method = method; error.methods = _.methods(actor); *)
        let! ms := lodash_methods actor in
        mapM HPromise
          (Engine.rejected (P E)
             (VErr (VStr "ActorNoSuchMethod") (VStr "Error: ActorNoSuchMethod")
                   [("method", method); ("methods", ms)]))
  end.

(** The reaction of [getActorProperty]. *)
Definition readProperty (property : val) (actor : jsval) : M hres :=
  match jget actor (to_string property) with
  | None => throw (type_error "Cannot read property of null")
  | Some f => ret (HValue (JData (prop_value f)))
  end.

Definition exposeActorApiOnNode : M unit :=
  let! ex := gets exposed in
  if ex then throw (new_error "can't expose two registries on node")
  else
    do! modify (set_methods (fun m => <["callActor" := HCallActor]> m)) in
    do! modify (set_methods (fun m => <[GET_PROPERTY := HGetActorProperty]> m)) in
    modify (set_exposed (fun _ => true)).

End Register.

End Actors.

(** ** rpcjs.js *)

Module Rpcjs.

(** The own enumerable properties [_.extend] copies from a source. *)
Definition own_enumerable (v : val) : list (string * val) :=
  match v with
  | VObj fs => fs
  | VErr _ _ fs => fs
  | VArr xs => imap (fun i x => (pretty i, x)) xs
  | VStr s => imap (fun i c => (pretty i, VStr (String c EmptyString))) (String.list_ascii_of_string s)
  | _ => []
  end.

(** [_.extend(target, source)] on plain fields. *)
Definition extend (target : list (string * val)) (source : val) : list (string * val) :=
  fold_left (fun acc kv => assign kv.1 kv.2 acc) (own_enumerable source) target.

(** [error[k] = x] on an instance of [Error]. *)
Definition set_error_field (e : val) (k : string) (x : val) : val :=
  match e with
  | VErr m st fs =>
      if String.eqb k "message" then VErr x st fs
      else if String.eqb k "stack" then VErr m x fs
      else VErr m st (assign k x fs)
  | _ => e
  end.

Definition ensureError (err : val) : val :=
  match err with
  | VErr m st fs => VErr m st (assign "remote" (VBool true) fs)
  | _ =>
      (* _.defaults(err || {}, { message: "RejectedWithNonError" }) *)
      let own := own_enumerable (js_or err (VObj [])) in
      let properties :=
        match assoc "message" own with
        | None | Some VUndef => assign "message" (VStr "RejectedWithNonError") own
        | Some _ => own
        end in
      let message := default VUndef (assoc "message" properties) in
      let error := set_error_field (new_error (to_string message)) "remote" (VBool true) in
      fold_left (fun e kv => set_error_field e kv.1 kv.2) properties error
  end.

(** [message[k]]; on [null] and [undefined] the read throws. *)
Definition read (message : val) (k : string) : M val :=
  match vget message k with
  | Some x => ret x
  | None => throw (type_error ("Cannot read property '" +:+ k +:+ "' of " +:+ to_string message))
  end.

Definition resultEvent (message : val) : M string :=
  let! id := read message "id" in
  ret ("result:" +:+ to_string id).

(** [fn.apply(null, params)] takes an array; nothing for [null] and
    [undefined]; an object without [length] gives no argument; a
    primitive throws. *)
Definition apply_args (params : val) : M (list val) :=
  match params with
  | VArr xs => ret xs
  | VUndef | VNull | VObj _ | VErr _ _ _ => ret []
  | _ => throw (type_error "CreateListFromArrayLike called on non-object")
  end.

(** [[event].concat(data)] without its head. *)
Definition concat_args (data : val) : list val :=
  match data with
  | VArr xs => xs
  | _ => [data]
  end.

Section Pair.
Variable E : env.

Definition createNextOutgoingId : M val :=
  do! modify (set_outgoingId (fun n => n + 1)) in
  let! n := gets outgoingId in
  ret (VStr (name E +:+ ":" +:+ pretty n)).

(** [function error(err)]: only the first argument reaches the sink. *)
Definition error (err : val) : M unit :=
  modify (set_trace (fun t => t ++ [EvError err])).

(** [send(message)], with the call recorded. *)
Definition call_send (message : val) : M unit :=
  do! modify (set_trace (fun t => t ++ [EvSend message])) in
  send E message.

Definition write (message : val) : M unit :=
  attempt (call_send message) (fun _ => ret tt) error.

Definition sendResult (id : val) (result : val) : M unit :=
  write (VObj [("id", id); ("type", VStr "result"); ("result", js_or result VNull)]).

Definition sendError (id : val) (err : val) : M unit :=
  let! n := read err "name" in
  let! m := read err "message" in
  let! st := read err "stack" in
  write (VObj [("id", id); ("type", VStr "result");
               ("error", VObj (extend [("name", n); ("message", m); ("stack", st)] err))]).

Definition acknowledgedWrite (message : val) (timeout : Z) : M pid :=
  let! ev := resultEvent message in
  let! result := Engine.eventToPromise (P E) Engine.LocalListeners ev in
  attempt (call_send message)
    (fun _ =>
       Engine.timeoutPromise (P E) timeout result
         ("TimeoutWaitingForWriteAck<" +:+ to_string (default VUndef (vget message "id"))
          +:+ "," +:+ to_string (default VUndef (vget message "type"))
          +:+ ",duration: " +:+ pretty timeout +:+ ">"))
    (fun e => Engine.rejected (P E) e).

(** [function handleResult(result)], the reaction of [call]. *)
Definition handleResult (result : val) : M hres :=
  match has_key "result" result with
  | None => throw (type_error "Cannot use 'in' operator")
  | Some true => ret (HValue (JData (default VUndef (vget result "result"))))
  | Some false =>
      match has_key "error" result with
      | Some true =>
          mapM HPromise
            (Engine.rejected (P E) (ensureError (default VUndef (vget result "error"))))
      | _ =>
          mapM HPromise
            (Engine.rejected (P E)
               (VErr (VStr "invalid result") (VStr "Error: invalid result")
                     [("result", result)]))
      end
  end.

(** [self.call], after [optionsAsFirstParameter]: [options] is the
    [timeout] of the options object when it has one. *)
Definition call (options : option Z) (method : val) (params : list val) : M pid :=
  let! id := createNextOutgoingId in
  let! t := acknowledgedWrite
              (VObj [("id", id); ("type", VStr "call");
                     ("method", method); ("params", VArr params)])
              (default (timeout E) options) in
  Engine.then_ t KHandleResult.

(** [self.emit], after [optionsAsFirstParameter]. *)
Definition emit (options : option Z) (evt : val) (data : list val) : M pid :=
  let! id := createNextOutgoingId in
  acknowledgedWrite
    (VObj [("id", id); ("type", VStr "notify"); ("event", evt); ("data", VArr data)])
    (default (emitTimeout E) options).

(** A handler of the [methods] table applied to [params]. *)
Definition apply_handler (h : handler) (params : val) : M Helpers.returned :=
  let! args := apply_args params in
  match h with
  | HUser f => Helpers.perform (f args)
  | HCallActor =>
      mapM Helpers.RPromise
        (Actors.call E (to_string (default VUndef (args !! 0%nat)))
                     (default VUndef (args !! 1%nat)) (drop 2 args))
  | HGetActorProperty =>
      mapM Helpers.RPromise
        (Actors.getActorProperty E (to_string (default VUndef (args !! 0%nat)))
                                 (default VUndef (args !! 1%nat)))
  end.

Definition callIncoming (message : val) : M unit :=
  let! method := read message "method" in
  let! params := read message "params" in
  let! id := read message "id" in
  let! fn := gets (fun w => methods w !! to_string method) in
  match fn with
  | Some h =>
      let! r := Helpers.runEnsuringPromise (P E) (apply_handler h params) in
      match r with
      | Helpers.RPromise p => do! Engine.then_ p (KReply id) in ret tt
      | Helpers.RValue _ => throw (type_error "then is not a function")
      end
  | None =>
      sendError id (VErr (VStr "NoSuchMethod") (VStr "Error: NoSuchMethod")
                         [("method", method); ("params", params)])
  end.

(** The closure [notifyIncoming] hands to [wrapEffects]. *)
Definition deliver (message : val) : M unit :=
  let! ev := read message "event" in
  let! data := read message "data" in
  do! Engine.emit E Engine.LocalListeners (to_string ev) (concat_args data) in
  ret tt.

Definition notifyIncoming (message : val) : M unit :=
  let! id := read message "id" in
  do! sendResult id VUndef in
  wrapEffects E (deliver message).

Definition incoming (message : val) : M val :=
  let! ty := read message "type" in
  match ty with
  | VStr "call" => do! callIncoming message in ret VUndef
  | VStr "notify" => do! notifyIncoming message in ret VUndef
  | VStr "result" =>
      let! ev := resultEvent message in
      mapM VBool (Engine.emit E Engine.LocalListeners ev [message])
  | _ => do! error (VStr "unknown message type") in ret VUndef
  end.

(** [self.expose(name, fn)] *)
Definition expose (k : string) (h : handler) : M unit :=
  modify (set_methods (fun m => <[k := h]> m)).

(** [self.on], [self.once] with the user's function [u]. *)
Definition on (ev : string) (u : nat) : M unit :=
  modify (Engine.add_listener Engine.LocalListeners ev (LUser u false)).
Definition once (ev : string) (u : nat) : M unit :=
  modify (Engine.add_listener Engine.LocalListeners ev (LUser u true)).

End Pair.

End Rpcjs.

(** ** The event loop *)

Module Loop.

Section Run.
Variable E : env.

(** The reaction [k] applied to the state its promise settled in.
    Only [KReply] handles a rejection; through the others it passes. *)
Definition run_cont (k : cont) (s : pstate) : M hres :=
  match s with
  | Pending => ret (HValue (JData VUndef))
  | Fulfilled x =>
      match k with
      | KForward => ret (HValue x)
      | KHandleResult => Rpcjs.handleResult E (wire x)
      | KReply id => do! Rpcjs.sendResult E id (wire x) in ret (HValue (JData VUndef))
      | KNotExpired id => let! found := gets (Actors.slot id) in Actors.notExpired E found
      | KRunCall method params =>
          Actors.runCall E (fun ev data => Rpcjs.emit E None (VStr ev) data) method params x
      | KGetProp property => Actors.readProperty property x
      end
  | Rejected e =>
      match k with
      | KReply id => do! Rpcjs.sendError E id e in ret (HValue (JData VUndef))
      | _ => throw e
      end
  end.

(** One job of the microtask queue: run the reaction and settle the
    derived promise with what it gives. *)
Definition run_job (j : job) : M unit :=
  attempt (run_cont (j_cont j) (j_state j))
    (fun r =>
       match r with
       | HValue x => modify (Engine.settle (j_target j) (Fulfilled x))
       | HPromise p => modify (Engine.subscribe p KForward (j_target j))
       end)
    (fun e => modify (Engine.settle (j_target j) (Rejected e))).

(** Run at most [fuel] jobs, oldest first. *)
Fixpoint drain (fuel : nat) (w : world) : world :=
  match fuel with
  | O => w
  | S n =>
      match jobs w with
      | [] => w
      | j :: js => drain n (run_job j (set_jobs (fun _ => js) w)).1
      end
  end.

(** A timer that is due. *)
Definition fire (a : timer_action) (w : world) : world :=
  match a with
  | TReject p msg => Engine.settle p (Rejected (new_error msg)) w
  | TSettle p (Fulfils v) => Engine.settle p (Fulfilled (JData v)) w
  | TSettle p (Rejects e) => Engine.settle p (Rejected e) w
  end.

(** The timer to run next among those due by [limit]: the earliest,
    and among equals the one set first. *)
Fixpoint next_due (limit : Z) (ts : list timer) : option (timer * list timer) :=
  match ts with
  | [] => None
  | t :: ts' =>
      match next_due limit ts' with
      | Some (t', rest) =>
          if bool_decide (t_due t <= limit) && bool_decide (t_due t <= t_due t')
          then Some (t, ts') else Some (t', t :: rest)
      | None => if bool_decide (t_due t <= limit) then Some (t, ts') else None
      end
  end.

(** Let the clock reach [limit]: each timer due before runs at its
    time, and the queue is drained after it. *)
Fixpoint run_until (fuel : nat) (limit : Z) (w : world) : world :=
  match fuel with
  | O => w
  | S n =>
      match next_due limit (timers w) with
      | None => set_now (fun t => Z.max t limit) w
      | Some (t, rest) =>
          let w1 := set_now (fun c => Z.max c (t_due t)) (set_timers (fun _ => rest) w) in
          run_until n limit (drain fuel (fire (t_act t) w1))
      end
  end.

Definition advance (fuel : nat) (ms : Z) (w : world) : world :=
  run_until fuel (now w + ms) w.

End Run.

End Loop.

(** ** Histories *)

(** What the host and the peer can do to a pair and its registry, one
    step at a time.  The microtask queue and the clock move by steps of
    their own. *)
Inductive action :=
| DoIncoming (message : val)
| DoCall (options : option Z) (method : val) (params : list val)
| DoEmit (options : option Z) (evt : val) (data : list val)
| DoExpose (k : string) (h : handler)
| DoOn (ev : string) (u : nat)
| DoOnce (ev : string) (u : nat)
| DoExposeRegistry
| DoExposeActor (id : string) (actor : jsval)
| DoExpireActor (id : string)
| DoDrain (fuel : nat)
| DoAdvance (fuel : nat) (ms : Z).

Definition perform (E : env) (a : action) (w : world) : world :=
  match a with
  | DoIncoming message => (Rpcjs.incoming E message w).1
  | DoCall options method params => (Rpcjs.call E options method params w).1
  | DoEmit options evt data => (Rpcjs.emit E options evt data w).1
  | DoExpose k h => (Rpcjs.expose k h w).1
  | DoOn ev u => (Rpcjs.on ev u w).1
  | DoOnce ev u => (Rpcjs.once ev u w).1
  | DoExposeRegistry => (Actors.exposeActorApiOnNode w).1
  | DoExposeActor id actor => (Actors.exposeActor E id actor w).1
  | DoExpireActor id => (Actors.expireActor E id w).1
  | DoDrain fuel => Loop.drain E fuel w
  | DoAdvance fuel ms => Loop.advance E fuel ms w
  end.

Definition run (E : env) (acts : list action) (w : world) : world :=
  fold_left (fun w a => perform E a w) acts w.

(** ** Predicates of the statements *)

(** The slot of [id] holds the sentinel. *)
Definition expired (id : string) (w : world) : Prop :=
  Actors.slot id w = JExpired.

(** [id] is bound, as the registry's own tests [if(actors[id])] and
    [if(found)] see it. *)
Definition bound (id : string) (w : world) : bool :=
  truthy_js (Actors.slot id w).

(** A value [typeof] calls an object and that is not [null]. *)
Definition non_null_object (x : jsval) : bool :=
  match x with
  | JObject _ | JExpired => true
  | JData (VObj _) | JData (VArr _) | JData (VErr _ _ _) => true
  | _ => false
  end.

Fixpoint starts_with (p s : string) : bool :=
  match p, s with
  | EmptyString, _ => true
  | String a p', String b s' => Ascii.eqb a b && starts_with p' s'
  | String _ _, EmptyString => false
  end.

(** [/p/.test(s)] for a pattern without special characters. *)
Fixpoint matches (p s : string) : bool :=
  starts_with p s ||
  match s with
  | EmptyString => false
  | String _ s' => matches p s'
  end.

(** [err.message], as text. *)
Definition message_of (e : val) : string :=
  to_string (default VUndef (vget e "message")).

(** The listeners of the registry's private emitter are its own. *)
Definition internal (l : listener) : bool :=
  match l with LUser _ _ => false | _ => true end.

Definition registrations_internal (w : world) : Prop :=
  forall ev, forallb internal (Engine.listeners Engine.ActorRegistrations ev w) = true.

(** A transport that keeps the frames it is given and never throws. *)
Definition send_queue (m : val) : M unit :=
  modify (set_outbox (fun o => o ++ [m])).

(** The pair of the tests: bluebird as the promise constructor, the
    default effect wrapper, listeners that return. *)
Definition test_env (nm : string) : env :=
  Env nm (Library 0) 500 500 (fun fn => fn) send_queue (fun _ _ => None).


(** ** The rest of the sources *)

(** [send] as [RpcPair] starts with it, before [setSend] was called. *)
Definition missing_send (m : val) : M unit :=
  throw (new_error "missing send function").

(** [node.emit], the [emit] of the pair the registry is exposed on: an
    event name is a string, so the options are the defaults. *)
Definition node_emit (E : env) (ev : string) (data : list val) : M pid :=
  Rpcjs.emit E None (VStr ev) data.

(** *** actors.js: [mixin] and [RemoteActor] *)

Module Remote.


(** [RemoteActor.get(name)] *)
Definition get (E : env) (remoteId name : val) : M pid :=
  Rpcjs.call E None (VStr Actors.GET_PROPERTY) [remoteId; name].

(** [RemoteActor.on(name, fn)], [RemoteActor.once(name, fn)] *)
Definition on (remoteId name : string) (u : nat) : M unit :=
  Rpcjs.on (Actors.actorEventName remoteId name) u.
Definition once (remoteId name : string) (u : nat) : M unit :=
  Rpcjs.once (Actors.actorEventName remoteId name) u.

End Remote.

(** *** decorators.js *)

Module Decorators.

(** What [keyValueOrObject] is applied to: a name and a value, or an
    object of values.  The entries of the object are in the order
    [_.each] visits them. *)
Inductive key_or_object (A : Type) :=
| KeyValue (name : string) (value : A)
| ObjectOf (entries : list (string * A)).
Arguments KeyValue {A} name value.
Arguments ObjectOf {A} entries.

(** [keyValueOrObject(fn)]: the result of the last application of
    [fn]; [None] is the [undefined] an object without entries gives. *)
Definition keyValueOrObject {A B} (fn : string -> A -> M B) (arg : key_or_object A)
  : M (option B) :=
  match arg with
  | KeyValue name value => mapM Some (fn name value)
  | ObjectOf entries =>
      fold_left (fun acc kv => do! acc in mapM Some (fn kv.1 kv.2)) entries (ret None)
  end.

End Decorators.

(** [self.expose], decorated, on handlers. *)
Definition expose_any (arg : Decorators.key_or_object handler) : M (option unit) :=
  Decorators.keyValueOrObject Rpcjs.expose arg.

(** *** The stream transport *)

Module StreamTransport.

Definition newline : Ascii.ascii := Ascii.ascii_of_nat 10.

(** [s.split("\n")]: the pieces between the newlines; never empty. *)
Fixpoint split (s : string) : list string :=
  match s with
  | EmptyString => [EmptyString]
  | String c s' =>
      if Ascii.eqb c newline then EmptyString :: split s'
      else match split s' with
           | l :: ls => String c l :: ls
           | [] => [String c EmptyString]
           end
  end.

Section Stream.
Variable E : env.
(** [JSON.parse], which returns or throws, and [JSON.stringify]. *)
Variable parse : string -> res val.
Variable stringify : val -> string.
(** [stream.emit("error", err)] and [stream.write(s)], as the stream
    has them. *)
Variable stream_error : val -> M unit.
Variable stream_write : string -> M unit.
(** What the stream hands to a listener of ["data"], and the string
    [buf += data] appends for it: the chunk itself when the stream
    gives strings; for a [Buffer] its [toString()], which decodes the
    bytes of this chunk alone, so that a character cut by the end of
    a chunk is not put together again. *)
Variable D : Type.
Variable text_of : D -> string.

(** [JSON.stringify(msg) + "\n"] *)
Definition written (msg : val) : string :=
  stringify msg +:+ String newline EmptyString.

(** [exports.send] *)
Definition send (msg : val) : M unit := stream_write (written msg).

(** The body of [lines.forEach]. *)
Definition deliver_line (line : string) : M unit :=
  let! parsed :=
    match parse line with
    | Ok v => ret v
    | Throw e =>
        do! stream_error (VErr (VStr "RpcStreamTransportJsonParseError")
                               (VStr "Error: RpcStreamTransportJsonParseError")
                               [("line", VStr line); ("original", e)]) in
        ret VUndef
    end in
  do! Rpcjs.incoming E parsed in
  ret tt.

Fixpoint forEach (lines : list string) : M unit :=
  match lines with
  | [] => ret tt
  | line :: lines' => do! deliver_line line in forEach lines'
  end.

(** The listener of ["data"]: the new value of [buf], and what the
    listener does. *)
Definition on_data (buf : string) (data : D) : string * M unit :=
  let lines := split (buf +:+ text_of data) in
  (List.last lines EmptyString, forEach (removelast lines)).

End Stream.

Arguments on_data E parse stream_error {D} text_of buf data.

(** The listener applied to one chunk after the other, for what it
    does to [buf]: the lines it completes, and [buf] after the last
    chunk. *)
Fixpoint framed {D} (text_of : D -> string) (buf : string) (chunks : list D)
  : list string * string :=
  match chunks with
  | [] => ([], buf)
  | data :: chunks' =>
      let lines := split (buf +:+ text_of data) in
      let '(rest, buf') := framed text_of (List.last lines EmptyString) chunks' in
      (removelast lines ++ rest, buf')
  end.

End StreamTransport.


(** ** What the statements are written with *)

(** A computation keeps [I], a world transformer keeps [I]. *)
Definition keeps {A} (I : world -> Prop) (m : M A) : Prop :=
  forall w, I w -> I (m w).1.

Definition wkeeps (I : world -> Prop) (f : world -> world) : Prop :=
  forall w, I w -> I (f w).

(** A computation that only ever adds to the trace. *)
Definition only_adds {A} (m : M A) : Prop :=
  forall w, trace w `prefix_of` trace (m w).1.

(** The frames of the protocol, as [call], [emit] and [sendResult]
    build them. *)
Definition call_frame (id method : val) (params : list val) : val :=
  VObj [("id", id); ("type", VStr "call"); ("method", method); ("params", VArr params)].

Definition notify_frame (id evt : val) (data : list val) : val :=
  VObj [("id", id); ("type", VStr "notify"); ("event", evt); ("data", VArr data)].

(** [sendResult(id)]: the acknowledgement of a [notify]. *)
Definition ack (id : val) : val :=
  VObj [("id", id); ("type", VStr "result"); ("result", VNull)].



(** A frame of type [result] that carries the correlation id [id]. *)
Definition result_frame (id : val) (f : val) : Prop :=
  vget f "type" = Some (VStr "result") /\ vget f "id" = Some id.

(** The correlation id the next outgoing message will carry. *)
Definition next_id (E : env) (w : world) : string :=
  name E +:+ ":" +:+ pretty (outgoingId w + 1).

(** The call with result event [ev] is under way: the waiter [q] is
    the one listener of [ev], the timeout promise [t] follows it, and
    the promise [r] handed to the caller waits for [handleResult]. *)
Definition awaiting (ev : string) (q t r : pid) (w : world) : Prop :=
  Engine.listeners Engine.LocalListeners ev w = [LResolve q] /\
  (exists c, promises w !! q = Some (Promise c Pending [(KForward, t)])) /\
  (exists c, promises w !! t = Some (Promise c Pending [(KHandleResult, r)])) /\
  (exists c, promises w !! r = Some (Promise c Pending [])) /\
  jobs w = [] /\ q <> t /\ t <> r /\ q <> r.

(** The timeout promise [t] is about to follow a waiter that was
    resolved with [f]; [r] waits for [handleResult]. *)
Definition forwarding (f : val) (t r : pid) (w : world) : Prop :=
  jobs w = [Job KForward t (Fulfilled (JData f))] /\
  (exists c, promises w !! t = Some (Promise c Pending [(KHandleResult, r)])) /\
  (exists c, promises w !! r = Some (Promise c Pending [])) /\
  t <> r.

(** A send function that hands the frame over and returns: it touches
    nothing of the pair but what the transport keeps. *)
Definition quiet_send (E : env) : Prop :=
  forall m w, exists ob tr,
    send E m w = (set_outbox (fun _ => ob) (set_trace (fun _ => tr) w), Ok tt).

(** The state in which a result frame [f] leaves the promise of its
    call, case by case as [handleResult] tells them apart. *)
Definition result_state (f : val) : pstate :=
  match has_key "result" f with
  | None => Rejected (type_error "Cannot use 'in' operator")
  | Some true => Fulfilled (JData (default VUndef (vget f "result")))
  | Some false =>
      match has_key "error" f with
      | Some true => Rejected (Rpcjs.ensureError (default VUndef (vget f "error")))
      | _ => Rejected (VErr (VStr "invalid result") (VStr "Error: invalid result")
                            [("result", f)])
      end
  end.

(** An in-process transport that answers at once: [send(m)] hands
    [reply m] to [incoming] before it returns. *)
Definition answering (E0 : env) (reply : val -> val) : env :=
  Env (name E0) (P E0) (timeout E0) (emitTimeout E0) (wrapEffects E0)
      (fun m => mapM (fun _ => tt) (Rpcjs.incoming E0 (reply m)))
      (user E0).

(** A peer reduced to its answers: every frame is acknowledged with an
    empty result. *)
Definition acknowledge (m : val) : val :=
  ack (default VUndef (vget m "id")).

(** [echo: x => x] *)
Definition echo (args : list val) : outcome := Returns (default VUndef (head args)).

(** [result && result.then] is falsy. *)
Definition thenless (v : val) : bool :=
  negb (truthy v && truthy (default VUndef (vget v "then"))).

(** The session of the tests: the client calls [echo(v)], the frames
    cross, each side drains its queue. *)
Definition echo_session (v : val) : option pstate :=
  let C := test_env "client" in
  let S := test_env "server" in
  let ws := (Rpcjs.expose "echo" (HUser echo) empty_world).1 in
  let '(wc1, r) := Rpcjs.call C None (VStr "echo") [v] empty_world in
  let ws1 := fold_left (fun w m => Loop.drain S 5 (Rpcjs.incoming S m w).1) (outbox wc1) ws in
  let wc2 := fold_left (fun w m => Loop.drain C 5 (Rpcjs.incoming C m w).1) (outbox ws1) wc1 in
  match r with
  | Ok p => Engine.state_of p wc2
  | Throw _ => None
  end.

(** A result frame with neither [result] nor [error], and the client
    of the tests after it answered [add(10, 5)]. *)
Definition bare_result : val := VObj [("id", VStr "client:1"); ("type", VStr "result")].

Definition after_bare_result : world :=
  let E := test_env "client" in
  Loop.drain E 3
    (Rpcjs.incoming E bare_result
       (Rpcjs.call E None (VStr "add") [VNum 10; VNum 5] empty_world).1).1.


(** ** What the further statements are written with *)

Definition is_error (v : val) : bool :=
  match v with VErr _ _ _ => true | _ => false end.

(** [null] and [undefined]: the values no property can be read of. *)
Definition nullish (v : val) : bool :=
  match v with VUndef | VNull => true | _ => false end.

(** A handler that throws [e], or returns a promise rejected with [e]. *)
Definition fails_with (o : outcome) (e : val) : Prop :=
  o = Throws e \/ exists c, o = ReturnsPromise c (Already (Rejects e)).

(** The state the promise of a function call comes to without waiting
    for a timer: the value it returns or resolves with, the error it
    throws or rejects with. *)
Definition settles_as (o : outcome) (s : pstate) : Prop :=
  match o with
  | Returns v => thenless v = true /\ s = Fulfilled (JData v)
  | Throws e => s = Rejected e
  | ReturnsPromise _ (Already (Fulfils v)) => s = Fulfilled (JData v)
  | ReturnsPromise _ (Already (Rejects e)) => s = Rejected e
  | ReturnsPromise _ _ => False
  end.

(** The frame [sendResult(id, v)] writes. *)
Definition result_of (id v : val) : val :=
  VObj [("id", id); ("type", VStr "result"); ("result", js_or v VNull)].

(** The frame [sendError(id, e)] writes. *)
Definition error_frame (id e : val) : val :=
  VObj [("id", id); ("type", VStr "result");
        ("error", VObj (Rpcjs.extend
                          [("name", default VUndef (vget e "name"));
                           ("message", default VUndef (vget e "message"));
                           ("stack", default VUndef (vget e "stack"))] e))].

(** The reply to a request whose handler's promise settled in [s]. *)
Definition reply_frame (id : val) (s : pstate) : val :=
  match s with
  | Rejected e => error_frame id e
  | Fulfilled x => result_of id (wire x)
  | Pending => VUndef
  end.

(** A settlement [sendResult] or [sendError] can write a reply for. *)
Definition answered (s : pstate) : bool :=
  match s with
  | Fulfilled _ => true
  | Rejected e => negb (nullish e)
  | Pending => false
  end.

(** The error [callIncoming] builds for a method it does not find. *)
Definition no_such_method (method params : val) : val :=
  VErr (VStr "NoSuchMethod") (VStr "Error: NoSuchMethod")
       [("method", method); ("params", params)].

(** The names every JS object inherits from [Object.prototype]: the
    table [methods = {}] answers them although nothing was stored
    under them. *)
Definition inherited (k : string) : bool :=
  bool_decide (k ∈ ["constructor"; "toString"; "toLocaleString"; "valueOf";
                    "hasOwnProperty"; "isPrototypeOf"; "propertyIsEnumerable";
                    "__proto__"; "__defineGetter__"; "__defineSetter__";
                    "__lookupGetter__"; "__lookupSetter__"]).


(** A send function that throws [e] and does nothing else, as a closed
    socket would. *)
Definition send_throws (E : env) (e : val) : Prop :=
  forall m w, send E m w = (w, Throw e).

(** The string holds a colon. *)
Fixpoint has_colon (s : string) : bool :=
  match s with
  | EmptyString => false
  | String c s' => String.eqb (String c EmptyString) ":" || has_colon s'
  end.

(** The complete lines of a text, and the partial line after them. *)
Definition complete (s : string) : list string :=
  removelast (StreamTransport.split s).
Definition partial (s : string) : string :=
  List.last (StreamTransport.split s) EmptyString.

(** The strings of a sequence, joined. *)
Definition joined (chunks : list string) : string :=
  fold_right String.append EmptyString chunks.

Fixpoint newline_free (s : string) : bool :=
  match s with
  | EmptyString => true
  | String c s' => negb (Ascii.eqb c StreamTransport.newline) && newline_free s'
  end.

(** What [send] writes for the messages of [ms], one after the other. *)
Definition encoded (stringify : val -> string) (ms : list val) : string :=
  joined (map (StreamTransport.written stringify) ms).

(** [pair.incoming] applied to each message in turn, as long as none
    throws. *)
Fixpoint incoming_each (E : env) (ms : list val) : M unit :=
  match ms with
  | [] => ret tt
  | m :: ms' => do! Rpcjs.incoming E m in incoming_each E ms'
  end.

(** A message a program sends: a [call] or an [emit], with the
    options it gives. *)
Inductive outgoing :=
| OCall (options : option Z) (method : val) (params : list val)
| OEmit (options : option Z) (evt : val) (data : list val).

Definition send_one (E : env) (o : outgoing) : M pid :=
  match o with
  | OCall options method params => Rpcjs.call E options method params
  | OEmit options evt data => Rpcjs.emit E options evt data
  end.

(** The messages of [os] sent one after the other, the promises
    dropped. *)
Fixpoint send_all (E : env) (os : list outgoing) : M unit :=
  match os with
  | [] => ret tt
  | o :: os' => do! send_one E o in send_all E os'
  end.

(** The frame of a message under the id [id]. *)
Definition frame_of (id : string) (o : outgoing) : val :=
  match o with
  | OCall _ method params => call_frame (VStr id) method params
  | OEmit _ evt data => notify_frame (VStr id) evt data
  end.

(** The frames of [os] when the counter stands at [k]. *)
Fixpoint frames_from (E : env) (k : Z) (os : list outgoing) : list val :=
  match os with
  | [] => []
  | o :: os' => frame_of (name E +:+ ":" +:+ pretty (k + 1)) o :: frames_from E (k + 1) os'
  end.

(** * What leaves the registry alone *)

Section Frame.
Variable I : world -> Prop.
Hypothesis I_stable :
  forall w w', actors w' = actors w -> trace w `prefix_of` trace w' -> I w -> I w'.

Lemma keeps_ret {A} (a : A) : keeps I (ret a).
Proof. intros w H. exact H. Qed.

Lemma keeps_throw {A} e : keeps I (@throw A e).
Proof. intros w H. exact H. Qed.

Lemma keeps_gets {A} (f : world -> A) : keeps I (gets f).
Proof. intros w H. exact H. Qed.

Lemma keeps_modify f : wkeeps I f -> keeps I (modify f).
Proof. intros Hf w H. apply Hf, H. Qed.

Lemma keeps_bind {A B} (m : M A) (k : A -> M B) :
  keeps I m -> (forall a, keeps I (k a)) -> keeps I (bind m k).
Proof.
  intros Hm Hk w H. unfold bind. specialize (Hm w H).
  destruct (m w) as [w' [a|e]]; simpl in *; [apply Hk|]; assumption.
Qed.

Lemma keeps_attempt {A B} (m : M A) (k : A -> M B) (h : val -> M B) :
  keeps I m -> (forall a, keeps I (k a)) -> (forall e, keeps I (h e)) -> keeps I (attempt m k h).
Proof.
  intros Hm Hk Hh w H. unfold attempt. specialize (Hm w H).
  destruct (m w) as [w' [a|e]]; simpl in *; [apply Hk | apply Hh]; assumption.
Qed.

Lemma keeps_mapM {A B} (f : A -> B) (m : M A) : keeps I m -> keeps I (mapM f m).
Proof.
  intros Hm w H. unfold mapM. specialize (Hm w H).
  destruct (m w) as [w' [a|e]]; simpl in *; assumption.
Qed.

Lemma wkeeps_same f :
  (forall w, actors (f w) = actors w /\ trace w `prefix_of` trace (f w)) -> wkeeps I f.
Proof. intros Hf w H. destruct (Hf w). by eapply I_stable. Qed.

Ltac stable :=
  match goal with
  | H : I ?w |- _ =>
      apply (I_stable w);
      [reflexivity | first [reflexivity | by apply prefix_app_r] | exact H]
  end.

Lemma wkeeps_id : wkeeps I id.
Proof. intros w H. exact H. Qed.

Ltac same :=
  apply wkeeps_same; intros;
  repeat match goal with
         | |- context [match ?x with _ => _ end] => destruct x
         end;
  (split; [reflexivity | first [reflexivity | by apply prefix_app_r]]).

Lemma settle_keeps p s : wkeeps I (Engine.settle p s).
Proof. unfold Engine.settle. same. Qed.

Lemma subscribe_keeps p k d : wkeeps I (Engine.subscribe p k d).
Proof. unfold Engine.subscribe. same. Qed.

Lemma alloc_keeps c s : keeps I (Engine.alloc c s).
Proof. intros w H. stable. Qed.

Lemma add_listener_keeps em ev l : wkeeps I (Engine.add_listener em ev l).
Proof. unfold Engine.add_listener, Engine.set_table. same. Qed.

Lemma drop_listener_keeps em ev l : wkeeps I (Engine.drop_listener em ev l).
Proof. unfold Engine.drop_listener, Engine.set_table. same. Qed.

Create HintDb frame.
Hint Resolve keeps_ret keeps_throw keeps_gets keeps_modify keeps_mapM
  settle_keeps subscribe_keeps alloc_keeps add_listener_keeps drop_listener_keeps
  wkeeps_id : frame.

Ltac keeps_step :=
  lazymatch goal with
  | |- keeps _ (bind _ _) => apply keeps_bind; [| intros ?]
  | |- keeps _ (attempt _ _ _) => apply keeps_attempt; [| intros ? | intros ?]
  | |- keeps _ (mapM _ _) => apply keeps_mapM
  | |- keeps _ (modify _) => apply keeps_modify
  | |- keeps _ (ret _) => apply keeps_ret
  | |- keeps _ (throw _) => apply keeps_throw
  | |- keeps _ (gets _) => apply keeps_gets
  | |- keeps _ (match ?x with _ => _ end) => destruct x
  | |- wkeeps _ (match ?x with _ => _ end) => destruct x
  | |- wkeeps _ _ => first [solve [eauto with frame] | same]
  | |- _ => solve [eauto with frame]
  end.

Ltac keeps_go := repeat keeps_step.

Lemma then_keeps p k : keeps I (Engine.then_ p k).
Proof. unfold Engine.then_. keeps_go. Qed.

Lemma resolved_keeps c x : keeps I (Engine.resolved c x).
Proof. apply alloc_keeps. Qed.

Lemma rejected_keeps c e : keeps I (Engine.rejected c e).
Proof. apply alloc_keeps. Qed.

Lemma resolve_promise_keeps c p : keeps I (Engine.resolve_promise c p).
Proof. unfold Engine.resolve_promise. keeps_go. Qed.

Lemma setTimeout_keeps ms a : keeps I (Engine.setTimeout ms a).
Proof. unfold Engine.setTimeout. keeps_go. Qed.

Lemma eventToPromise_keeps c em ev : keeps I (Engine.eventToPromise c em ev).
Proof. unfold Engine.eventToPromise. keeps_go. Qed.

Hint Resolve then_keeps resolved_keeps rejected_keeps resolve_promise_keeps
  setTimeout_keeps eventToPromise_keeps : frame.

Lemma timeoutPromise_keeps c n p msg : keeps I (Engine.timeoutPromise c n p msg).
Proof. unfold Engine.timeoutPromise. keeps_go. Qed.

Hint Resolve timeoutPromise_keeps : frame.

Variable E : env.
Hypothesis send_keeps : forall m, keeps I (send E m).
Hypothesis wrap_keeps : forall fn, keeps I fn -> keeps I (wrapEffects E fn).

Lemma invoke_keeps l args : keeps I (Engine.invoke E l args).
Proof. unfold Engine.invoke. keeps_go. Qed.

Hint Resolve invoke_keeps : frame.

Lemma fire_keeps em ev ls args : keeps I (Engine.fire E em ev ls args).
Proof. induction ls as [|l ls IH]; simpl; keeps_go. Qed.

Hint Resolve fire_keeps : frame.

Lemma emit_keeps em ev args : keeps I (Engine.emit E em ev args).
Proof. unfold Engine.emit. keeps_go. Qed.

Hint Resolve emit_keeps : frame.

Lemma user_promise_keeps c b : keeps I (Helpers.user_promise c b).
Proof. unfold Helpers.user_promise. keeps_go. Qed.

Hint Resolve user_promise_keeps : frame.

Lemma perform_keeps o : keeps I (Helpers.perform o).
Proof. unfold Helpers.perform. keeps_go. Qed.

Hint Resolve perform_keeps : frame.

Lemma runEnsuringPromise_keeps c fn : keeps I fn -> keeps I (Helpers.runEnsuringPromise c fn).
Proof. intros Hfn. unfold Helpers.runEnsuringPromise. keeps_go. Qed.

Hint Resolve runEnsuringPromise_keeps : frame.

Lemma notExpired_keeps found : keeps I (Actors.notExpired E found).
Proof. unfold Actors.notExpired. keeps_go. Qed.

Hint Resolve notExpired_keeps : frame.

Lemma waitForActor_keeps id n : keeps I (Actors.waitForActor E id n).
Proof. unfold Actors.waitForActor. keeps_go. Qed.

Hint Resolve waitForActor_keeps : frame.

Lemma actors_call_keeps id method params : keeps I (Actors.call E id method params).
Proof. unfold Actors.call. keeps_go. Qed.

Lemma getActorProperty_keeps id property : keeps I (Actors.getActorProperty E id property).
Proof. unfold Actors.getActorProperty. keeps_go. Qed.

Lemma readProperty_keeps property x : keeps I (Actors.readProperty property x).
Proof. unfold Actors.readProperty. keeps_go. Qed.

Hint Resolve actors_call_keeps getActorProperty_keeps readProperty_keeps : frame.

Lemma read_keeps m k : keeps I (Rpcjs.read m k).
Proof. unfold Rpcjs.read. keeps_go. Qed.

Hint Resolve read_keeps : frame.

Lemma resultEvent_keeps m : keeps I (Rpcjs.resultEvent m).
Proof. unfold Rpcjs.resultEvent. keeps_go. Qed.

Lemma apply_args_keeps m : keeps I (Rpcjs.apply_args m).
Proof. unfold Rpcjs.apply_args. keeps_go. Qed.

Lemma createNextOutgoingId_keeps : keeps I (Rpcjs.createNextOutgoingId E).
Proof. unfold Rpcjs.createNextOutgoingId. keeps_go. Qed.

Lemma error_keeps e : keeps I (Rpcjs.error e).
Proof. unfold Rpcjs.error. keeps_go. Qed.

Hint Resolve resultEvent_keeps apply_args_keeps createNextOutgoingId_keeps error_keeps : frame.

Lemma call_send_keeps m : keeps I (Rpcjs.call_send E m).
Proof. unfold Rpcjs.call_send. keeps_go. Qed.

Hint Resolve call_send_keeps : frame.

Lemma write_keeps m : keeps I (Rpcjs.write E m).
Proof. unfold Rpcjs.write. keeps_go. Qed.

Hint Resolve write_keeps : frame.

Lemma sendResult_keeps id r : keeps I (Rpcjs.sendResult E id r).
Proof. unfold Rpcjs.sendResult. keeps_go. Qed.

Lemma sendError_keeps id e : keeps I (Rpcjs.sendError E id e).
Proof. unfold Rpcjs.sendError. keeps_go. Qed.

Lemma acknowledgedWrite_keeps m t : keeps I (Rpcjs.acknowledgedWrite E m t).
Proof. unfold Rpcjs.acknowledgedWrite. keeps_go. Qed.

Hint Resolve sendResult_keeps sendError_keeps acknowledgedWrite_keeps : frame.

Lemma handleResult_keeps r : keeps I (Rpcjs.handleResult E r).
Proof. unfold Rpcjs.handleResult. keeps_go. Qed.

Lemma rpc_call_keeps o m ps : keeps I (Rpcjs.call E o m ps).
Proof. unfold Rpcjs.call. keeps_go. Qed.

Lemma rpc_emit_keeps o ev d : keeps I (Rpcjs.emit E o ev d).
Proof. unfold Rpcjs.emit. keeps_go. Qed.

Hint Resolve handleResult_keeps rpc_call_keeps rpc_emit_keeps : frame.

Lemma apply_handler_keeps h ps : keeps I (Rpcjs.apply_handler E h ps).
Proof. unfold Rpcjs.apply_handler. keeps_go. Qed.

Hint Resolve apply_handler_keeps : frame.

Lemma callIncoming_keeps m : keeps I (Rpcjs.callIncoming E m).
Proof. unfold Rpcjs.callIncoming. keeps_go. Qed.

Lemma deliver_keeps m : keeps I (Rpcjs.deliver E m).
Proof. unfold Rpcjs.deliver. keeps_go. Qed.

Hint Resolve callIncoming_keeps deliver_keeps : frame.

Lemma notifyIncoming_keeps m : keeps I (Rpcjs.notifyIncoming E m).
Proof. unfold Rpcjs.notifyIncoming. keeps_go. Qed.

Hint Resolve notifyIncoming_keeps : frame.

Lemma incoming_keeps m : keeps I (Rpcjs.incoming E m).
Proof. unfold Rpcjs.incoming. keeps_go. Qed.

Section NodeEmit.
Variable node_emit : string -> list val -> M pid.
Hypothesis node_emit_keeps : forall ev data, keeps I (node_emit ev data).

Lemma fireEvents_keeps id ps : keeps I (Actors.fireEvents node_emit id ps).
Proof. unfold Actors.fireEvents. keeps_go. Qed.

Hint Resolve fireEvents_keeps : frame.

Lemma apply_field_keeps fn args : keeps I (Actors.apply_field node_emit fn args).
Proof. induction fn; simpl; keeps_go. Qed.

Hint Resolve apply_field_keeps : frame.

Lemma runCall_keeps method params x : keeps I (Actors.runCall E node_emit method params x).
Proof. unfold Actors.runCall. keeps_go. Qed.
End NodeEmit.

Hint Resolve runCall_keeps incoming_keeps : frame.

Lemma run_cont_keeps k s : keeps I (Loop.run_cont E k s).
Proof. unfold Loop.run_cont. keeps_go. Qed.

Hint Resolve run_cont_keeps : frame.

Lemma run_job_keeps j : keeps I (Loop.run_job E j).
Proof. unfold Loop.run_job. keeps_go. Qed.

Lemma drain_keeps fuel : wkeeps I (Loop.drain E fuel).
Proof.
  induction fuel as [|n IH]; intros w H; simpl; [exact H|].
  destruct (jobs w) as [|j js]; [exact H|].
  apply IH, run_job_keeps. stable.
Qed.

Lemma fire_timer_keeps a : wkeeps I (Loop.fire a).
Proof. intros w H. destruct a as [p msg|p [v|e]]; apply settle_keeps, H. Qed.

Lemma run_until_keeps fuel limit : wkeeps I (Loop.run_until E fuel limit).
Proof.
  induction fuel as [|n IH]; intros w H; cbn [Loop.run_until]; [exact H|].
  destruct (Loop.next_due limit (timers w)) as [[t rest]|].
  - apply IH, drain_keeps, fire_timer_keeps. stable.
  - stable.
Qed.

Lemma advance_keeps fuel ms : wkeeps I (Loop.advance E fuel ms).
Proof. intros w H. apply run_until_keeps, H. Qed.
End Frame.

(** * Reading and writing the promise store *)

Lemma store_lookup_0 {A} (ps l : list A) : (ps ++ l) !! length ps = l !! 0%nat.
Proof. rewrite lookup_app_r by lia. by rewrite Nat.sub_diag. Qed.

Lemma store_lookup_k {A} (ps l : list A) k : (ps ++ l) !! (length ps + k)%nat = l !! k.
Proof. rewrite lookup_app_r by lia. f_equal. lia. Qed.

Lemma store_insert_0 {A} (ps l : list A) x : <[length ps := x]> (ps ++ l) = ps ++ <[0%nat := x]> l.
Proof. rewrite insert_app_r_alt by lia. by rewrite Nat.sub_diag. Qed.

Lemma store_insert_k {A} (ps l : list A) k x :
  <[(length ps + k)%nat := x]> (ps ++ l) = ps ++ <[k := x]> l.
Proof. rewrite insert_app_r_alt by lia. do 2 f_equal. lia. Qed.

Lemma store_lookup_nil {A} (ps : list A) : ps !! length ps = None.
Proof. apply lookup_ge_None_2. lia. Qed.

Ltac store :=
  repeat first
    [ rewrite <- app_assoc
    | rewrite length_app
    | rewrite store_lookup_0
    | rewrite store_lookup_k
    | rewrite store_insert_0
    | rewrite store_insert_k ].

Ltac exec := repeat (progress (cbn -[String.append pretty]; store)).

(** * The engine, one operation at a time *)

Lemma settle_pending p s w c rs :
  promises w !! p = Some (Promise c Pending rs) ->
  Engine.settle p s w
  = Engine.enqueue (map (fun kd => Job kd.1 kd.2 s) rs)
      (set_promises (fun ps => <[p := Promise c s []]> ps) w).
Proof. intros H. unfold Engine.settle. by rewrite H. Qed.

Lemma subscribe_pending p k d w c rs :
  promises w !! p = Some (Promise c Pending rs) ->
  Engine.subscribe p k d w
  = set_promises (fun ps => <[p := Promise c Pending (rs ++ [(k, d)])]> ps) w.
Proof. intros H. unfold Engine.subscribe. by rewrite H. Qed.

Lemma subscribe_fulfilled p k d w c x rs :
  promises w !! p = Some (Promise c (Fulfilled x) rs) ->
  Engine.subscribe p k d w = Engine.enqueue [Job k d (Fulfilled x)] w.
Proof. intros H. unfold Engine.subscribe. by rewrite H. Qed.

Lemma subscribe_rejected p k d w c e rs :
  promises w !! p = Some (Promise c (Rejected e) rs) ->
  Engine.subscribe p k d w = Engine.enqueue [Job k d (Rejected e)] w.
Proof. intros H. unfold Engine.subscribe. by rewrite H. Qed.

Lemma ctor_of_known p w pr :
  promises w !! p = Some pr -> Engine.ctor_of p w = p_ctor pr.
Proof. intros H. unfold Engine.ctor_of. by rewrite H. Qed.

Lemma then_unfold p k w :
  Engine.then_ p k w
  = (Engine.subscribe p k (length (promises w))
       (set_promises (fun ps => ps ++ [Promise (Engine.ctor_of p w) Pending []]) w),
     Ok (length (promises w))).
Proof. reflexivity. Qed.

Lemma timeoutPromise_unfold c n p msg w :
  Engine.timeoutPromise c n p msg w
  = (Engine.subscribe p KForward (length (promises w))
       (set_timers (fun ts => ts ++ [Timer (now w + n) (TReject (length (promises w)) msg)])
          (set_promises (fun ps => ps ++ [Promise c Pending []]) w)),
     Ok (length (promises w))).
Proof. reflexivity. Qed.

Lemma drain_idle E fuel w : jobs w = [] -> Loop.drain E fuel w = w.
Proof. intros H. destruct fuel; cbn [Loop.drain]; [reflexivity|]. by rewrite H. Qed.

Lemma drain_step E fuel w j js :
  jobs w = j :: js ->
  Loop.drain E (S fuel) w = Loop.drain E fuel (Loop.run_job E j (set_jobs (fun _ => js) w)).1.
Proof. intros H. cbn [Loop.drain]. by rewrite H. Qed.

Lemma run_until_step E fuel limit w :
  Loop.run_until E (S fuel) limit w
  = match Loop.next_due limit (timers w) with
    | None => set_now (fun t => Z.max t limit) w
    | Some (t, rest) =>
        let w1 := set_now (fun c => Z.max c (t_due t)) (set_timers (fun _ => rest) w) in
        Loop.run_until E fuel limit (Loop.drain E (S fuel) (Loop.fire (t_act t) w1))
    end.
Proof. reflexivity. Qed.

Lemma next_due_single limit t :
  Loop.next_due limit [t] = if bool_decide (t_due t <= limit) then Some (t, []) else None.
Proof. reflexivity. Qed.

Ltac step := cbn -[String.append pretty Z.add Z.max to_string Loop.drain Loop.run_until
                   Engine.subscribe Engine.settle Engine.then_ Engine.timeoutPromise].

(** Solve [promises w !! p = Some _] on a store written [ps ++ l]. *)
Ltac lk := cbn -[String.append pretty Z.add Z.max to_string]; store; reflexivity.

(** Settle, attach, derive: each once the promise it reads is known.
    The operation applied to a world written out is the next to run. *)
Ltac settle1 :=
  match goal with
  | |- context [Engine.settle ?p ?s (World ?a ?b ?c ?d ?e ?f ?g ?h ?i ?j ?k ?l ?m)] =>
      erewrite (settle_pending p s (World a b c d e f g h i j k l m)) by lk
  end; step; store; step.
Ltac subscribe1 :=
  match goal with
  | |- context [Engine.subscribe ?p ?k0 ?d0 (World ?a ?b ?c ?d ?e ?f ?g ?h ?i ?j ?k ?l ?m)] =>
      first [ erewrite (subscribe_pending p k0 d0 (World a b c d e f g h i j k l m)) by lk
            | erewrite (subscribe_fulfilled p k0 d0 (World a b c d e f g h i j k l m)) by lk
            | erewrite (subscribe_rejected p k0 d0 (World a b c d e f g h i j k l m)) by lk ]
  end; step; store; step.
Ltac then1 := rewrite then_unfold; erewrite ctor_of_known by lk; step; subscribe1.
Ltac timeout1 := rewrite timeoutPromise_unfold; step; subscribe1.
Ltac job1 := erewrite drain_step by reflexivity; unfold Loop.run_job; step.

(** * The registry: expiry is permanent *)

Lemma expired_actors id w w' : actors w' = actors w -> expired id w -> expired id w'.
Proof. unfold expired, Actors.slot. by intros ->. Qed.

Lemma expired_stable id w w' :
  actors w' = actors w -> trace w `prefix_of` trace w' -> expired id w -> expired id w'.
Proof. intros Ha _. by apply expired_actors. Qed.

Lemma slot_insert_eq id x f w :
  actors (f w) = <[id := x]> (actors w) -> Actors.slot id (f w) = x.
Proof. unfold Actors.slot. intros ->. by rewrite lookup_insert_eq. Qed.

Lemma slot_set_eq id x w : Actors.slot id (set_actors (fun m => <[id := x]> m) w) = x.
Proof. unfold Actors.slot. cbn. by rewrite lookup_insert_eq. Qed.

Lemma slot_set_ne id id' x w :
  id <> id' -> Actors.slot id' (set_actors (fun m => <[id := x]> m) w) = Actors.slot id' w.
Proof. intros Hne. unfold Actors.slot. cbn. by rewrite lookup_insert_ne. Qed.

Section Expiry.
Variable E : env.
Variable id0 : string.

Local Abbreviation keeps0 := (keeps (expired id0)).


Lemma registry_emit_keeps ev args :
  keeps0 (Engine.emit E Engine.ActorRegistrations ev args).
Proof. apply (emit_keeps (expired id0)). apply expired_stable. Qed.

Lemma exposeActorEvents_keeps id a :
  id <> id0 -> keeps0 (Actors.exposeActorEvents id a).
Proof.
  intros Hne w H. unfold Actors.exposeActorEvents.
  destruct (jget a "on") as [f|]; [|exact H].
  destruct (is_function f); [|exact H].
  unfold expired in *. cbn. unfold Actors.slot in *. cbn.
  by rewrite lookup_insert_ne.
Qed.

Lemma exposeActor_keeps id a : keeps0 (Actors.exposeActor E id a).
Proof.
  intros w H. unfold Actors.exposeActor.
  destruct (negb _); [exact H|].
  unfold bind at 1, gets at 1.
  destruct (truthy_js (Actors.slot id w)) eqn:Hfound; [exact H|].
  assert (id <> id0) as Hne.
  { intros ->. unfold expired in H. rewrite H in Hfound. discriminate. }
  apply keeps_bind; [| intros []; apply keeps_bind; [| intros []; apply keeps_bind; [| intros ?; apply keeps_ret ] ] | exact H].
  - intros w' H'. unfold expired, Actors.slot in *. cbn. by rewrite lookup_insert_ne.
  - by apply exposeActorEvents_keeps.
  - apply registry_emit_keeps.
Qed.

Lemma expireActor_keeps id : keeps0 (Actors.expireActor E id).
Proof.
  unfold Actors.expireActor.
  apply keeps_bind; [| intros []; apply keeps_bind; [| intros ?; apply keeps_ret ] ].
  - intros w H. unfold expired, Actors.slot in *. cbn.
    destruct (decide (id = id0)) as [->|Hne];
      [by rewrite lookup_insert_eq | by rewrite lookup_insert_ne].
  - apply registry_emit_keeps.
Qed.

Lemma exposeActorApiOnNode_keeps : keeps0 Actors.exposeActorApiOnNode.
Proof.
  intros w H. unfold Actors.exposeActorApiOnNode, bind at 1, gets at 1.
  destruct (exposed w); [exact H|]. exact H.
Qed.

Hypothesis send_keeps : forall m, keeps0 (send E m).
Hypothesis wrap_keeps : forall fn, keeps0 fn -> keeps0 (wrapEffects E fn).

Lemma perform_keeps_expired a w : expired id0 w -> expired id0 (perform E a w).
Proof.
  intros H. destruct a; cbn [perform].
  - apply (incoming_keeps (expired id0)); first [apply expired_stable | assumption].
  - apply (rpc_call_keeps (expired id0)); first [apply expired_stable | assumption].
  - apply (rpc_emit_keeps (expired id0)); first [apply expired_stable | assumption].
  - exact H.
  - exact H.
  - exact H.
  - by apply exposeActorApiOnNode_keeps.
  - by apply exposeActor_keeps.
  - by apply expireActor_keeps.
  - apply (drain_keeps (expired id0)); first [apply expired_stable | assumption].
  - apply (advance_keeps (expired id0)); first [apply expired_stable | assumption].
Qed.

Lemma run_keeps_expired acts w : expired id0 w -> expired id0 (run E acts w).
Proof.
  revert w. induction acts as [|a acts IH]; intros w H; [exact H|].
  apply IH, perform_keeps_expired, H.
Qed.
End Expiry.


Lemma expireActor_expires E id w : expired id (Actors.expireActor E id w).1.
Proof.
  unfold Actors.expireActor, bind at 1, modify at 1.
  apply (keeps_bind (expired id)); [apply registry_emit_keeps | intros ?; apply keeps_ret |].
  apply slot_set_eq.
Qed.

(** * Expired ids *)

(** A request for an expired id: the promise that follows
    [waitForActor] rejects within two jobs. *)
Lemma expired_then E id n k w :
  expired id w -> jobs w = [] ->
  (forall i, k <> KReply i) ->
  exists r w1,
    bind (Actors.waitForActor E id n) (fun a => Engine.then_ a k) w = (w1, Ok r) /\
    Engine.state_of r (Loop.drain E 2 w1) = Some (Rejected (new_error "ActorExpired")).
Proof.
  intros Hs Hj Hk. destruct w as [ps js ts nw oid ms ll acts regs prx ex ob tr].
  unfold expired in Hs. cbn in Hj. subst js.
  unfold Actors.waitForActor, bind at 1 2, gets at 1. rewrite Hs.
  exec.
  unfold Engine.resolve_promise, Engine.ctor_of. exec.
  destruct (decide (P E = Global)) as [HP|HP].
  - exec. unfold Engine.then_, Engine.ctor_of, Engine.subscribe. exec.
    eexists _, _. split; [reflexivity|].
    exec. unfold Loop.run_job, Loop.run_cont, attempt. exec.
    destruct k; try (exfalso; eapply Hk; reflexivity); exec; unfold Engine.settle; exec; unfold Engine.state_of; exec; reflexivity.
  - exec. unfold Engine.subscribe. exec.
    unfold Engine.then_, Engine.ctor_of, Engine.subscribe. exec.
    eexists _, _. split; [reflexivity|].
    exec. unfold Loop.run_job, Loop.run_cont, attempt. exec.
    unfold Engine.settle; exec.
    destruct k; try (exfalso; eapply Hk; reflexivity); exec; unfold Engine.settle; exec; unfold Engine.state_of; exec; reflexivity.
Qed.

Lemma exposeActor_duplicate E id a w :
  typeof_js a = "object" -> bound id w = true ->
  Actors.exposeActor E id a w = (w, Throw (new_error ("duplicate actor id: " +:+ id))).
Proof.
  intros Ht Hb. unfold Actors.exposeActor. rewrite Ht.
  change (negb (String.eqb "object" "object")) with false. cbv beta iota.
  unfold bind at 1, gets at 1. cbv beta iota. unfold bound in Hb. rewrite Hb. reflexivity.
Qed.

Lemma fire_internal E em ev ls args w :
  forallb internal ls = true ->
  exists w', Engine.fire E em ev ls args w = (w', Ok tt) /\ actors w' = actors w.
Proof.
  revert w. induction ls as [|l ls IH]; intros w Hall; [by exists w|].
  cbn in Hall. apply andb_prop in Hall as [Hl Hls].
  cbn [Engine.fire]. unfold bind at 1, modify at 1.
  set (w1 := (if Engine.is_once l then Engine.drop_listener em ev l else id) w).
  assert (actors w1 = actors w) as H1.
  { subst w1. destruct (Engine.is_once l); [|reflexivity]. destruct em; reflexivity. }
  unfold bind at 1.
  destruct l as [q|u o|k]; [| discriminate |]; cbn [Engine.invoke modify].
  - destruct (IH (Engine.settle q (Fulfilled (JData (default VUndef (head args)))) w1) Hls)
      as (w' & Hw' & Ha).
    exists w'. split; [exact Hw'|]. rewrite Ha, <- H1.
    unfold Engine.settle. repeat case_match; reflexivity.
  - destruct (IH (set_proxies (fun ps => <[k := false]> ps) w1) Hls) as (w' & Hw' & Ha).
    exists w'. split; [exact Hw'|]. by rewrite Ha.
Qed.

Lemma registry_emit_ok E ev args w :
  registrations_internal w -> String.eqb ev "error" = false ->
  exists b w', Engine.emit E Engine.ActorRegistrations ev args w = (w', Ok b)
               /\ actors w' = actors w.
Proof.
  intros Hint Hev. unfold Engine.emit, bind at 1, gets at 1. cbv beta iota.
  specialize (Hint ev).
  destruct (Engine.listeners Engine.ActorRegistrations ev w) as [|l ls] eqn:Hls.
  - rewrite Hev. by exists false, w.
  - destruct (fire_internal E Engine.ActorRegistrations ev (l :: ls) args w Hint)
      as (w' & Hw' & Ha).
    unfold bind. rewrite Hw'. by exists true, w'.
Qed.

Lemma expireActor_ok E id w :
  registrations_internal w ->
  exists w1, Actors.expireActor E id w = (w1, Ok tt) /\ expired id w1.
Proof.
  intros Hint. unfold Actors.expireActor, bind at 1, modify at 1. cbv beta iota.
  set (w0 := set_actors _ w).
  destruct (registry_emit_ok E ("deregister:" +:+ id) [] w0) as (b & w' & Hw' & Ha);
    [exact Hint | reflexivity |].
  unfold bind. rewrite Hw'. exists w'. split; [reflexivity|].
  eapply expired_actors; [exact Ha|]. apply slot_set_eq.
Qed.

(** C10: [expireActor(id)] returns for every id, bound or not, as
    long as the private emitter of the registry holds only the
    listeners of the registry itself; it leaves the sentinel in the
    slot of [id], and after any further history of the pair and the
    registry, [exposeActor(id, a)] throws [duplicate actor id: <id>]
    for every object [a] and changes nothing. *)
Theorem expire_blocks_exposure E id w acts :
  registrations_internal w ->
  (forall m, keeps (expired id) (send E m)) ->
  (forall fn, keeps (expired id) fn -> keeps (expired id) (wrapEffects E fn)) ->
  exists w1,
    Actors.expireActor E id w = (w1, Ok tt) /\
    Actors.slot id w1 = JExpired /\
    forall a, typeof_js a = "object" ->
      Actors.exposeActor E id a (run E acts w1)
      = (run E acts w1, Throw (new_error ("duplicate actor id: " +:+ id))).
Proof.
  intros Hint Hsend Hwrap.
  destruct (expireActor_ok E id w Hint) as (w1 & Hw1 & Hexp).
  exists w1. split; [exact Hw1|]. split; [exact Hexp|].
  intros a Ha. apply exposeActor_duplicate; [exact Ha|].
  unfold bound.
  assert (expired id (run E acts w1)) as Hrun by (apply run_keeps_expired; assumption).
  unfold expired in Hrun. by rewrite Hrun.
Qed.

(** At the registry of the tests: [a] is expired before it was ever
    exposed, an exposure is attempted, and every later one is refused. *)
Lemma expire_blocks_exposure_witness :
  exists w1,
    Actors.expireActor (test_env "server") "a" empty_world = (w1, Ok tt) /\
    Actors.slot "a" w1 = JExpired /\
    forall a, typeof_js a = "object" ->
      Actors.exposeActor (test_env "server") "a" a (run (test_env "server") [DoExposeActor "a" (JObject [])] w1)
      = (run (test_env "server") [DoExposeActor "a" (JObject [])] w1,
         Throw (new_error ("duplicate actor id: " +:+ "a"))).
Proof.
  apply (expire_blocks_exposure (test_env "server") "a" empty_world [DoExposeActor "a" (JObject [])]).
  - intros ev. reflexivity.
  - intros m w H. exact H.
  - intros fn H. exact H.
Defined.

(** C6: after [expireActor(id)] and any further history, a call of a
    method of [id] and a read of a property of [id] both return a
    promise that rejects with an error whose message matches
    [/Expired/], and [exposeActor(id, a)] throws
    [duplicate actor id: <id>] for every object [a]. *)
Theorem expired_actor_rejects E id w acts :
  (forall m, keeps (expired id) (send E m)) ->
  (forall fn, keeps (expired id) fn -> keeps (expired id) (wrapEffects E fn)) ->
  let w2 := run E acts (Actors.expireActor E id w).1 in
  jobs w2 = [] ->
  (forall method params, exists r w3 e,
      Actors.call E id method params w2 = (w3, Ok r) /\
      Engine.state_of r (Loop.drain E 2 w3) = Some (Rejected e) /\
      matches "Expired" (message_of e) = true) /\
  (forall property, exists r w3 e,
      Actors.getActorProperty E id property w2 = (w3, Ok r) /\
      Engine.state_of r (Loop.drain E 2 w3) = Some (Rejected e) /\
      matches "Expired" (message_of e) = true) /\
  (forall a, typeof_js a = "object" ->
      Actors.exposeActor E id a w2 = (w2, Throw (new_error ("duplicate actor id: " +:+ id)))).
Proof.
  intros Hsend Hwrap w2 Hjobs.
  assert (expired id w2) as Hexp.
  { apply run_keeps_expired; [assumption..|]. apply expireActor_expires. }
  split; [|split].
  - intros method params.
    destruct (expired_then E id Actors.REGISTRATION_TIMEOUT (KRunCall method params) w2 Hexp Hjobs)
      as (r & w3 & Hcall & Hst); [discriminate|].
    exists r, w3, (new_error "ActorExpired"). repeat split; assumption.
  - intros property.
    destruct (expired_then E id Actors.REGISTRATION_TIMEOUT (KGetProp property) w2 Hexp Hjobs)
      as (r & w3 & Hcall & Hst); [discriminate|].
    exists r, w3, (new_error "ActorExpired"). repeat split; assumption.
  - intros a Ha. apply exposeActor_duplicate; [exact Ha|].
    unfold bound. unfold expired in Hexp. by rewrite Hexp.
Qed.

(** At the registry of the tests: [incrementer-1] is exposed, expired,
    and the queue is drained. *)
Lemma expired_actor_rejects_witness :
  let E := test_env "server" in
  let w2 := run E [DoDrain 5] (Actors.expireActor E "incrementer-1"
                                 (run E [DoExposeActor "incrementer-1" (JObject [])] empty_world)).1 in
  (forall method params, exists r w3 e,
      Actors.call E "incrementer-1" method params w2 = (w3, Ok r) /\
      Engine.state_of r (Loop.drain E 2 w3) = Some (Rejected e) /\
      matches "Expired" (message_of e) = true) /\
  (forall property, exists r w3 e,
      Actors.getActorProperty E "incrementer-1" property w2 = (w3, Ok r) /\
      Engine.state_of r (Loop.drain E 2 w3) = Some (Rejected e) /\
      matches "Expired" (message_of e) = true) /\
  (forall a, typeof_js a = "object" ->
      Actors.exposeActor E "incrementer-1" a w2
      = (w2, Throw (new_error ("duplicate actor id: " +:+ "incrementer-1")))).
Proof.
  intros E w2.
  apply (expired_actor_rejects E "incrementer-1"
           (run E [DoExposeActor "incrementer-1" (JObject [])] empty_world) [DoDrain 5]).
  - intros m w H. exact H.
  - intros fn H. exact H.
  - reflexivity.
Defined.

(** The scenario of the tests, over the wire: the server expires
    [incrementer-1], the client calls [increment] and reads [value] on
    it; the frames cross and each side drains its queue. *)
Example expired_actor_over_the_wire :
  let C := test_env "client" in
  let S := test_env "server" in
  let o := [("value", FData (VNum 0)); ("increment", FMethod (fun _ => Returns (VNum 1)))] in
  let ws := run S [DoExposeRegistry; DoExposeActor "incrementer-1" (JObject o);
                   DoExpireActor "incrementer-1"] empty_world in
  let wc := run C [DoCall None (VStr "callActor") [VStr "incrementer-1"; VStr "increment"];
                   DoCall None (VStr Actors.GET_PROPERTY) [VStr "incrementer-1"; VStr "value"]]
                empty_world in
  let ws1 := fold_left (fun w m => Loop.drain S 9 (Rpcjs.incoming S m w).1) (outbox wc) ws in
  let wc1 := fold_left (fun w m => Loop.drain C 9 (Rpcjs.incoming C m w).1) (outbox ws1) wc in
  Engine.state_of 2 wc = Some Pending /\ Engine.state_of 5 wc = Some Pending /\
  (exists e, Engine.state_of 2 wc1 = Some (Rejected e) /\
             matches "Expired" (message_of e) = true) /\
  (exists e, Engine.state_of 5 wc1 = Some (Rejected e) /\
             matches "Expired" (message_of e) = true).
Proof. vm_compute. repeat split; eexists; split; reflexivity. Qed.

(** * Exposure, and the promises of the registry *)

(** C8: [exposeActor(id, a)] throws for every [a] that is not a
    non-null object, [null] included, and binds nothing: the ids that
    are bound afterwards are those that were bound before, with the
    same actors, and no promise, job or registry listener is added. *)
Theorem exposeActor_requires_object E id a w :
  non_null_object a = false ->
  exists e w',
    Actors.exposeActor E id a w = (w', Throw e) /\
    (forall id', bound id' w' = bound id' w) /\
    (forall id', bound id' w' = true -> Actors.slot id' w' = Actors.slot id' w) /\
    promises w' = promises w /\ jobs w' = jobs w /\
    actorRegistrations w' = actorRegistrations w.
Proof.
  intros Ha. unfold Actors.exposeActor.
  destruct a as [v| | | |o]; try discriminate;
    [destruct v; try discriminate|..];
    try (eexists _, w; split; [reflexivity|]; repeat split; reflexivity).
  (* null passes the typeof test *)
  change (negb (String.eqb (typeof_js (JData VNull)) "object")) with false. cbv beta iota.
  unfold bind at 1, gets at 1. cbv beta iota.
  destruct (truthy_js (Actors.slot id w)) eqn:Hfound.
  - eexists _, w. split; [reflexivity|]. repeat split; reflexivity.
  - eexists _, _. split; [reflexivity|]. cbn [fst snd].
    split; [|split; [|repeat split]].
    + intros id'. unfold bound. destruct (decide (id = id')) as [<-|Hne].
      * rewrite slot_set_eq. by rewrite Hfound.
      * by rewrite slot_set_ne.
    + intros id'. unfold bound. destruct (decide (id = id')) as [<-|Hne].
      * rewrite slot_set_eq. discriminate.
      * by rewrite slot_set_ne.
Qed.

(** At [null], on a registry that holds nothing. *)
Lemma exposeActor_requires_object_witness :
  exists e w',
    Actors.exposeActor (test_env "server") "a" (JData VNull) empty_world = (w', Throw e) /\
    (forall id', bound id' w' = bound id' empty_world) /\
    (forall id', bound id' w' = true -> Actors.slot id' w' = Actors.slot id' empty_world) /\
    promises w' = promises empty_world /\ jobs w' = jobs empty_world /\
    actorRegistrations w' = actorRegistrations empty_world.
Proof.
  apply (exposeActor_requires_object (test_env "server") "a" (JData VNull) empty_world).
  reflexivity.
Defined.

Lemma subscribe_ctor x p k d w :
  Engine.ctor_of x (Engine.subscribe p k d w) = Engine.ctor_of x w.
Proof.
  unfold Engine.subscribe, Engine.ctor_of.
  destruct (promises w !! p) as [[c [|y|e] rs]|] eqn:Hp; try reflexivity.
  cbn. destruct (decide (p = x)) as [->|Hne].
  - rewrite list_lookup_insert_eq by (by eapply lookup_lt_Some). by rewrite Hp.
  - by rewrite list_lookup_insert_ne.
Qed.

Lemma then_ctor p k w :
  exists d w1, Engine.then_ p k w = (w1, Ok d) /\ Engine.ctor_of d w1 = Engine.ctor_of p w.
Proof.
  eexists _, _. split; [reflexivity|]. cbn [fst snd].
  rewrite subscribe_ctor. unfold Engine.ctor_of at 1. cbn.
  by rewrite list_lookup_middle.
Qed.

Lemma waitForActor_found E id n w :
  bound id w = true ->
  exists a w1, Actors.waitForActor E id n w = (w1, Ok a) /\ Engine.ctor_of a w1 = Global.
Proof.
  intros Hb. unfold bound in Hb.
  unfold Actors.waitForActor, bind at 1, gets at 1. cbv beta iota. rewrite Hb.
  assert (forall x, exists a w1, Engine.resolved Global x w = (w1, Ok a)
                                 /\ Engine.ctor_of a w1 = Global) as Hres.
  { intros x. eexists _, _. split; [reflexivity|]. unfold Engine.ctor_of. cbn.
    by rewrite list_lookup_middle. }
  destruct (Actors.slot id w) as [v| | | |o]; try apply Hres.
  (* the sentinel: Promise.resolve of a promise of P *)
  cbn [Actors.notExpired]. unfold bind, mapM, Engine.rejected, Engine.alloc. cbv beta iota.
  unfold Engine.resolve_promise, bind, gets. cbv beta iota.
  set (w0 := set_promises _ w).
  destruct (decide (Engine.ctor_of (length (promises w)) w0 = Global)) as [HP|HP].
  - eexists _, _. split; [reflexivity|]. exact HP.
  - eexists _, _. split; [reflexivity|]. cbn [fst snd modify].
    rewrite subscribe_ctor. unfold Engine.ctor_of. cbn. by rewrite list_lookup_middle.
Qed.

(** C7: when [id] is already bound, the promise [waitForActor]
    returns is built by the ambient [Promise], whatever constructor
    the pair was given, and so are the promises of [call] and of
    [getActorProperty] chained on it. *)
Theorem waitForActor_found_uses_ambient_promise E id method params property w :
  bound id w = true ->
  (exists a w1, Actors.waitForActor E id Actors.REGISTRATION_TIMEOUT w = (w1, Ok a) /\
                Engine.ctor_of a w1 = Global) /\
  (exists r w1, Actors.call E id method params w = (w1, Ok r) /\
                Engine.ctor_of r w1 = Global) /\
  (exists r w1, Actors.getActorProperty E id property w = (w1, Ok r) /\
                Engine.ctor_of r w1 = Global).
Proof.
  intros Hb.
  destruct (waitForActor_found E id Actors.REGISTRATION_TIMEOUT w Hb) as (a & w1 & Hw & Hc).
  split; [by exists a, w1|]. split.
  - unfold Actors.call, bind. rewrite Hw.
    destruct (then_ctor a (KRunCall method params) w1) as (d & w2 & Hd & Hcd).
    exists d, w2. split; [exact Hd|]. by rewrite Hcd.
  - unfold Actors.getActorProperty, bind. rewrite Hw.
    destruct (then_ctor a (KGetProp property) w1) as (d & w2 & Hd & Hcd).
    exists d, w2. split; [exact Hd|]. by rewrite Hcd.
Qed.

(** At the pair of the tests, whose constructor is bluebird and not
    the ambient [Promise]. *)
Lemma waitForActor_found_uses_ambient_promise_witness :
  let E := test_env "server" in
  let w := run E [DoExposeActor "incrementer-1" (JObject [("value", FData (VNum 0))])] empty_world in
  P E <> Global /\
  (exists a w1, Actors.waitForActor E "incrementer-1" Actors.REGISTRATION_TIMEOUT w = (w1, Ok a) /\
                Engine.ctor_of a w1 = Global) /\
  (exists r w1, Actors.call E "incrementer-1" (VStr "increment") [] w = (w1, Ok r) /\
                Engine.ctor_of r w1 = Global) /\
  (exists r w1, Actors.getActorProperty E "incrementer-1" (VStr "value") w = (w1, Ok r) /\
                Engine.ctor_of r w1 = Global).
Proof.
  intros E w. split; [discriminate|].
  apply (waitForActor_found_uses_ambient_promise E "incrementer-1" (VStr "increment") []
           (VStr "value") w).
  reflexivity.
Defined.

(** * Notifications: the acknowledgement goes first *)

Lemma prefix_stable (tr : list event) w w' :
  actors w' = actors w -> trace w `prefix_of` trace w' ->
  tr `prefix_of` trace w -> tr `prefix_of` trace w'.
Proof. intros _ H1 H2. by etrans. Qed.

Lemma only_adds_keeps {A} (m : M A) :
  only_adds m <-> forall tr, keeps (fun w => tr `prefix_of` trace w) m.
Proof.
  split.
  - intros Hm tr w H. etrans; [exact H | apply Hm].
  - intros Hk w. by apply (Hk (trace w)).
Qed.

Lemma deliver_only_adds E message : only_adds (Rpcjs.deliver E message).
Proof.
  apply only_adds_keeps. intros tr.
  apply (deliver_keeps (fun w => tr `prefix_of` trace w)). apply prefix_stable.
Qed.

Lemma write_only_adds E m :
  (forall m, only_adds (send E m)) ->
  forall w, exists r1, trace (Rpcjs.write E m w).1 = trace w ++ EvSend m :: r1.
Proof.
  intros Hsend w. unfold Rpcjs.write, attempt, Rpcjs.call_send, bind, modify.
  set (w0 := set_trace _ w).
  destruct (Hsend m w0) as [r Hr].
  destruct (send E m w0) as [w1 [[]|e]]; simpl in *.
  - exists r. rewrite Hr. by rewrite <- app_assoc.
  - exists (r ++ [EvError e]). rewrite Hr. by rewrite <- !app_assoc.
Qed.

Lemma write_never_throws E m w : exists w1, Rpcjs.write E m w = (w1, Ok tt).
Proof.
  unfold Rpcjs.write, attempt.
  destruct (Rpcjs.call_send E m w) as [w1 [[]|e]]; eexists; reflexivity.
Qed.

Lemma notifyIncoming_unfold E message id w :
  vget message "id" = Some id ->
  Rpcjs.notifyIncoming E message w
  = bind (Rpcjs.write E (ack id)) (fun _ => wrapEffects E (Rpcjs.deliver E message)) w.
Proof. intros Hid. unfold Rpcjs.notifyIncoming, Rpcjs.read. rewrite Hid. reflexivity. Qed.

(** The acknowledgement stays ahead of whatever follows, for every
    send function and every wrapper that only add to the trace. *)
Lemma notify_ack_stays_ahead E message id w :
  vget message "id" = Some id ->
  (forall m, only_adds (send E m)) ->
  (forall fn, only_adds fn -> only_adds (wrapEffects E fn)) ->
  exists w1 sent rest,
    trace w1 = trace w ++ EvSend (ack id) :: sent /\
    Rpcjs.notifyIncoming E message w = wrapEffects E (Rpcjs.deliver E message) w1 /\
    trace (Rpcjs.notifyIncoming E message w).1 = trace w ++ EvSend (ack id) :: sent ++ rest.
Proof.
  intros Hid Hsend Hwrap.
  rewrite (notifyIncoming_unfold E message id w Hid).
  destruct (write_never_throws E (ack id) w) as [w1 Hw1].
  destruct (write_only_adds E (ack id) Hsend w) as [sent Hsent].
  rewrite Hw1 in Hsent. cbn [fst] in Hsent.
  unfold bind. rewrite Hw1.
  destruct (Hwrap _ (deliver_only_adds E message) w1) as [rest Hrest].
  exists w1, sent, rest. split; [exact Hsent|]. split; [reflexivity|].
  rewrite Hrest, Hsent. by rewrite <- app_assoc.
Qed.





Example notify_trace :
  let E := Env "server" (Library 0) 500 500 (fun fn => fn) send_queue
               (fun u _ => if Nat.eqb u 1 then Some (VStr "listener failed") else None) in
  let message := notify_frame (VStr "client:7") (VStr "hi") [VNum 1] in
  let w := run E [DoOn "hi" 0%nat; DoOn "hi" 1%nat; DoOn "hi" 2%nat] empty_world in
  let r := Rpcjs.incoming E message w in
  trace r.1 = [EvSend (ack (VStr "client:7")); EvListener 0 [VNum 1]; EvListener 1 [VNum 1]]
  /\ r.2 = Throw (VStr "listener failed")
  /\ outbox r.1 = [ack (VStr "client:7")].
Proof. vm_compute. repeat split. Qed.

(** * The pair: a result meets its waiter *)



Lemma incoming_result E f id w :
  result_frame id f ->
  Rpcjs.incoming E f w
  = mapM VBool (Engine.emit E Engine.LocalListeners ("result:" +:+ to_string id) [f]) w.
Proof.
  intros [Hty Hid]. unfold Rpcjs.incoming, Rpcjs.resultEvent, Rpcjs.read.
  rewrite Hty, Hid. reflexivity.
Qed.

Lemma result_not_error s : String.eqb ("result:" +:+ s) "error" = false.
Proof. reflexivity. Qed.

(** A result for which nobody waits is dropped: nothing changes. *)
Lemma result_dropped E f id w :
  result_frame id f ->
  Engine.listeners Engine.LocalListeners ("result:" +:+ to_string id) w = [] ->
  Rpcjs.incoming E f w = (w, Ok (VBool false)).
Proof.
  intros Hf Hls. rewrite (incoming_result E f id w Hf).
  unfold mapM, Engine.emit, bind, gets. rewrite Hls, result_not_error. reflexivity.
Qed.



Lemma forwarded_result_settles E f t r w fuel :
  forwarding f t r w -> (3 <= fuel)%nat ->
  let w3 := Loop.drain E fuel w in
  Engine.state_of r w3 = Some (result_state f) /\
  jobs w3 = [] /\ localListeners w3 = localListeners w /\
  trace w3 = trace w /\ outbox w3 = outbox w /\ actors w3 = actors w.
Proof.
  intros (Hj & [ct Ht] & [cr Hr] & Htr) Hfuel.
  destruct w as [ps js ts nw oid ms ll acts regs prx ex ob tr].
  cbn [promises jobs] in Hj, Ht, Hr. subst js.
  assert (t < length ps)%nat as Lt by (by eapply lookup_lt_Some).
  assert (r < length ps)%nat as Lr by (by eapply lookup_lt_Some).
  set (ps2 := <[t := Promise ct (Fulfilled (JData f)) []]> ps).
  assert (ps2 !! r = Some (Promise cr Pending [])) as Hr2.
  { subst ps2. by rewrite list_lookup_insert_ne. }
  assert (length ps2 = length ps) as Hlen by (subst ps2; by rewrite length_insert).
  destruct fuel as [|[|[|fuel]]]; try lia.
  set (w3 := Loop.drain E (S (S (S fuel))) _).
  (* the timeout promise follows the waiter, then handleResult runs *)
  assert (w3 = Loop.drain E (S fuel)
                 (Loop.run_job E (Job KHandleResult r (Fulfilled (JData f)))
                    (World ps2 [] ts nw oid ms ll acts regs prx ex ob tr)).1) as ->.
  { subst w3. erewrite drain_step by reflexivity.
    unfold Loop.run_job at 1. cbn -[String.append Loop.drain Loop.run_job].
    rewrite (settle_pending t _ _ ct [(KHandleResult, r)]) by exact Ht.
    cbn -[String.append Loop.drain Loop.run_job].
    erewrite drain_step by reflexivity. reflexivity. }
  assert (forall s,
    let w' := Engine.settle r s (World ps2 [] ts nw oid ms ll acts regs prx ex ob tr) in
    Engine.state_of r (Loop.drain E (S fuel) w') = Some s /\
    jobs (Loop.drain E (S fuel) w') = [] /\
    localListeners (Loop.drain E (S fuel) w') = ll /\
    trace (Loop.drain E (S fuel) w') = tr /\ outbox (Loop.drain E (S fuel) w') = ob /\
    actors (Loop.drain E (S fuel) w') = acts) as Hfinal.
  { intros s w'. subst w'.
    rewrite (settle_pending r _ _ cr []) by exact Hr2.
    cbn -[String.append Loop.drain]. rewrite drain_idle by reflexivity.
    unfold Engine.state_of. cbn -[String.append].
    rewrite list_lookup_insert_eq by lia.
    repeat split; reflexivity. }
  assert (forall e,
    let w' := (bind (mapM HPromise (Engine.rejected (P E) e))
                 (fun h => match h with
                           | HValue x => modify (Engine.settle r (Fulfilled x))
                           | HPromise p => modify (Engine.subscribe p KForward r)
                           end)
                 (World ps2 [] ts nw oid ms ll acts regs prx ex ob tr)).1 in
    Engine.state_of r (Loop.drain E (S fuel) w') = Some (Rejected e) /\
    jobs (Loop.drain E (S fuel) w') = [] /\
    localListeners (Loop.drain E (S fuel) w') = ll /\
    trace (Loop.drain E (S fuel) w') = tr /\ outbox (Loop.drain E (S fuel) w') = ob /\
    actors (Loop.drain E (S fuel) w') = acts) as Hrej.
  { intros e w'. subst w'. cbn -[String.append Loop.drain].
    unfold Engine.subscribe. cbn -[String.append Loop.drain].
    rewrite list_lookup_middle by reflexivity. cbn -[String.append Loop.drain].
    erewrite drain_step by reflexivity.
    unfold Loop.run_job. cbn -[String.append Loop.drain].
    rewrite (settle_pending r _ _ cr []) by (cbn; by rewrite lookup_app_l by lia).
    cbn -[String.append Loop.drain]. rewrite drain_idle by reflexivity.
    unfold Engine.state_of. cbn -[String.append].
    rewrite list_lookup_insert_eq by (rewrite length_app; lia).
    repeat split; reflexivity. }
  unfold Loop.run_job. cbn -[String.append Loop.drain Rpcjs.ensureError].
  unfold Rpcjs.handleResult, result_state.
  destruct (has_key "result" f) as [[|]|].
  - apply Hfinal.
  - destruct (has_key "error" f) as [[|]|]; apply Hrej.
  - apply Hfinal.
Qed.

(** The first result frame for a call under way: the waiter is applied
    and leaves the emitter. *)
Lemma first_result_forwards E ev q t r w f id :
  awaiting ev q t r w -> result_frame id f -> ev = "result:" +:+ to_string id ->
  exists w1,
    Rpcjs.incoming E f w = (w1, Ok (VBool true)) /\
    forwarding f t r w1 /\
    Engine.listeners Engine.LocalListeners ev w1 = [] /\
    (forall ev', ev' <> ev ->
       Engine.listeners Engine.LocalListeners ev' w1
       = Engine.listeners Engine.LocalListeners ev' w) /\
    trace w1 = trace w /\ outbox w1 = outbox w /\ actors w1 = actors w.
Proof.
  intros (Hls & [cq Hq] & [ct Ht] & [cr Hr] & Hj & Hqt & Htr & Hqr) Hf ->.
  rewrite (incoming_result E f id w Hf).
  destruct w as [ps js ts nw oid ms ll acts regs prx ex ob tr].
  cbn [promises jobs] in Hq, Ht, Hr, Hj. subst js.
  unfold Engine.listeners in Hls. cbn [Engine.table localListeners] in Hls.
  unfold Engine.emit, Engine.listeners. cbn -[String.append].
  rewrite Hls. cbn -[String.append]. rewrite Hls. cbn -[String.append].
  rewrite decide_True by reflexivity.
  rewrite (settle_pending q _ _ cq [(KForward, t)]) by exact Hq.
  cbn -[String.append].
  eexists. split; [reflexivity|].
  unfold forwarding, Engine.listeners. cbn -[String.append].
  rewrite !list_lookup_insert_ne by done. rewrite lookup_insert_eq.
  repeat split; eauto.
  intros ev' Hne. by rewrite lookup_insert_ne.
Qed.

Lemma first_result_settles E ev q t r w f id :
  awaiting ev q t r w -> result_frame id f -> ev = "result:" +:+ to_string id ->
  exists w1,
    Rpcjs.incoming E f w = (w1, Ok (VBool true)) /\
    forall fuel, (3 <= fuel)%nat ->
      let w3 := Loop.drain E fuel w1 in
      Engine.state_of r w3 = Some (result_state f) /\
      Engine.listeners Engine.LocalListeners ev w3 = [] /\
      jobs w3 = [] /\
      trace w3 = trace w /\ outbox w3 = outbox w /\ actors w3 = actors w.
Proof.
  intros Haw Hf Hev.
  destruct (first_result_forwards E ev q t r w f id Haw Hf Hev)
    as (w1 & Hin & Hfw & Hls & _ & Htr & Hob & Hac).
  exists w1. split; [exact Hin|]. intros fuel Hfuel.
  destruct (forwarded_result_settles E f t r w1 fuel Hfw Hfuel)
    as (Hst & Hj & Hll & Htr' & Hob' & Hac').
  cbv zeta. unfold Engine.listeners in *. cbn [Engine.table] in *.
  rewrite Hll, Htr', Hob', Hac'. repeat split; assumption.
Qed.

Lemma call_awaits E options method params w :
  quiet_send E -> jobs w = [] ->
  Engine.listeners Engine.LocalListeners ("result:" +:+ next_id E w) w = [] ->
  exists q t r w1,
    Rpcjs.call E options method params w = (w1, Ok r) /\
    awaiting ("result:" +:+ next_id E w) q t r w1 /\
    actors w1 = actors w /\ methods w1 = methods w.
Proof.
  intros Hquiet Hj Hfresh. unfold next_id in *.
  destruct w as [ps js ts nw oid ms ll acts regs prx ex ob tr].
  cbn [jobs] in Hj. subst js. cbn [outgoingId] in *.
  unfold Engine.listeners in Hfresh. cbn [Engine.table localListeners] in Hfresh.
  unfold Rpcjs.call, Rpcjs.createNextOutgoingId, Rpcjs.acknowledgedWrite, Rpcjs.resultEvent,
    Rpcjs.read, Engine.eventToPromise, Rpcjs.call_send.
  cbn -[String.append pretty send Engine.timeoutPromise Engine.then_].
  rewrite Hfresh.
  match goal with |- context [send E ?m ?w0] => destruct (Hquiet m w0) as (ob' & tr' & ->) end.
  cbn -[String.append pretty].
  unfold Engine.subscribe, Engine.ctor_of. cbn -[String.append pretty]. store.
  cbn -[String.append pretty].
  unfold Engine.subscribe. cbn -[String.append pretty]. store. cbn -[String.append pretty].
  eexists (length ps), (length ps + 1)%nat, (length ps + 2)%nat, _.
  split; [reflexivity|].
  split; [|split; reflexivity].
  unfold awaiting, Engine.listeners. cbn -[String.append pretty]. store.
  rewrite lookup_insert_eq.
  repeat split; try (eexists; reflexivity); try reflexivity; lia.
Qed.

(** * Calls and their results *)

Lemma send_queue_quiet E : send E = send_queue -> quiet_send E.
Proof.
  intros HE m w. rewrite HE. exists (outbox w ++ [m]), (trace w). reflexivity.
Qed.

(** C1: [call] returns a pending promise [r] whose correlation id is
    the next outgoing id X.  As long as the call is under way, the
    first result frame carrying X settles [r]: fulfilled with the
    frame's [result], or rejected with its [error] made an Error.
    Neither the trace (the error sink and the listeners) nor the
    transport hears of it; and a second result frame carrying X finds
    no listener: [incoming] returns [false] and the world is unchanged. *)
Theorem call_settled_by_first_result E options method params w :
  quiet_send E -> jobs w = [] ->
  Engine.listeners Engine.LocalListeners ("result:" +:+ next_id E w) w = [] ->
  exists q t r w1,
    Rpcjs.call E options method params w = (w1, Ok r) /\
    awaiting ("result:" +:+ next_id E w) q t r w1 /\
    forall w2 f f2 fuel,
      awaiting ("result:" +:+ next_id E w) q t r w2 ->
      result_frame (VStr (next_id E w)) f ->
      result_frame (VStr (next_id E w)) f2 ->
      (3 <= fuel)%nat ->
      exists w3,
        Rpcjs.incoming E f w2 = (w3, Ok (VBool true)) /\
        let w4 := Loop.drain E fuel w3 in
        (forall v, has_key "result" f = Some true -> vget f "result" = Some v ->
                   Engine.state_of r w4 = Some (Fulfilled (JData v))) /\
        (forall e, has_key "result" f = Some false -> has_key "error" f = Some true ->
                   vget f "error" = Some e ->
                   Engine.state_of r w4 = Some (Rejected (Rpcjs.ensureError e))) /\
        trace w4 = trace w2 /\ outbox w4 = outbox w2 /\
        Rpcjs.incoming E f2 w4 = (w4, Ok (VBool false)).
Proof.
  intros Hquiet Hj Hfresh.
  destruct (call_awaits E options method params w Hquiet Hj Hfresh)
    as (q & t & r & w1 & Hcall & Haw & _).
  exists q, t, r, w1. split; [exact Hcall|]. split; [exact Haw|].
  intros w2 f f2 fuel Haw2 Hf Hf2 Hfuel.
  destruct (first_result_settles E _ q t r w2 f (VStr (next_id E w)) Haw2 Hf eq_refl)
    as (w3 & Hin & Hdrain).
  exists w3. split; [exact Hin|].
  destruct (Hdrain fuel Hfuel) as (Hst & Hls & _ & Htr & Hob & _).
  cbv zeta. repeat split.
  - intros v Hk Hv. rewrite Hst. unfold result_state. by rewrite Hk, Hv.
  - intros e Hk Hk' He. rewrite Hst. unfold result_state. by rewrite Hk, Hk', He.
  - exact Htr.
  - exact Hob.
  - by apply (result_dropped E f2 (VStr (next_id E w))).
Qed.

(** At the client of the tests calling [add(10, 5)]. *)
Lemma call_settled_by_first_result_witness :
  let E := test_env "client" in
  exists q t r w1,
    Rpcjs.call E None (VStr "add") [VNum 10; VNum 5] empty_world = (w1, Ok r) /\
    awaiting ("result:" +:+ next_id E empty_world) q t r w1 /\
    forall w2 f f2 fuel,
      awaiting ("result:" +:+ next_id E empty_world) q t r w2 ->
      result_frame (VStr (next_id E empty_world)) f ->
      result_frame (VStr (next_id E empty_world)) f2 ->
      (3 <= fuel)%nat ->
      exists w3,
        Rpcjs.incoming E f w2 = (w3, Ok (VBool true)) /\
        let w4 := Loop.drain E fuel w3 in
        (forall v, has_key "result" f = Some true -> vget f "result" = Some v ->
                   Engine.state_of r w4 = Some (Fulfilled (JData v))) /\
        (forall e, has_key "result" f = Some false -> has_key "error" f = Some true ->
                   vget f "error" = Some e ->
                   Engine.state_of r w4 = Some (Rejected (Rpcjs.ensureError e))) /\
        trace w4 = trace w2 /\ outbox w4 = outbox w2 /\
        Rpcjs.incoming E f2 w4 = (w4, Ok (VBool false)).
Proof.
  intros E.
  apply (call_settled_by_first_result E None (VStr "add") [VNum 10; VNum 5] empty_world).
  - apply send_queue_quiet. reflexivity.
  - reflexivity.
  - reflexivity.
Defined.

(** The scenario of the tests, run: [add(10, 5)] answered with 15, then
    answered again. *)
Example add_answered_twice :
  let E := test_env "client" in
  let answer := VObj [("id", VStr "client:1"); ("type", VStr "result"); ("result", VNum 15)] in
  let again := VObj [("id", VStr "client:1"); ("type", VStr "result"); ("result", VNum 16)] in
  let w1 := (Rpcjs.call E None (VStr "add") [VNum 10; VNum 5] empty_world).1 in
  let w2 := Loop.drain E 5 (Rpcjs.incoming E answer w1).1 in
  Engine.state_of 2 w1 = Some Pending /\
  Engine.state_of 2 w2 = Some (Fulfilled (JData (VNum 15))) /\
  Rpcjs.incoming E again w2 = (w2, Ok (VBool false)).
Proof. vm_compute. repeat split. Qed.

(** C3, corrected: a result frame that carries neither [result] nor
    [error], arriving for a call under way, rejects the promise of
    that call with the error [invalid result], whose [result] field is
    the frame; nothing is added to the trace, so the error sink of the
    pair is not called. *)
Theorem invalid_result_rejects_call E ev q t r w f id fuel :
  awaiting ev q t r w -> result_frame id f -> ev = "result:" +:+ to_string id ->
  has_key "result" f = Some false -> has_key "error" f = Some false ->
  (3 <= fuel)%nat ->
  exists w1,
    Rpcjs.incoming E f w = (w1, Ok (VBool true)) /\
    let w3 := Loop.drain E fuel w1 in
    Engine.state_of r w3
    = Some (Rejected (VErr (VStr "invalid result") (VStr "Error: invalid result")
                           [("result", f)])) /\
    trace w3 = trace w.
Proof.
  intros Haw Hf Hev Hk Hk' Hfuel.
  destruct (first_result_settles E ev q t r w f id Haw Hf Hev) as (w1 & Hin & Hdrain).
  exists w1. split; [exact Hin|].
  destruct (Hdrain fuel Hfuel) as (Hst & _ & _ & Htr & _).
  cbv zeta. split; [|exact Htr].
  rewrite Hst. unfold result_state. by rewrite Hk, Hk'.
Qed.


(** At the client of the tests, whose call [add(10, 5)] is answered
    with [bare_result]. *)
Lemma invalid_result_rejects_call_witness :
  exists w1,
    Rpcjs.incoming (test_env "client") bare_result
      (Rpcjs.call (test_env "client") None (VStr "add") [VNum 10; VNum 5] empty_world).1
    = (w1, Ok (VBool true)) /\
    let w3 := Loop.drain (test_env "client") 3 w1 in
    Engine.state_of 2 w3
    = Some (Rejected (VErr (VStr "invalid result") (VStr "Error: invalid result")
                           [("result", bare_result)])) /\
    trace w3 = trace (Rpcjs.call (test_env "client") None (VStr "add") [VNum 10; VNum 5] empty_world).1.
Proof.
  apply (invalid_result_rejects_call (test_env "client") "result:client:1" 0 1 2 _
           bare_result (VStr "client:1") 3).
  - unfold awaiting. vm_compute. repeat split; try (eexists; reflexivity); discriminate.
  - split; reflexivity.
  - reflexivity.
  - reflexivity.
  - reflexivity.
  - lia.
Defined.

(** C3 as stated fails on this input: the frame [bare_result] answers
    the call [add(10, 5)]; the error sink hears nothing, and the
    promise of the call is rejected. *)
Lemma invalid_result_skips_error_sink :
  (forall e, ~ In (EvError e) (trace after_bare_result)) /\
  Engine.state_of 2 after_bare_result
  = Some (Rejected (VErr (VStr "invalid result") (VStr "Error: invalid result")
                         [("result", bare_result)])).
Proof.
  split; [|vm_compute; reflexivity].
  intros e. vm_compute. intros [H|[]]. discriminate.
Qed.

Example invalid_result_trace :
  trace after_bare_result
  = [EvSend (call_frame (VStr "client:1") (VStr "add") [VNum 10; VNum 5])].
Proof. vm_compute. reflexivity. Qed.

(** * The waiter is in place before the send *)

Lemma acknowledgedWrite_registers_first E message tmo w id :
  vget message "id" = Some id ->
  exists q w0 msg,
    Rpcjs.acknowledgedWrite E message tmo w
    = attempt (send E message)
        (fun _ => Engine.timeoutPromise (P E) tmo q msg)
        (fun e => Engine.rejected (P E) e) w0 /\
    In (LResolve q) (Engine.listeners Engine.LocalListeners ("result:" +:+ to_string id) w0) /\
    Engine.state_of q w0 = Some Pending /\
    trace w0 = trace w ++ [EvSend message].
Proof.
  intros Hid.
  unfold Rpcjs.acknowledgedWrite, Rpcjs.resultEvent, Rpcjs.read. rewrite Hid.
  exists (length (promises w)). eexists. eexists.
  split; [reflexivity|].
  unfold Engine.listeners, Engine.state_of. cbn -[String.append].
  rewrite lookup_insert_eq. cbn -[String.append].
  rewrite list_lookup_middle by reflexivity.
  split; [|split; reflexivity].
  apply in_or_app. right. by left.
Qed.

Lemma answered_call_settles E0 reply options method params w fuel :
  (forall m, result_frame (default VUndef (vget m "id")) (reply m)) ->
  jobs w = [] ->
  Engine.listeners Engine.LocalListeners ("result:" +:+ next_id E0 w) w = [] ->
  (3 <= fuel)%nat ->
  exists r w1,
    Rpcjs.call (answering E0 reply) options method params w = (w1, Ok r) /\
    Engine.state_of r w1 = Some Pending /\
    Engine.state_of r (Loop.drain (answering E0 reply) fuel w1)
    = Some (result_state
              (reply (call_frame (VStr (next_id E0 w)) method params))).
Proof.
  intros Hreply Hj Hfresh Hfuel. unfold call_frame, next_id in *.
  destruct w as [ps js ts nw oid ms ll acts regs prx ex ob tr].
  cbn [jobs] in Hj. subst js. cbn [outgoingId] in *.
  unfold Engine.listeners in Hfresh. cbn [Engine.table localListeners] in Hfresh.
  set (X := name E0 +:+ ":" +:+ pretty (oid + 1)) in *.
  set (m := VObj [("id", VStr X); ("type", VStr "call");
                  ("method", method); ("params", VArr params)]).
  specialize (Hreply m). change (default VUndef (vget m "id")) with (VStr X) in Hreply.
  unfold Rpcjs.call, Rpcjs.createNextOutgoingId, Rpcjs.acknowledgedWrite, Rpcjs.resultEvent,
    Rpcjs.read, Engine.eventToPromise, Rpcjs.call_send.
  cbn -[String.append pretty Rpcjs.incoming Engine.timeoutPromise Engine.then_ Loop.drain].
  fold X. fold m. rewrite Hfresh.
  cbn -[String.append pretty Rpcjs.incoming Engine.timeoutPromise Engine.then_ Loop.drain].
  rewrite (incoming_result E0 (reply m) (VStr X) _ Hreply).
  unfold Engine.emit, Engine.listeners.
  cbn -[String.append pretty Engine.timeoutPromise Engine.then_ Loop.drain].
  rewrite lookup_insert_eq.
  cbn -[String.append pretty Engine.timeoutPromise Engine.then_ Loop.drain].
  rewrite lookup_insert_eq.
  cbn -[String.append pretty Engine.timeoutPromise Engine.then_ Loop.drain].
  rewrite decide_True by reflexivity.
  unfold Engine.settle. cbn -[String.append pretty Engine.timeoutPromise Engine.then_ Loop.drain].
  store. cbn -[String.append pretty Engine.timeoutPromise Engine.then_ Loop.drain].
  unfold Engine.timeoutPromise, Engine.then_, Engine.subscribe, Engine.ctor_of.
  cbn -[String.append pretty Loop.drain]. store. cbn -[String.append pretty Loop.drain].
  store. cbn -[String.append pretty Loop.drain].
  eexists _, _. split; [reflexivity|].
  split.
  { unfold Engine.state_of. cbn. store. reflexivity. }
  match goal with |- Engine.state_of _ (Loop.drain _ _ ?w1) = _ =>
    destruct (forwarded_result_settles (answering E0 reply) (reply m)
                (length ps + 1)%nat (length ps + 2)%nat w1 fuel) as (Hst & _)
  end; [|exact Hfuel|exact Hst].
  unfold forwarding. cbn -[String.append pretty]. store. cbn.
  repeat split; try (eexists; reflexivity). lia.
Qed.

Lemma answered_emit_settles E0 reply options evt data w fuel :
  (forall m, result_frame (default VUndef (vget m "id")) (reply m)) ->
  jobs w = [] ->
  Engine.listeners Engine.LocalListeners ("result:" +:+ next_id E0 w) w = [] ->
  (1 <= fuel)%nat ->
  exists t w1,
    Rpcjs.emit (answering E0 reply) options evt data w = (w1, Ok t) /\
    Engine.state_of t w1 = Some Pending /\
    Engine.state_of t (Loop.drain (answering E0 reply) fuel w1)
    = Some (Fulfilled (JData
              (reply (notify_frame (VStr (next_id E0 w)) evt data)))).
Proof.
  intros Hreply Hj Hfresh Hfuel. unfold notify_frame, next_id in *.
  destruct w as [ps js ts nw oid ms ll acts regs prx ex ob tr].
  cbn [jobs] in Hj. subst js. cbn [outgoingId] in *.
  unfold Engine.listeners in Hfresh. cbn [Engine.table localListeners] in Hfresh.
  set (X := name E0 +:+ ":" +:+ pretty (oid + 1)) in *.
  set (m := VObj [("id", VStr X); ("type", VStr "notify"); ("event", evt); ("data", VArr data)]).
  specialize (Hreply m). change (default VUndef (vget m "id")) with (VStr X) in Hreply.
  unfold Rpcjs.emit, Rpcjs.createNextOutgoingId, Rpcjs.acknowledgedWrite, Rpcjs.resultEvent,
    Rpcjs.read, Engine.eventToPromise, Rpcjs.call_send.
  cbn -[String.append pretty Rpcjs.incoming Engine.timeoutPromise Loop.drain].
  fold X. fold m. rewrite Hfresh.
  cbn -[String.append pretty Rpcjs.incoming Engine.timeoutPromise Loop.drain].
  rewrite (incoming_result E0 (reply m) (VStr X) _ Hreply).
  unfold Engine.emit, Engine.listeners.
  cbn -[String.append pretty Engine.timeoutPromise Loop.drain].
  rewrite lookup_insert_eq.
  cbn -[String.append pretty Engine.timeoutPromise Loop.drain].
  rewrite lookup_insert_eq.
  cbn -[String.append pretty Engine.timeoutPromise Loop.drain].
  rewrite decide_True by reflexivity.
  unfold Engine.settle. cbn -[String.append pretty Engine.timeoutPromise Loop.drain].
  store. cbn -[String.append pretty Engine.timeoutPromise Loop.drain].
  unfold Engine.timeoutPromise, Engine.subscribe.
  cbn -[String.append pretty Loop.drain]. store. cbn -[String.append pretty Loop.drain].
  eexists _, _. split; [reflexivity|].
  split.
  { unfold Engine.state_of. cbn. store. reflexivity. }
  destruct fuel as [|fuel]; [lia|].
  erewrite drain_step by reflexivity.
  unfold Loop.run_job. cbn -[String.append pretty Loop.drain].
  unfold Engine.settle. cbn -[String.append pretty Loop.drain]. store.
  cbn -[String.append pretty Loop.drain].
  rewrite drain_idle by reflexivity.
  unfold Engine.state_of. cbn. store. reflexivity.
Qed.


(** C9: [acknowledgedWrite] registers the one-shot waiter of
    [result:<id>] before it invokes the send function: the send runs
    in a world where the waiter is among the listeners and pending.
    Hence over a transport that delivers the answer from inside the
    send call, the promise of a [call] is settled as the answer says,
    and the promise of an [emit] is fulfilled with the answer. *)
Theorem waiter_registered_before_send E0 reply options method params evt data w fuel :
  (forall m, result_frame (default VUndef (vget m "id")) (reply m)) ->
  jobs w = [] ->
  Engine.listeners Engine.LocalListeners ("result:" +:+ next_id E0 w) w = [] ->
  (3 <= fuel)%nat ->
  (* whatever the send function is, it runs after the waiter is in place *)
  (forall E message tmo w' id,
      vget message "id" = Some id ->
      exists q w0 msg,
        Rpcjs.acknowledgedWrite E message tmo w'
        = attempt (send E message)
            (fun _ => Engine.timeoutPromise (P E) tmo q msg)
            (fun e => Engine.rejected (P E) e) w0 /\
        In (LResolve q)
           (Engine.listeners Engine.LocalListeners ("result:" +:+ to_string id) w0) /\
        Engine.state_of q w0 = Some Pending /\
        trace w0 = trace w' ++ [EvSend message]) /\
  (* so a result delivered from inside send settles the call *)
  (exists r w1,
      Rpcjs.call (answering E0 reply) options method params w = (w1, Ok r) /\
      Engine.state_of r (Loop.drain (answering E0 reply) fuel w1)
      = Some (result_state
                (reply (call_frame (VStr (next_id E0 w)) method params)))) /\
  (* and the emit *)
  (exists t w1,
      Rpcjs.emit (answering E0 reply) options evt data w = (w1, Ok t) /\
      Engine.state_of t (Loop.drain (answering E0 reply) fuel w1)
      = Some (Fulfilled (JData
                (reply (notify_frame (VStr (next_id E0 w)) evt data))))).
Proof.
  intros Hreply Hj Hfresh Hfuel. split; [|split].
  - intros E message tmo w' id Hid. by apply acknowledgedWrite_registers_first.
  - destruct (answered_call_settles E0 reply options method params w fuel Hreply Hj Hfresh Hfuel)
      as (r & w1 & Hcall & _ & Hst).
    by exists r, w1.
  - destruct (answered_emit_settles E0 reply options evt data w fuel Hreply Hj Hfresh)
      as (t & w1 & Hemit & _ & Hst); [lia|].
    by exists t, w1.
Qed.


(** At the client of the tests over a transport that acknowledges
    every frame from inside [send]. *)
Lemma waiter_registered_before_send_witness :
  let E0 := test_env "client" in
  (forall E message tmo w' id,
      vget message "id" = Some id ->
      exists q w0 msg,
        Rpcjs.acknowledgedWrite E message tmo w'
        = attempt (send E message)
            (fun _ => Engine.timeoutPromise (P E) tmo q msg)
            (fun e => Engine.rejected (P E) e) w0 /\
        In (LResolve q)
           (Engine.listeners Engine.LocalListeners ("result:" +:+ to_string id) w0) /\
        Engine.state_of q w0 = Some Pending /\
        trace w0 = trace w' ++ [EvSend message]) /\
  (exists r w1,
      Rpcjs.call (answering E0 acknowledge) None (VStr "notDefined") [] empty_world = (w1, Ok r) /\
      Engine.state_of r (Loop.drain (answering E0 acknowledge) 3 w1)
      = Some (result_state
                (acknowledge (call_frame (VStr (next_id E0 empty_world)) (VStr "notDefined") [])))) /\
  (exists t w1,
      Rpcjs.emit (answering E0 acknowledge) None (VStr "hi") [] empty_world = (w1, Ok t) /\
      Engine.state_of t (Loop.drain (answering E0 acknowledge) 3 w1)
      = Some (Fulfilled (JData
                (acknowledge (notify_frame (VStr (next_id E0 empty_world)) (VStr "hi") []))))).
Proof.
  intros E0.
  apply (waiter_registered_before_send E0 acknowledge None (VStr "notDefined") []
           (VStr "hi") [] empty_world 3).
  - intros m. split; reflexivity.
  - reflexivity.
  - reflexivity.
  - lia.
Defined.

(** The loopback of the tests, for one emit: the acknowledgement comes
    back from inside [send], and the emit resolves. *)
Example emit_over_loopback :
  let E := answering (test_env "client") acknowledge in
  let '(w1, t) := Rpcjs.emit E None (VStr "hi") [] empty_world in
  t = Ok 1%nat /\
  Engine.state_of 0 w1
  = Some (Fulfilled (JData (ack (VStr "client:1")))) /\
  Engine.state_of 1 (Loop.drain E 1 w1)
  = Some (Fulfilled (JData (ack (VStr "client:1")))).
Proof. vm_compute. repeat split. Qed.

(** * The round trip of a value *)

Lemma call_queued E options method params w :
  send E = send_queue -> jobs w = [] ->
  Engine.listeners Engine.LocalListeners ("result:" +:+ next_id E w) w = [] ->
  exists q t r w1,
    Rpcjs.call E options method params w = (w1, Ok r) /\
    awaiting ("result:" +:+ next_id E w) q t r w1 /\
    outbox w1 = outbox w ++ [call_frame (VStr (next_id E w)) method params].
Proof.
  intros HE Hj Hfresh. unfold call_frame, next_id in *.
  destruct w as [ps js ts nw oid ms ll acts regs prx ex ob tr].
  cbn [jobs] in Hj. subst js. cbn [outgoingId] in *.
  unfold Engine.listeners in Hfresh. cbn [Engine.table localListeners] in Hfresh.
  unfold Rpcjs.call, Rpcjs.createNextOutgoingId, Rpcjs.acknowledgedWrite, Rpcjs.resultEvent,
    Rpcjs.read, Engine.eventToPromise, Rpcjs.call_send.
  rewrite HE.
  cbn -[String.append pretty].
  rewrite Hfresh.
  unfold Engine.subscribe, Engine.ctor_of. cbn -[String.append pretty]. store.
  cbn -[String.append pretty].
  unfold Engine.subscribe. cbn -[String.append pretty]. store. cbn -[String.append pretty].
  eexists (length ps), (length ps + 1)%nat, (length ps + 2)%nat, _.
  split; [reflexivity|].
  split; [|reflexivity].
  unfold awaiting, Engine.listeners. cbn -[String.append pretty]. store.
  rewrite lookup_insert_eq.
  repeat split; try (eexists; reflexivity); try reflexivity; lia.
Qed.

Lemma echo_served S ws id v fuel :
  send S = send_queue -> jobs ws = [] ->
  methods ws !! "echo" = Some (HUser echo) ->
  thenless v = true -> (1 <= fuel)%nat ->
  exists ws1,
    Rpcjs.incoming S (call_frame id (VStr "echo") [v]) ws
    = (ws1, Ok VUndef) /\
    outbox (Loop.drain S fuel ws1)
    = outbox ws ++ [VObj [("id", id); ("type", VStr "result"); ("result", js_or v VNull)]].
Proof.
  intros HS Hj Hecho Hthen Hfuel. unfold call_frame.
  destruct ws as [ps js ts nw oid ms ll acts regs prx ex ob tr].
  cbn [jobs methods] in Hj, Hecho. subst js.
  unfold thenless in Hthen. apply negb_true_iff in Hthen.
  unfold Rpcjs.incoming, Rpcjs.callIncoming, Rpcjs.read.
  cbn -[String.append pretty Helpers.runEnsuringPromise Engine.then_].
  rewrite Hecho.
  unfold Helpers.runEnsuringPromise, Rpcjs.apply_handler.
  cbn -[String.append pretty Engine.then_]. rewrite Hthen.
  cbn -[String.append pretty Engine.then_].
  unfold Engine.then_, Engine.subscribe, Engine.ctor_of.
  cbn -[String.append pretty]. store. cbn -[String.append pretty].
  store. cbn -[String.append pretty].
  eexists. split; [reflexivity|].
  destruct fuel as [|fuel]; [lia|].
  erewrite drain_step by reflexivity.
  unfold Loop.run_job, Loop.run_cont, j_cont, j_state, Rpcjs.sendResult, Rpcjs.write,
    Rpcjs.call_send.
  rewrite HS.
  cbn -[String.append pretty Loop.drain js_or].
  unfold Engine.settle. cbn -[String.append pretty Loop.drain js_or]. store.
  cbn -[String.append pretty Loop.drain js_or].
  rewrite drain_idle by reflexivity. reflexivity.
Qed.

(** The round trip of [echo(v)] between two pairs joined by transports
    that carry each frame as it is. *)
Lemma echo_round_trip C S wc ws v fuel :
  send C = send_queue -> send S = send_queue ->
  jobs wc = [] ->
  Engine.listeners Engine.LocalListeners ("result:" +:+ next_id C wc) wc = [] ->
  jobs ws = [] -> methods ws !! "echo" = Some (HUser echo) ->
  thenless v = true -> (3 <= fuel)%nat ->
  exists r wc1 frame1 frame2,
    Rpcjs.call C None (VStr "echo") [v] wc = (wc1, Ok r) /\
    outbox wc1 = outbox wc ++ [frame1] /\
    outbox (Loop.drain S fuel (Rpcjs.incoming S frame1 ws).1) = outbox ws ++ [frame2] /\
    Engine.state_of r (Loop.drain C fuel (Rpcjs.incoming C frame2 wc1).1)
    = Some (Fulfilled (JData (js_or v VNull))).
Proof.
  intros HC HS Hjc Hfresh Hjs Hecho Hthen Hfuel.
  destruct (call_queued C None (VStr "echo") [v] wc HC Hjc Hfresh)
    as (q & t & r & wc1 & Hcall & Haw & Hob).
  destruct (echo_served S ws (VStr (next_id C wc)) v fuel HS Hjs Hecho Hthen)
    as (ws1 & Hin & Hob'); [lia|].
  eexists r, wc1, _, _. split; [exact Hcall|]. split; [exact Hob|].
  rewrite Hin. split; [exact Hob'|].
  set (f := VObj [("id", VStr (next_id C wc)); ("type", VStr "result"); ("result", js_or v VNull)]).
  destruct (first_result_settles C _ q t r wc1 f (VStr (next_id C wc)) Haw) as (wc2 & Hin2 & Hd);
    [split; reflexivity | reflexivity |].
  rewrite Hin2. destruct (Hd fuel Hfuel) as (Hst & _). exact Hst.
Qed.

(** Every truthy value comes back as it went. *)
Lemma echo_of_truthy C S wc ws v fuel :
  send C = send_queue -> send S = send_queue ->
  jobs wc = [] ->
  Engine.listeners Engine.LocalListeners ("result:" +:+ next_id C wc) wc = [] ->
  jobs ws = [] -> methods ws !! "echo" = Some (HUser echo) ->
  truthy v = true -> truthy (default VUndef (vget v "then")) = false -> (3 <= fuel)%nat ->
  exists r wc1 frame1 frame2,
    Rpcjs.call C None (VStr "echo") [v] wc = (wc1, Ok r) /\
    outbox wc1 = outbox wc ++ [frame1] /\
    outbox (Loop.drain S fuel (Rpcjs.incoming S frame1 ws).1) = outbox ws ++ [frame2] /\
    Engine.state_of r (Loop.drain C fuel (Rpcjs.incoming C frame2 wc1).1)
    = Some (Fulfilled (JData v)).
Proof.
  intros HC HS Hjc Hfresh Hjs Hecho Hv Hthen Hfuel.
  assert (js_or v VNull = v) as Hor by (unfold js_or; by rewrite Hv).
  destruct (echo_round_trip C S wc ws v fuel) as (r & wc1 & f1 & f2 & H); try assumption.
  { unfold thenless. by rewrite Hv, Hthen. }
  rewrite Hor in H. by exists r, wc1, f1, f2.
Qed.


(** C2: [echo(v)] between two connected pairs resolves to [null], not
    to [v], when [v] is [0], [false] or the empty string: [sendResult]
    writes [result || null].  A truthy value, here [15], comes back as
    it went. *)
Theorem echo_of_falsy_resolves_to_null :
  echo_session (VNum 0) = Some (Fulfilled (JData VNull)) /\
  echo_session (VBool false) = Some (Fulfilled (JData VNull)) /\
  echo_session (VStr "") = Some (Fulfilled (JData VNull)) /\
  echo_session (VNum 15) = Some (Fulfilled (JData (VNum 15))).
Proof. vm_compute. repeat split. Qed.

(** * A call that arrives before its actor *)

Lemma assoc_assign_ne {A} k k' (x : A) fs :
  k <> k' -> assoc k (assign k' x fs) = assoc k fs.
Proof.
  intros Hne. induction fs as [|[k0 y] fs IH]; cbn.
  - destruct (String.eqb_spec k k'); [done|reflexivity].
  - destruct (String.eqb_spec k' k0) as [->|Hk0]; cbn.
    + destruct (String.eqb_spec k k0); [done|reflexivity].
    + destruct (String.eqb_spec k k0); [reflexivity|exact IH].
Qed.





(** The same history, run: the call waits, the actor is exposed 100 ms
    later, the call resolves with 1; left alone for 500 ms it times out. *)
Example increment_before_exposure :
  let E := test_env "server" in
  let o := [("value", FData (VNum 0)); ("increment", FMethod (fun _ => Returns (VNum 1)))] in
  let '(w1, r) := Actors.call E "incrementer-1" (VStr "increment") [] empty_world in
  let w3 := (Actors.exposeActor E "incrementer-1" (JObject o) (Loop.advance E 5 100 w1)).1 in
  r = Ok 3%nat /\
  Engine.state_of 3 w1 = Some Pending /\
  Engine.state_of 3 (Loop.drain E 5 w3) = Some (Fulfilled (JData (VNum 1))) /\
  Engine.state_of 3 (Loop.advance E 5 500 w1)
  = Some (Rejected (new_error "ActorRegistrationTimeout")).
Proof. vm_compute. repeat split. Qed.

(** * Errors and values across the wire *)

Lemma assoc_assign_eq {A} k (x : A) fs : assoc k (assign k x fs) = Some x.
Proof.
  induction fs as [|[k0 y] fs IH]; cbn.
  - by rewrite String.eqb_refl.
  - destruct (String.eqb_spec k k0) as [->|Hne]; cbn.
    + by rewrite String.eqb_refl.
    + destruct (String.eqb_spec k k0); [done|exact IH].
Qed.

Lemma assoc_None_notin {A} k (fs : list (string * A)) :
  assoc k fs = None <-> k ∉ map fst fs.
Proof.
  induction fs as [|[k0 y] fs IH]; cbn.
  - split; [intros _; apply not_elem_of_nil | done].
  - rewrite not_elem_of_cons. destruct (String.eqb_spec k k0) as [->|Hne].
    + split; [discriminate | intros [? _]; done].
    + rewrite IH. split; [by intros ? | by intros [_ ?]].
Qed.

Lemma assign_keys_NoDup {A} k (x : A) fs :
  NoDup (map fst fs) -> NoDup (map fst (assign k x fs)).
Proof.
  induction fs as [|[k0 y] fs IH]; cbn; intros Hnd.
  - apply NoDup_singleton.
  - apply NoDup_cons in Hnd as [Hk0 Hnd].
    destruct (String.eqb_spec k k0) as [->|Hne]; cbn.
    + by apply NoDup_cons.
    + apply NoDup_cons. split; [|by apply IH].
      apply assoc_None_notin. rewrite assoc_assign_ne by done.
      by apply assoc_None_notin.
Qed.

(** Reading a field of an Error after one was written. *)
Lemma vget_set_error_field m st fs k x k' :
  vget (Rpcjs.set_error_field (VErr m st fs) k x) k'
  = Some (if String.eqb k' k then x else default VUndef (vget (VErr m st fs) k')).
Proof.
  unfold Rpcjs.set_error_field.
  destruct (String.eqb_spec k "message") as [->|Hm].
  { cbn. destruct (String.eqb_spec k' "message"); reflexivity. }
  destruct (String.eqb_spec k "stack") as [->|Hs].
  { cbn. destruct (String.eqb_spec k' "message") as [->|]; [reflexivity|].
    destruct (String.eqb_spec k' "stack"); reflexivity. }
  cbn. destruct (String.eqb_spec k' k) as [->|Hne].
  - rewrite (proj2 (String.eqb_neq _ _) Hm), (proj2 (String.eqb_neq _ _) Hs).
    by rewrite assoc_assign_eq.
  - destruct (String.eqb_spec k' "message"); [reflexivity|].
    destruct (String.eqb_spec k' "stack"); [reflexivity|].
    by rewrite assoc_assign_ne.
Qed.

Lemma set_error_field_is_error m st fs k x :
  exists m' st' fs', Rpcjs.set_error_field (VErr m st fs) k x = VErr m' st' fs'.
Proof. unfold Rpcjs.set_error_field. repeat case_match; eauto. Qed.

(** [_.extend(error, properties)], field by field. *)
Lemma extend_error_fields ps : forall m st fs,
  exists m' st' fs',
    fold_left (fun e kv => Rpcjs.set_error_field e kv.1 kv.2) ps (VErr m st fs) = VErr m' st' fs' /\
    (NoDup (map fst ps) ->
     forall k, vget (VErr m' st' fs') k
               = Some (default (default VUndef (vget (VErr m st fs) k)) (assoc k ps))).
Proof.
  induction ps as [|[k0 x] ps IH]; intros m st fs; cbn [fold_left fst snd].
  - exists m, st, fs. split; [reflexivity|]. intros _ k. cbn [assoc default].
    destruct (vget (VErr m st fs) k) eqn:H; [reflexivity|discriminate].
  - destruct (set_error_field_is_error m st fs k0 x) as (m1 & st1 & fs1 & H1).
    rewrite H1. destruct (IH m1 st1 fs1) as (m' & st' & fs' & Hf & Hget).
    exists m', st', fs'. split; [exact Hf|].
    intros Hnd k. cbn [map fst] in Hnd. apply NoDup_cons in Hnd as [Hk0 Hnd].
    rewrite (Hget Hnd k). rewrite <- H1, vget_set_error_field. cbn [assoc default].
    destruct (String.eqb_spec k k0) as [->|Hne].
    + apply assoc_None_notin in Hk0. by rewrite Hk0.
    + reflexivity.
Qed.

Lemma own_enumerable_or_empty err :
  Rpcjs.own_enumerable (js_or err (VObj [])) = Rpcjs.own_enumerable err.
Proof. unfold js_or. destruct err as [| |[]|n|s|xs|fs|m st fs]; try reflexivity.
  - cbn. destruct (n =? 0)%Z; reflexivity.
  - cbn. destruct (String.eqb_spec s ""); [by subst|reflexivity].
Qed.

Lemma ensureError_non_error_unfold err :
  is_error err = false ->
  Rpcjs.ensureError err
  = let own := Rpcjs.own_enumerable err in
    let properties :=
      match assoc "message" own with
      | None | Some VUndef => assign "message" (VStr "RejectedWithNonError") own
      | Some _ => own
      end in
    fold_left (fun e kv => Rpcjs.set_error_field e kv.1 kv.2) properties
      (Rpcjs.set_error_field
         (new_error (to_string (default VUndef (assoc "message" properties))))
         "remote" (VBool true)).
Proof.
  intros H. destruct err; try discriminate; unfold Rpcjs.ensureError;
    rewrite own_enumerable_or_empty; reflexivity.
Qed.

(** What [ensureError] makes of a value that is not an Error, field by
    field. *)
Lemma ensureError_fields err :
  is_error err = false ->
  NoDup (map fst (Rpcjs.own_enumerable err)) ->
  is_error (Rpcjs.ensureError err) = true /\
  (forall k v, assoc k (Rpcjs.own_enumerable err) = Some v ->
               (k = "message" -> v <> VUndef) ->
               vget (Rpcjs.ensureError err) k = Some v) /\
  (assoc "message" (Rpcjs.own_enumerable err) = None \/
   assoc "message" (Rpcjs.own_enumerable err) = Some VUndef ->
   vget (Rpcjs.ensureError err) "message" = Some (VStr "RejectedWithNonError")) /\
  (assoc "remote" (Rpcjs.own_enumerable err) = None ->
   vget (Rpcjs.ensureError err) "remote" = Some (VBool true)) /\
  (forall k, assoc k (Rpcjs.own_enumerable err) = None ->
             k <> "message" -> k <> "stack" -> k <> "name" -> k <> "remote" ->
             vget (Rpcjs.ensureError err) k = Some VUndef).
Proof.
  intros Hne Hnd. rewrite (ensureError_non_error_unfold err Hne). cbv zeta.
  set (own := Rpcjs.own_enumerable err) in *.
  set (properties := match assoc "message" own with
                     | None | Some VUndef => assign "message" (VStr "RejectedWithNonError") own
                     | Some _ => own
                     end).
  assert (NoDup (map fst properties)) as Hndp.
  { subst properties. repeat case_match; try assumption; by apply assign_keys_NoDup. }
  assert (forall k, k <> "message" -> assoc k properties = assoc k own) as Hother.
  { intros k Hk. subst properties. repeat case_match; try reflexivity;
      by apply assoc_assign_ne. }
  assert (forall s, Rpcjs.set_error_field (new_error s) "remote" (VBool true)
                    = VErr (VStr s) (VStr ("Error: " +:+ s)) [("remote", VBool true)]) as ->
    by reflexivity.
  match goal with |- context [fold_left ?f properties (VErr ?m ?st ?fs)] =>
    destruct (extend_error_fields properties m st fs) as (m' & st' & fs' & -> & Hget)
  end.
  specialize (Hget Hndp).
  split; [reflexivity|]. split; [|split; [|split]].
  - intros k v Hk Hmsg. rewrite Hget.
    destruct (String.eqb_spec k "message") as [->|Hkm].
    + specialize (Hmsg eq_refl). subst properties. rewrite Hk.
      destruct v; try done; by rewrite Hk.
    + by rewrite (Hother k Hkm), Hk.
  - intros Hm. rewrite Hget. subst properties.
    destruct Hm as [-> | ->]; by rewrite assoc_assign_eq.
  - intros Hr. rewrite Hget, (Hother "remote") by discriminate. by rewrite Hr.
  - intros k Hk Hkm Hks Hkn Hkr. rewrite Hget, (Hother k Hkm), Hk. cbn.
    rewrite (proj2 (String.eqb_neq _ _) Hkm), (proj2 (String.eqb_neq _ _) Hks),
      (proj2 (String.eqb_neq _ _) Hkr), (proj2 (String.eqb_neq _ _) Hkn).
    reflexivity.
Qed.

(** X1: what [ensureError] makes of a value that is not an Error: an
    Error marked [remote] that carries the own fields of the value,
    with the message [RejectedWithNonError] where the value has none,
    and no other field. *)
Theorem ensureError_inflates err :
  is_error err = false ->
  NoDup (map fst (Rpcjs.own_enumerable err)) ->
  is_error (Rpcjs.ensureError err) = true /\
  (forall k v, assoc k (Rpcjs.own_enumerable err) = Some v ->
               (k = "message" -> v <> VUndef) ->
               vget (Rpcjs.ensureError err) k = Some v) /\
  (assoc "message" (Rpcjs.own_enumerable err) = None \/
   assoc "message" (Rpcjs.own_enumerable err) = Some VUndef ->
   vget (Rpcjs.ensureError err) "message" = Some (VStr "RejectedWithNonError")) /\
  (assoc "remote" (Rpcjs.own_enumerable err) = None ->
   vget (Rpcjs.ensureError err) "remote" = Some (VBool true)) /\
  (forall k, assoc k (Rpcjs.own_enumerable err) = None -> inherited k = false ->
             k <> "message" -> k <> "stack" -> k <> "name" -> k <> "remote" ->
             vget (Rpcjs.ensureError err) k = Some VUndef).
Proof.
  intros Hne Hnd.
  destruct (ensureError_fields err Hne Hnd) as (Herr & Hcopy & Hdef & Hremote & Habsent).
  repeat split; try assumption.
  intros k Hk _. by apply Habsent.
Qed.

(** At the object [{ code: 7 }]. *)
Lemma ensureError_inflates_witness :
  let err := VObj [("code", VNum 7)] in
  is_error (Rpcjs.ensureError err) = true /\
  (forall k v, assoc k (Rpcjs.own_enumerable err) = Some v ->
               (k = "message" -> v <> VUndef) ->
               vget (Rpcjs.ensureError err) k = Some v) /\
  (assoc "message" (Rpcjs.own_enumerable err) = None \/
   assoc "message" (Rpcjs.own_enumerable err) = Some VUndef ->
   vget (Rpcjs.ensureError err) "message" = Some (VStr "RejectedWithNonError")) /\
  (assoc "remote" (Rpcjs.own_enumerable err) = None ->
   vget (Rpcjs.ensureError err) "remote" = Some (VBool true)) /\
  (forall k, assoc k (Rpcjs.own_enumerable err) = None -> inherited k = false ->
             k <> "message" -> k <> "stack" -> k <> "name" -> k <> "remote" ->
             vget (Rpcjs.ensureError err) k = Some VUndef).
Proof.
  intros err. apply (ensureError_inflates err).
  - reflexivity.
  - cbn. apply NoDup_singleton.
Defined.

(** A value that brings a [remote] field of its own keeps it: the
    marker is written before the fields are copied. *)
Example ensureError_remote_overwritten :
  vget (Rpcjs.ensureError (VObj [("message", VStr "boom"); ("remote", VBool false)])) "remote"
  = Some (VBool false).
Proof. reflexivity. Qed.

Lemma assoc_extend (fs : list (string * val)) : forall base k,
  NoDup (map fst fs) ->
  assoc k (fold_left (fun acc kv => assign kv.1 kv.2 acc) fs base)
  = match assoc k fs with Some v => Some v | None => assoc k base end.
Proof.
  induction fs as [|[k0 x] fs IH]; intros base k Hnd; cbn [fold_left fst snd assoc].
  - reflexivity.
  - cbn [map fst] in Hnd. apply NoDup_cons in Hnd as [Hk0 Hnd].
    rewrite (IH _ _ Hnd).
    destruct (String.eqb_spec k k0) as [->|Hne].
    + apply assoc_None_notin in Hk0. rewrite Hk0. apply assoc_assign_eq.
    + destruct (assoc k fs); [reflexivity|]. by apply assoc_assign_ne.
Qed.

Lemma extend_keys_NoDup (fs : list (string * val)) : forall base,
  NoDup (map fst base) ->
  NoDup (map fst (fold_left (fun acc kv => assign kv.1 kv.2 acc) fs base)).
Proof.
  induction fs as [|[k0 x] fs IH]; intros base Hnd; cbn [fold_left fst snd].
  - exact Hnd.
  - apply IH. by apply assign_keys_NoDup.
Qed.

(** The payload [sendError] writes for an Error, read back through
    [ensureError]. *)
Lemma error_round_trip m st fs :
  m <> VUndef -> NoDup (map fst fs) ->
  assoc "message" fs = None -> assoc "stack" fs = None ->
  let e := VErr m st fs in
  let payload :=
    VObj (Rpcjs.extend [("name", default VUndef (vget e "name")); ("message", m); ("stack", st)] e) in
  is_error (Rpcjs.ensureError payload) = true /\
  (forall k, k <> "remote" -> vget (Rpcjs.ensureError payload) k = vget e k) /\
  (assoc "remote" fs = None -> vget (Rpcjs.ensureError payload) "remote" = Some (VBool true)).
Proof.
  intros Hm Hnd Hmsg Hst e payload.
  assert (NoDup (map fst (Rpcjs.own_enumerable payload))) as Hndp.
  { cbn [Rpcjs.own_enumerable payload]. unfold Rpcjs.extend. apply extend_keys_NoDup.
    apply (bool_decide_unpack _). by vm_compute. }
  assert (forall k, assoc k (Rpcjs.own_enumerable payload)
                    = match assoc k fs with
                      | Some v => Some v
                      | None => assoc k [("name", default VUndef (vget e "name"));
                                         ("message", m); ("stack", st)]
                      end) as Hfields.
  { intros k. cbn [Rpcjs.own_enumerable payload]. unfold Rpcjs.extend.
    cbn [Rpcjs.own_enumerable e]. by apply assoc_extend. }
  destruct (ensureError_fields payload eq_refl Hndp) as (Herr & Hcopy & _ & Hremote & Habsent).
  split; [exact Herr|]. split.
  - intros k Hk.
    destruct (assoc k (Rpcjs.own_enumerable payload)) as [v|] eqn:Hv.
    + rewrite (Hcopy k v Hv).
      * rewrite Hfields in Hv. subst e. cbn [vget].
        destruct (String.eqb_spec k "message") as [->|Hkm].
        { rewrite Hmsg in Hv. cbn in Hv. congruence. }
        destruct (String.eqb_spec k "stack") as [->|Hks].
        { rewrite Hst in Hv. cbn in Hv. congruence. }
        destruct (assoc k fs) as [x|] eqn:Hx; [congruence|].
        cbn [assoc] in Hv. destruct (String.eqb_spec k "name") as [->|Hkn].
        -- cbn in Hv. rewrite Hx in Hv. cbn in Hv. congruence.
        -- rewrite (proj2 (String.eqb_neq _ _) Hkm), (proj2 (String.eqb_neq _ _) Hks) in Hv.
           discriminate.
      * intros ->. rewrite Hfields, Hmsg in Hv. cbn in Hv. congruence.
    + (* a name the payload does not have *)
      pose proof Hv as Hv'. rewrite Hfields in Hv'.
      destruct (assoc k fs) eqn:Hx; [discriminate|].
      cbn [assoc] in Hv'. destruct (String.eqb_spec k "name") as [|Hkn]; [discriminate|].
      destruct (String.eqb_spec k "message") as [|Hkm]; [discriminate|].
      destruct (String.eqb_spec k "stack") as [|Hks]; [discriminate|].
      rewrite (Habsent k Hv Hkm Hks Hkn Hk). subst e. cbn [vget].
      rewrite (proj2 (String.eqb_neq _ _) Hkm), (proj2 (String.eqb_neq _ _) Hks), Hx,
        (proj2 (String.eqb_neq _ _) Hkn).
      reflexivity.
  - intros Hr. apply Hremote. rewrite Hfields, Hr. reflexivity.
Qed.

Lemma vget_not_nullish e k :
  nullish e = false -> vget e k = Some (default VUndef (vget e k)).
Proof. destruct e; try discriminate; intros _; reflexivity. Qed.

Lemma read_not_nullish e k w :
  nullish e = false -> Rpcjs.read e k w = (w, Ok (default VUndef (vget e k))).
Proof. intros H. unfold Rpcjs.read. rewrite (vget_not_nullish e k H). reflexivity. Qed.

Lemma read_nullish e k w :
  nullish e = true -> exists x, Rpcjs.read e k w = (w, Throw x).
Proof. destruct e; try discriminate; intros _; eexists; reflexivity. Qed.

Lemma sendError_frame Sv id e w :
  send Sv = send_queue -> nullish e = false ->
  Rpcjs.sendError Sv id e w
  = (set_outbox (fun o => o ++ [error_frame id e])
       (set_trace (fun t => t ++ [EvSend (error_frame id e)]) w), Ok tt).
Proof.
  intros HS He. unfold Rpcjs.sendError, bind.
  rewrite !read_not_nullish by exact He.
  unfold Rpcjs.write, Rpcjs.call_send, attempt, bind, modify. rewrite HS. reflexivity.
Qed.

Lemma sendError_nullish Sv id e w :
  nullish e = true -> exists x, Rpcjs.sendError Sv id e w = (w, Throw x).
Proof.
  intros He. unfold Rpcjs.sendError, bind.
  destruct (read_nullish e "name" w He) as [x ->]. by exists x.
Qed.

(** The handler runs, fails, and its promise meets [sendError]. *)
Lemma failure_scheduled Sv ws id method params h e :
  jobs ws = [] ->
  methods ws !! to_string method = Some (HUser h) ->
  fails_with (h params) e ->
  exists c,
    Rpcjs.incoming Sv (call_frame id method params) ws
    = (Engine.enqueue [Job (KReply id) (length (promises ws) + 1)%nat (Rejected e)]
         (set_promises (fun ps => ps ++ [Promise c (Rejected e) [];
                                         Promise c Pending []]) ws),
       Ok VUndef).
Proof.
  intros Hj Hm Hfail. unfold call_frame.
  destruct ws as [ps js ts nw oid ms ll acts regs prx ex ob tr].
  cbn [jobs methods] in Hj, Hm. subst js.
  unfold Rpcjs.incoming, Rpcjs.callIncoming, Rpcjs.read.
  cbn -[String.append pretty Helpers.runEnsuringPromise Engine.then_ to_string].
  rewrite Hm.
  unfold Helpers.runEnsuringPromise, Rpcjs.apply_handler.
  destruct Hfail as [Hf | [c Hf]];
    cbn -[String.append pretty Engine.then_ to_string]; rewrite Hf;
    cbn -[String.append pretty Engine.then_ to_string];
    unfold Engine.then_, Engine.subscribe, Engine.ctor_of;
    cbn -[String.append pretty to_string]; store; cbn -[String.append pretty to_string];
    store; cbn -[String.append pretty to_string];
    eexists; reflexivity.
Qed.

Lemma failure_served Sv ws id method params h e fuel :
  send Sv = send_queue -> jobs ws = [] ->
  methods ws !! to_string method = Some (HUser h) ->
  fails_with (h params) e -> nullish e = false -> (1 <= fuel)%nat ->
  exists ws1,
    Rpcjs.incoming Sv (call_frame id method params) ws = (ws1, Ok VUndef) /\
    outbox (Loop.drain Sv fuel ws1) = outbox ws ++ [error_frame id e] /\
    trace (Loop.drain Sv fuel ws1) = trace ws ++ [EvSend (error_frame id e)].
Proof.
  intros HS Hj Hm Hfail He Hfuel.
  destruct (failure_scheduled Sv ws id method params h e Hj Hm Hfail) as [c ->].
  eexists. split; [reflexivity|].
  destruct ws as [ps js ts nw oid ms ll acts regs prx ex ob tr].
  cbn [jobs] in Hj. subst js.
  destruct fuel as [|fuel]; [lia|].
  cbn -[String.append pretty Loop.drain error_frame].
  erewrite drain_step by reflexivity.
  unfold Loop.run_job, Loop.run_cont, j_cont, j_state, attempt, bind.
  rewrite (sendError_frame Sv id e _ HS He).
  cbn -[String.append pretty Loop.drain error_frame].
  unfold Engine.settle. cbn -[String.append pretty Loop.drain error_frame]. store.
  cbn -[String.append pretty Loop.drain error_frame].
  rewrite drain_idle by reflexivity. split; reflexivity.
Qed.

(** X2: a handler that fails with [null] or [undefined] is never
    answered: [sendError] throws reading [error.name], nothing is sent
    and the error sink hears nothing. *)
Theorem nullish_failure_unanswered Sv ws id method params h e fuel :
  jobs ws = [] ->
  methods ws !! to_string method = Some (HUser h) ->
  fails_with (h params) e -> nullish e = true -> (1 <= fuel)%nat ->
  exists ws1,
    Rpcjs.incoming Sv (call_frame id method params) ws = (ws1, Ok VUndef) /\
    jobs (Loop.drain Sv fuel ws1) = [] /\
    outbox (Loop.drain Sv fuel ws1) = outbox ws /\
    trace (Loop.drain Sv fuel ws1) = trace ws.
Proof.
  intros Hj Hm Hfail He Hfuel.
  destruct (failure_scheduled Sv ws id method params h e Hj Hm Hfail) as [c ->].
  eexists. split; [reflexivity|].
  destruct ws as [ps js ts nw oid ms ll acts regs prx ex ob tr].
  cbn [jobs] in Hj. subst js.
  destruct fuel as [|fuel]; [lia|].
  cbn -[String.append pretty Loop.drain].
  erewrite drain_step by reflexivity.
  unfold Loop.run_job, Loop.run_cont, j_cont, j_state, attempt, bind.
  match goal with |- context [Rpcjs.sendError Sv id e ?w] =>
    destruct (sendError_nullish Sv id e w He) as [x ->]
  end.
  cbn -[String.append pretty Loop.drain].
  unfold Engine.settle. cbn -[String.append pretty Loop.drain]. store.
  cbn -[String.append pretty Loop.drain].
  rewrite drain_idle by reflexivity. repeat split; reflexivity.
Qed.

(** At a handler that returns [Promise.reject()]. *)
Lemma nullish_failure_unanswered_witness :
  let Sv := test_env "server" in
  let h := fun _ : list val => ReturnsPromise (Library 0) (Already (Rejects VUndef)) in
  let ws := (Rpcjs.expose "reject" (HUser h) empty_world).1 in
  exists ws1,
    Rpcjs.incoming Sv (call_frame (VStr "client:1") (VStr "reject") []) ws = (ws1, Ok VUndef) /\
    jobs (Loop.drain Sv 1 ws1) = [] /\
    outbox (Loop.drain Sv 1 ws1) = outbox ws /\
    trace (Loop.drain Sv 1 ws1) = trace ws.
Proof.
  intros Sv h ws.
  apply (nullish_failure_unanswered Sv ws (VStr "client:1") (VStr "reject") [] h VUndef 1).
  - reflexivity.
  - reflexivity.
  - right. exists (Library 0). reflexivity.
  - reflexivity.
  - lia.
Defined.

(** X3: an Error a handler throws, or rejects with, reaches the caller:
    the promise of the call is rejected with an Error that reads like
    the handler's on every field but [remote], which is [true]. *)
Theorem handler_failure_reaches_caller C Sv wc ws options method params h m st fs fuel :
  send C = send_queue -> send Sv = send_queue ->
  jobs wc = [] ->
  Engine.listeners Engine.LocalListeners ("result:" +:+ next_id C wc) wc = [] ->
  jobs ws = [] -> methods ws !! to_string method = Some (HUser h) ->
  fails_with (h params) (VErr m st fs) ->
  m <> VUndef -> NoDup (map fst fs) ->
  assoc "message" fs = None -> assoc "stack" fs = None ->
  (3 <= fuel)%nat ->
  exists r wc1 frame1 frame2 e',
    Rpcjs.call C options method params wc = (wc1, Ok r) /\
    outbox wc1 = outbox wc ++ [frame1] /\
    outbox (Loop.drain Sv fuel (Rpcjs.incoming Sv frame1 ws).1) = outbox ws ++ [frame2] /\
    Engine.state_of r (Loop.drain C fuel (Rpcjs.incoming C frame2 wc1).1) = Some (Rejected e') /\
    is_error e' = true /\
    (forall k, k <> "remote" -> vget e' k = vget (VErr m st fs) k) /\
    (assoc "remote" fs = None -> vget e' "remote" = Some (VBool true)).
Proof.
  intros HC HS Hjc Hfresh Hjs Hm Hfail Hmsg Hnd Hnomsg Hnost Hfuel.
  destruct (call_queued C options method params wc HC Hjc Hfresh)
    as (q & t & r & wc1 & Hcall & Haw & Hob).
  destruct (failure_served Sv ws (VStr (next_id C wc)) method params h (VErr m st fs) fuel
              HS Hjs Hm Hfail eq_refl) as (ws1 & Hin & Hob' & _); [lia|].
  destruct (error_round_trip m st fs Hmsg Hnd Hnomsg Hnost) as (Herr & Hfields & Hremote).
  eexists r, wc1, _, _, _. split; [exact Hcall|]. split; [exact Hob|].
  rewrite Hin. split; [exact Hob'|].
  match goal with |- context [Rpcjs.incoming C ?f wc1] =>
    destruct (first_result_settles C _ q t r wc1 f (VStr (next_id C wc)) Haw)
      as (wc2 & Hin2 & Hd); [split; reflexivity | reflexivity |]
  end.
  rewrite Hin2. destruct (Hd fuel Hfuel) as (Hst & _).
  split; [exact Hst|]. split; [exact Herr|]. split; [exact Hfields|exact Hremote].
Qed.

Lemma handler_failure_reaches_caller_witness :
  let C := test_env "client" in
  let Sv := test_env "server" in
  let h := fun _ : list val => Throws (new_error "threw") in
  let ws := (Rpcjs.expose "throws" (HUser h) empty_world).1 in
  exists r wc1 frame1 frame2 e',
    Rpcjs.call C None (VStr "throws") [] empty_world = (wc1, Ok r) /\
    outbox wc1 = outbox empty_world ++ [frame1] /\
    outbox (Loop.drain Sv 3 (Rpcjs.incoming Sv frame1 ws).1) = outbox ws ++ [frame2] /\
    Engine.state_of r (Loop.drain C 3 (Rpcjs.incoming C frame2 wc1).1) = Some (Rejected e') /\
    is_error e' = true /\
    (forall k, k <> "remote" -> vget e' k = vget (new_error "threw") k) /\
    (assoc "remote" ([] : list (string * val)) = None -> vget e' "remote" = Some (VBool true)).
Proof.
  intros C Sv h ws.
  apply (handler_failure_reaches_caller C Sv empty_world ws None (VStr "throws") [] h
           (VStr "threw") (VStr "Error: threw") [] 3).
  - reflexivity.
  - reflexivity.
  - reflexivity.
  - reflexivity.
  - reflexivity.
  - reflexivity.
  - left. reflexivity.
  - discriminate.
  - apply NoDup_nil_2.
  - reflexivity.
  - reflexivity.
  - lia.
Defined.

(** The payload of [sendError], read back through [ensureError], for a
    value that is not an Error. *)
Lemma non_error_round_trip e :
  NoDup (map fst (Rpcjs.own_enumerable e)) ->
  let payload := default VUndef (vget (error_frame VUndef e) "error") in
  is_error (Rpcjs.ensureError payload) = true /\
  (forall k v, assoc k (Rpcjs.own_enumerable e) = Some v ->
               (k = "message" -> v <> VUndef) ->
               vget (Rpcjs.ensureError payload) k = Some v) /\
  (default VUndef (vget e "message") = VUndef ->
   (assoc "message" (Rpcjs.own_enumerable e) = None \/
    assoc "message" (Rpcjs.own_enumerable e) = Some VUndef) ->
   vget (Rpcjs.ensureError payload) "message" = Some (VStr "RejectedWithNonError")).
Proof.
  intros Hnd payload.
  assert (NoDup (map fst (Rpcjs.own_enumerable payload))) as Hndp.
  { cbn [Rpcjs.own_enumerable payload]. unfold Rpcjs.extend. apply extend_keys_NoDup.
    apply (bool_decide_unpack _). by vm_compute. }
  assert (forall k, assoc k (Rpcjs.own_enumerable payload)
                    = match assoc k (Rpcjs.own_enumerable e) with
                      | Some v => Some v
                      | None => assoc k [("name", default VUndef (vget e "name"));
                                         ("message", default VUndef (vget e "message"));
                                         ("stack", default VUndef (vget e "stack"))]
                      end) as Hfields.
  { intros k. subst payload. cbn -[Rpcjs.own_enumerable vget].
    cbn [Rpcjs.own_enumerable]. unfold Rpcjs.extend. by apply assoc_extend. }
  destruct (ensureError_fields payload eq_refl Hndp) as (Herr & Hcopy & Hdef & _).
  split; [exact Herr|]. split.
  - intros k v Hk Hmsg. apply Hcopy; [|exact Hmsg]. by rewrite Hfields, Hk.
  - intros Hm Hown. apply Hdef. rewrite Hfields.
    destruct Hown as [-> | ->]; [|by right].
    cbn [assoc]. change (String.eqb "message" "name") with false.
    change (String.eqb "message" "message") with true. cbv iota. rewrite Hm. by right.
Qed.

(** X4: a handler that fails with a value that is not an Error (and not
    [null] or [undefined]): the caller's promise is rejected with an
    Error that carries the value's own fields; where the value has no
    message, the message is [RejectedWithNonError]. *)
Theorem non_error_failure_reaches_caller C Sv wc ws options method params h e fuel :
  send C = send_queue -> send Sv = send_queue ->
  jobs wc = [] ->
  Engine.listeners Engine.LocalListeners ("result:" +:+ next_id C wc) wc = [] ->
  jobs ws = [] -> methods ws !! to_string method = Some (HUser h) ->
  fails_with (h params) e ->
  is_error e = false -> nullish e = false ->
  NoDup (map fst (Rpcjs.own_enumerable e)) ->
  (3 <= fuel)%nat ->
  exists r wc1 frame1 frame2 e',
    Rpcjs.call C options method params wc = (wc1, Ok r) /\
    outbox wc1 = outbox wc ++ [frame1] /\
    outbox (Loop.drain Sv fuel (Rpcjs.incoming Sv frame1 ws).1) = outbox ws ++ [frame2] /\
    Engine.state_of r (Loop.drain C fuel (Rpcjs.incoming C frame2 wc1).1) = Some (Rejected e') /\
    is_error e' = true /\
    (forall k v, assoc k (Rpcjs.own_enumerable e) = Some v ->
                 (k = "message" -> v <> VUndef) -> vget e' k = Some v) /\
    (assoc "message" (Rpcjs.own_enumerable e) = None \/
     assoc "message" (Rpcjs.own_enumerable e) = Some VUndef ->
     vget e' "message" = Some (VStr "RejectedWithNonError")).
Proof.
  intros HC HS Hjc Hfresh Hjs Hm Hfail Hne Hnull Hnd Hfuel.
  destruct (call_queued C options method params wc HC Hjc Hfresh)
    as (q & t & r & wc1 & Hcall & Haw & Hob).
  destruct (failure_served Sv ws (VStr (next_id C wc)) method params h e fuel
              HS Hjs Hm Hfail Hnull) as (ws1 & Hin & Hob' & _); [lia|].
  destruct (non_error_round_trip e Hnd) as (Herr & Hfields & Hdef).
  eexists r, wc1, _, _, _. split; [exact Hcall|]. split; [exact Hob|].
  rewrite Hin. split; [exact Hob'|].
  destruct (first_result_settles C _ q t r wc1 (error_frame (VStr (next_id C wc)) e)
              (VStr (next_id C wc)) Haw)
    as (wc2 & Hin2 & Hd); [split; reflexivity | reflexivity |].
  rewrite Hin2. destruct (Hd fuel Hfuel) as (Hst & _).
  split; [exact Hst|]. split; [exact Herr|]. split; [exact Hfields|].
  intros Hown. apply Hdef; [|exact Hown].
  destruct e as [| |b|n|s|xs|fs|]; try discriminate; try reflexivity.
  cbn in *. destruct Hown as [-> | ->]; reflexivity.
Qed.

(** At a handler that throws the string [boom]. *)
Lemma non_error_failure_reaches_caller_witness :
  let C := test_env "client" in
  let Sv := test_env "server" in
  let h := fun _ : list val => Throws (VStr "boom") in
  let ws := (Rpcjs.expose "throws" (HUser h) empty_world).1 in
  exists r wc1 frame1 frame2 e',
    Rpcjs.call C None (VStr "throws") [] empty_world = (wc1, Ok r) /\
    outbox wc1 = outbox empty_world ++ [frame1] /\
    outbox (Loop.drain Sv 3 (Rpcjs.incoming Sv frame1 ws).1) = outbox ws ++ [frame2] /\
    Engine.state_of r (Loop.drain C 3 (Rpcjs.incoming C frame2 wc1).1) = Some (Rejected e') /\
    is_error e' = true /\
    (forall k v, assoc k (Rpcjs.own_enumerable (VStr "boom")) = Some v ->
                 (k = "message" -> v <> VUndef) -> vget e' k = Some v) /\
    (assoc "message" (Rpcjs.own_enumerable (VStr "boom")) = None \/
     assoc "message" (Rpcjs.own_enumerable (VStr "boom")) = Some VUndef ->
     vget e' "message" = Some (VStr "RejectedWithNonError")).
Proof.
  intros C Sv h ws.
  apply (non_error_failure_reaches_caller C Sv empty_world ws None (VStr "throws") [] h
           (VStr "boom") 3).
  - reflexivity.
  - reflexivity.
  - reflexivity.
  - reflexivity.
  - reflexivity.
  - reflexivity.
  - left. reflexivity.
  - reflexivity.
  - reflexivity.
  - apply (bool_decide_unpack _). by vm_compute.
  - lia.
Defined.

Lemma missing_method_served Sv ws id method params :
  send Sv = send_queue ->
  methods ws !! to_string method = None ->
  Rpcjs.incoming Sv (call_frame id method params) ws
  = (set_outbox (fun o => o ++ [error_frame id (no_such_method method (VArr params))])
       (set_trace (fun t => t ++ [EvSend (error_frame id (no_such_method method (VArr params)))])
          ws), Ok VUndef).
Proof.
  intros HS Hm. unfold call_frame, Rpcjs.incoming, Rpcjs.callIncoming, Rpcjs.read.
  cbn -[String.append pretty to_string Rpcjs.sendError error_frame].
  rewrite Hm.
  fold (no_such_method method (VArr params)).
  rewrite (sendError_frame Sv id (no_such_method method (VArr params)) _ HS eq_refl). reflexivity.
Qed.

(** X5: a call of a method the peer has not exposed (and that no object
    inherits: [methods] is a plain object) is answered at once, and
    the caller's promise is rejected with an Error whose message is
    [NoSuchMethod], which names the method and the parameters and is
    marked remote. *)
Theorem missing_method_reaches_caller C Sv wc ws options method params fuel :
  send C = send_queue -> send Sv = send_queue ->
  jobs wc = [] ->
  Engine.listeners Engine.LocalListeners ("result:" +:+ next_id C wc) wc = [] ->
  methods ws !! to_string method = None -> inherited (to_string method) = false ->
  (3 <= fuel)%nat ->
  exists r wc1 frame1 ws1 frame2 e',
    Rpcjs.call C options method params wc = (wc1, Ok r) /\
    outbox wc1 = outbox wc ++ [frame1] /\
    Rpcjs.incoming Sv frame1 ws = (ws1, Ok VUndef) /\
    outbox ws1 = outbox ws ++ [frame2] /\ jobs ws1 = jobs ws /\
    Engine.state_of r (Loop.drain C fuel (Rpcjs.incoming C frame2 wc1).1) = Some (Rejected e') /\
    vget e' "message" = Some (VStr "NoSuchMethod") /\
    vget e' "method" = Some method /\
    vget e' "params" = Some (VArr params) /\
    vget e' "remote" = Some (VBool true).
Proof.
  intros HC HS Hjc Hfresh Hm _ Hfuel.
  destruct (call_queued C options method params wc HC Hjc Hfresh)
    as (q & t & r & wc1 & Hcall & Haw & Hob).
  pose proof (missing_method_served Sv ws (VStr (next_id C wc)) method params HS Hm) as Hin.
  destruct (error_round_trip (VStr "NoSuchMethod") (VStr "Error: NoSuchMethod")
              [("method", method); ("params", VArr params)])
    as (_ & Hfields & Hremote);
    [discriminate | apply (bool_decide_unpack _); by vm_compute | reflexivity | reflexivity |].
  eexists r, wc1, _, _, _, _. split; [exact Hcall|]. split; [exact Hob|].
  split; [exact Hin|]. split; [reflexivity|]. split; [reflexivity|].
  destruct (first_result_settles C _ q t r wc1
              (error_frame (VStr (next_id C wc)) (no_such_method method (VArr params)))
              (VStr (next_id C wc)) Haw)
    as (wc2 & Hin2 & Hd); [split; reflexivity | reflexivity |].
  rewrite Hin2. destruct (Hd fuel Hfuel) as (Hst & _).
  split; [exact Hst|].
  split; [by rewrite Hfields|]. split; [by rewrite Hfields|]. split; [by rewrite Hfields|].
  by apply Hremote.
Qed.

Lemma missing_method_reaches_caller_witness :
  let C := test_env "client" in
  let Sv := test_env "server" in
  exists r wc1 frame1 ws1 frame2 e',
    Rpcjs.call C None (VStr "notDefined") [] empty_world = (wc1, Ok r) /\
    outbox wc1 = outbox empty_world ++ [frame1] /\
    Rpcjs.incoming Sv frame1 empty_world = (ws1, Ok VUndef) /\
    outbox ws1 = outbox empty_world ++ [frame2] /\ jobs ws1 = jobs empty_world /\
    Engine.state_of r (Loop.drain C 3 (Rpcjs.incoming C frame2 wc1).1) = Some (Rejected e') /\
    vget e' "message" = Some (VStr "NoSuchMethod") /\
    vget e' "method" = Some (VStr "notDefined") /\
    vget e' "params" = Some (VArr []) /\
    vget e' "remote" = Some (VBool true).
Proof.
  intros C Sv.
  apply (missing_method_reaches_caller C Sv empty_world empty_world None (VStr "notDefined") [] 3).
  - reflexivity.
  - reflexivity.
  - reflexivity.
  - reflexivity.
  - reflexivity.
  - reflexivity.
  - lia.
Defined.

(** * The pair at its edges *)




(** X7: when the send function throws, [call] does not: it returns a
    promise that rejects with what was thrown; the error sink is not
    called, and the waiter of the result stays registered. *)
Theorem call_rejects_when_send_throws E e options method params w fuel :
  send_throws E e -> jobs w = [] ->
  Engine.listeners Engine.LocalListeners ("result:" +:+ next_id E w) w = [] ->
  (1 <= fuel)%nat ->
  exists q r w1,
    Rpcjs.call E options method params w = (w1, Ok r) /\
    Engine.state_of r (Loop.drain E fuel w1) = Some (Rejected e) /\
    trace (Loop.drain E fuel w1)
    = trace w ++ [EvSend (call_frame (VStr (next_id E w)) method params)] /\
    Engine.listeners Engine.LocalListeners ("result:" +:+ next_id E w) (Loop.drain E fuel w1)
    = [LResolve q] /\
    Engine.state_of q (Loop.drain E fuel w1) = Some Pending /\
    timers (Loop.drain E fuel w1) = timers w.
Proof.
  intros HE Hj Hfresh Hfuel. unfold call_frame, next_id in *.
  destruct w as [ps js ts nw oid ms ll acts regs prx ex ob tr].
  cbn [jobs] in Hj. subst js. cbn [outgoingId] in *.
  unfold Engine.listeners in Hfresh. cbn [Engine.table localListeners] in Hfresh.
  unfold Rpcjs.call, Rpcjs.createNextOutgoingId, Rpcjs.acknowledgedWrite, Rpcjs.resultEvent,
    Rpcjs.read, Engine.eventToPromise, Rpcjs.call_send.
  cbn -[String.append pretty send Loop.drain Engine.then_].
  rewrite Hfresh. rewrite HE.
  cbn -[String.append pretty Loop.drain Engine.then_].
  unfold Engine.then_, Engine.subscribe, Engine.ctor_of.
  cbn -[String.append pretty Loop.drain]. store. cbn -[String.append pretty Loop.drain].
  store. cbn -[String.append pretty Loop.drain].
  eexists (length ps), _, _. split; [reflexivity|].
  destruct fuel as [|fuel]; [lia|].
  erewrite drain_step by reflexivity.
  unfold Loop.run_job, Loop.run_cont. cbn -[String.append pretty Loop.drain].
  unfold Engine.settle. cbn -[String.append pretty Loop.drain]. store.
  cbn -[String.append pretty Loop.drain].
  rewrite drain_idle by reflexivity.
  unfold Engine.state_of, Engine.listeners. cbn -[String.append pretty]. store.
  rewrite lookup_insert_eq. repeat split; reflexivity.
Qed.

Lemma call_rejects_when_send_throws_witness :
  let E := Env "client" (Library 0) 500 500 (fun fn => fn) missing_send (fun _ _ => None) in
  exists q r w1,
    Rpcjs.call E None (VStr "add") [VNum 5; VNum 10] empty_world = (w1, Ok r) /\
    Engine.state_of r (Loop.drain E 1 w1) = Some (Rejected (new_error "missing send function")) /\
    trace (Loop.drain E 1 w1)
    = trace empty_world
      ++ [EvSend (call_frame (VStr (next_id E empty_world)) (VStr "add") [VNum 5; VNum 10])] /\
    Engine.listeners Engine.LocalListeners ("result:" +:+ next_id E empty_world)
      (Loop.drain E 1 w1) = [LResolve q] /\
    Engine.state_of q (Loop.drain E 1 w1) = Some Pending /\
    timers (Loop.drain E 1 w1) = timers empty_world.
Proof.
  intros E.
  apply (call_rejects_when_send_throws E (new_error "missing send function") None
           (VStr "add") [VNum 5; VNum 10] empty_world 1).
  - intros m w. reflexivity.
  - reflexivity.
  - reflexivity.
  - lia.
Defined.

(** X8: when the send function throws while the acknowledgement of a
    [notify] is written, the error goes to the error sink and
    [incoming] goes on: the listener of the event is applied all the
    same, and [incoming] returns. *)
Theorem reply_failure_goes_to_sink E e id evt data u once w :
  send_throws E e -> (forall fn, wrapEffects E fn = fn) ->
  Engine.listeners Engine.LocalListeners (to_string evt) w = [LUser u once] ->
  user E u data = None ->
  exists w1,
    Rpcjs.incoming E (notify_frame id evt data) w = (w1, Ok VUndef) /\
    trace w1 = trace w ++ [EvSend (ack id); EvError e; EvListener u data] /\
    outbox w1 = outbox w /\ promises w1 = promises w /\ jobs w1 = jobs w.
Proof.
  intros HE Hwrap Hls Hu. unfold notify_frame, Rpcjs.incoming, Rpcjs.notifyIncoming, Rpcjs.read.
  cbn -[String.append pretty send Rpcjs.deliver Rpcjs.sendResult wrapEffects to_string].
  unfold Rpcjs.sendResult, Rpcjs.write, Rpcjs.call_send, attempt, bind, modify.
  rewrite HE, Hwrap.
  unfold Rpcjs.deliver, Rpcjs.read, Engine.emit, bind, gets, ret.
  cbn -[String.append pretty to_string Engine.listeners Engine.fire].
  unfold Engine.listeners in *. cbn [Engine.table localListeners] in *.
  rewrite Hls. cbn -[String.append pretty to_string]. rewrite Hu.
  destruct once; eexists; (split; [reflexivity|]);
    cbn -[String.append pretty to_string]; rewrite <- !app_assoc; repeat split; reflexivity.
Qed.

Lemma reply_failure_goes_to_sink_witness :
  let E := Env "server" (Library 0) 500 500 (fun fn => fn) missing_send (fun _ _ => None) in
  let w := (Rpcjs.on "hi" 0%nat empty_world).1 in
  exists w1,
    Rpcjs.incoming E (notify_frame (VStr "client:1") (VStr "hi") [VNum 1]) w = (w1, Ok VUndef) /\
    trace w1 = trace w ++ [EvSend (ack (VStr "client:1"));
                           EvError (new_error "missing send function");
                           EvListener 0 [VNum 1]] /\
    outbox w1 = outbox w /\ promises w1 = promises w /\ jobs w1 = jobs w.
Proof.
  intros E w.
  apply (reply_failure_goes_to_sink E (new_error "missing send function") (VStr "client:1")
           (VStr "hi") [VNum 1] 0%nat false w).
  - intros m w0. reflexivity.
  - intros fn. reflexivity.
  - reflexivity.
  - reflexivity.
Defined.

(** X9: a call that is never answered.  The promise is pending until
    the timeout of the call has passed; then it is rejected with an
    Error whose message matches [/Timeout/] and names the id, the type
    and the duration; a result that arrives afterwards leaves it
    rejected. *)
Theorem unanswered_call_times_out E options method params w fuel :
  quiet_send E -> jobs w = [] -> timers w = [] ->
  Engine.listeners Engine.LocalListeners ("result:" +:+ next_id E w) w = [] ->
  (3 <= fuel)%nat ->
  let tmo := default (timeout E) options in
  let e := new_error ("TimeoutWaitingForWriteAck<" +:+ next_id E w +:+ ",call,duration: "
                      +:+ pretty tmo +:+ ">") in
  exists r w1,
    Rpcjs.call E options method params w = (w1, Ok r) /\
    (forall ms, ms < tmo -> Engine.state_of r (Loop.advance E fuel ms w1) = Some Pending) /\
    (forall ms, tmo <= ms ->
       Engine.state_of r (Loop.advance E fuel ms w1) = Some (Rejected e) /\
       forall f, result_frame (VStr (next_id E w)) f ->
         Engine.state_of r (Loop.drain E fuel (Rpcjs.incoming E f (Loop.advance E fuel ms w1)).1)
         = Some (Rejected e)) /\
    matches "Timeout" (message_of e) = true.
Proof.
  intros Hquiet Hj Ht Hfresh Hfuel tmo e. subst e. unfold next_id in *.
  destruct w as [ps js ts nw oid ms0 ll acts regs prx ex ob tr].
  cbn [jobs timers] in Hj, Ht. subst js ts. cbn [outgoingId] in *.
  unfold Engine.listeners in Hfresh. cbn [Engine.table localListeners] in Hfresh.
  unfold Rpcjs.call, Rpcjs.createNextOutgoingId, Rpcjs.acknowledgedWrite, Rpcjs.resultEvent,
    Rpcjs.read, Engine.eventToPromise, Rpcjs.call_send.
  cbn -[String.append pretty send Engine.timeoutPromise Engine.then_ Z.add].
  set (X := name E +:+ ":" +:+ pretty (oid + 1)) in *.
  rewrite Hfresh.
  match goal with |- context [send E ?m ?w0] => destruct (Hquiet m w0) as (ob' & tr' & ->) end.
  step. fold tmo. timeout1. then1.
  eexists _, _. split; [reflexivity|].
  destruct fuel as [|[|[|fuel]]]; try lia.
  split; [|split].
  - intros ms Hms. unfold Loop.advance.
    rewrite run_until_step. cbn [timers now]. rewrite next_due_single. cbn [t_due].
    rewrite bool_decide_eq_false_2 by lia.
    unfold Engine.state_of. lk.
  - intros ms Hms.
    assert (Loop.advance E (S (S (S fuel))) ms
              (World (ps ++ [Promise (P E) Pending [(KForward, (length ps + 1)%nat)];
                             Promise (P E) Pending [(KHandleResult, (length ps + 2)%nat)];
                             Promise (P E) Pending []])
                 [] [Timer (nw + tmo)
                       (TReject (length ps + 1)
                          ("TimeoutWaitingForWriteAck<" +:+ X +:+ ",call,duration: "
                           +:+ pretty tmo +:+ ">"))]
                 nw (oid + 1) ms0 (<["result:" +:+ X := [LResolve (length ps)]]> ll)
                 acts regs prx ex ob' tr')
            = World (ps ++ [Promise (P E) Pending [(KForward, (length ps + 1)%nat)];
                            Promise (P E)
                              (Rejected (new_error
                                 ("TimeoutWaitingForWriteAck<" +:+ X +:+ ",call,duration: "
                                  +:+ pretty tmo +:+ ">"))) [];
                            Promise (P E)
                              (Rejected (new_error
                                 ("TimeoutWaitingForWriteAck<" +:+ X +:+ ",call,duration: "
                                  +:+ pretty tmo +:+ ">"))) []])
                [] [] (Z.max (Z.max nw (nw + tmo)) (nw + ms)) (oid + 1) ms0
                (<["result:" +:+ X := [LResolve (length ps)]]> ll)
                acts regs prx ex ob' tr') as Hadv.
    { unfold Loop.advance.
      rewrite run_until_step. cbn [timers now]. rewrite next_due_single. cbn [t_due].
      rewrite bool_decide_eq_true_2 by lia.
      cbn [t_act Loop.fire]. step. settle1.
      job1. settle1.
      rewrite drain_idle by reflexivity.
      rewrite run_until_step. cbn [timers Loop.next_due]. reflexivity. }
    match goal with |- context [Loop.advance E ?f ms ?w1] =>
      change (Loop.advance E f ms w1) with
        (Loop.advance E (S (S (S fuel))) ms
              (World (ps ++ [Promise (P E) Pending [(KForward, (length ps + 1)%nat)];
                             Promise (P E) Pending [(KHandleResult, (length ps + 2)%nat)];
                             Promise (P E) Pending []])
                 [] [Timer (nw + tmo)
                       (TReject (length ps + 1)
                          ("TimeoutWaitingForWriteAck<" +:+ X +:+ ",call,duration: "
                           +:+ pretty tmo +:+ ">"))]
                 nw (oid + 1) ms0 (<["result:" +:+ X := [LResolve (length ps)]]> ll)
                 acts regs prx ex ob' tr'))
    end.
    rewrite Hadv. split.
    + unfold Engine.state_of. lk.
    + intros f Hf. rewrite (incoming_result E f (VStr X) _ Hf).
      unfold Engine.emit, Engine.listeners. step.
      rewrite lookup_insert_eq. step. rewrite lookup_insert_eq. step.
      rewrite decide_True by reflexivity.
      settle1. job1. unfold Engine.settle. step. store. step.
      rewrite drain_idle by reflexivity.
      unfold Engine.state_of. lk.
  - reflexivity.
Qed.

(** At the client of the tests calling [neverFinish]. *)
Lemma unanswered_call_times_out_witness :
  let E := test_env "client" in
  let tmo := default (timeout E) None in
  let e := new_error ("TimeoutWaitingForWriteAck<" +:+ next_id E empty_world +:+ ",call,duration: "
                      +:+ pretty tmo +:+ ">") in
  exists r w1,
    Rpcjs.call E None (VStr "neverFinish") [] empty_world = (w1, Ok r) /\
    (forall ms, ms < tmo -> Engine.state_of r (Loop.advance E 3 ms w1) = Some Pending) /\
    (forall ms, tmo <= ms ->
       Engine.state_of r (Loop.advance E 3 ms w1) = Some (Rejected e) /\
       forall f, result_frame (VStr (next_id E empty_world)) f ->
         Engine.state_of r (Loop.drain E 3 (Rpcjs.incoming E f (Loop.advance E 3 ms w1)).1)
         = Some (Rejected e)) /\
    matches "Timeout" (message_of e) = true.
Proof.
  intros E.
  apply (unanswered_call_times_out E None (VStr "neverFinish") [] empty_world 3).
  - apply send_queue_quiet. reflexivity.
  - reflexivity.
  - reflexivity.
  - reflexivity.
  - lia.
Defined.

(** X10: [emit] and its acknowledgement.  [emit] sends a [notify] frame
    and returns a pending promise.  Any result frame that carries the
    id fulfils the promise with the frame itself, whatever the frame
    holds; with no such frame the promise is rejected once the emit
    timeout has passed, with an Error whose message matches
    [/Timeout/]. *)
Theorem emit_is_acknowledged_or_times_out E options evt data w fuel :
  send E = send_queue -> jobs w = [] -> timers w = [] ->
  Engine.listeners Engine.LocalListeners ("result:" +:+ next_id E w) w = [] ->
  (2 <= fuel)%nat ->
  let tmo := default (emitTimeout E) options in
  let e := new_error ("TimeoutWaitingForWriteAck<" +:+ next_id E w +:+ ",notify,duration: "
                      +:+ pretty tmo +:+ ">") in
  exists t w1,
    Rpcjs.emit E options evt data w = (w1, Ok t) /\
    outbox w1 = outbox w ++ [notify_frame (VStr (next_id E w)) evt data] /\
    Engine.state_of t w1 = Some Pending /\
    (forall f, result_frame (VStr (next_id E w)) f ->
       Engine.state_of t (Loop.drain E fuel (Rpcjs.incoming E f w1).1)
       = Some (Fulfilled (JData f))) /\
    (forall ms, ms < tmo -> Engine.state_of t (Loop.advance E fuel ms w1) = Some Pending) /\
    (forall ms, tmo <= ms -> Engine.state_of t (Loop.advance E fuel ms w1) = Some (Rejected e)) /\
    matches "Timeout" (message_of e) = true.
Proof.
  intros HE Hj Ht Hfresh Hfuel tmo e. subst e. unfold notify_frame, next_id in *.
  destruct w as [ps js ts nw oid ms0 ll acts regs prx ex ob tr].
  cbn [jobs timers] in Hj, Ht. subst js ts. cbn [outgoingId] in *.
  unfold Engine.listeners in Hfresh. cbn [Engine.table localListeners] in Hfresh.
  unfold Rpcjs.emit, Rpcjs.createNextOutgoingId, Rpcjs.acknowledgedWrite, Rpcjs.resultEvent,
    Rpcjs.read, Engine.eventToPromise, Rpcjs.call_send.
  rewrite HE.
  cbn -[String.append pretty Engine.timeoutPromise Z.add].
  set (X := name E +:+ ":" +:+ pretty (oid + 1)) in *.
  rewrite Hfresh. step. fold tmo. timeout1.
  eexists _, _. split; [reflexivity|]. split; [reflexivity|].
  split; [unfold Engine.state_of; lk|].
  destruct fuel as [|[|fuel]]; try lia.
  split; [|split; [|split]].
  - intros f Hf. rewrite (incoming_result E f (VStr X) _ Hf).
    unfold Engine.emit, Engine.listeners. step.
    rewrite lookup_insert_eq. step. rewrite lookup_insert_eq. step.
    rewrite decide_True by reflexivity.
    settle1. job1. settle1.
    rewrite drain_idle by reflexivity.
    unfold Engine.state_of. lk.
  - intros ms Hms. unfold Loop.advance.
    rewrite run_until_step. cbn [timers now]. rewrite next_due_single. cbn [t_due].
    rewrite bool_decide_eq_false_2 by lia.
    unfold Engine.state_of. lk.
  - intros ms Hms. unfold Loop.advance.
    rewrite run_until_step. cbn [timers now]. rewrite next_due_single. cbn [t_due].
    rewrite bool_decide_eq_true_2 by lia.
    cbn [t_act Loop.fire]. step. settle1.
    rewrite drain_idle by reflexivity.
    rewrite run_until_step. cbn [timers Loop.next_due].
    unfold Engine.state_of. lk.
  - reflexivity.
Qed.

(** At the client of the tests emitting [hi] with a timeout of 50 ms. *)
Lemma emit_is_acknowledged_or_times_out_witness :
  let E := test_env "client" in
  let tmo := default (emitTimeout E) (Some 50) in
  let e := new_error ("TimeoutWaitingForWriteAck<" +:+ next_id E empty_world
                      +:+ ",notify,duration: " +:+ pretty tmo +:+ ">") in
  exists t w1,
    Rpcjs.emit E (Some 50) (VStr "hi") [] empty_world = (w1, Ok t) /\
    outbox w1 = outbox empty_world ++ [notify_frame (VStr (next_id E empty_world)) (VStr "hi") []] /\
    Engine.state_of t w1 = Some Pending /\
    (forall f, result_frame (VStr (next_id E empty_world)) f ->
       Engine.state_of t (Loop.drain E 2 (Rpcjs.incoming E f w1).1)
       = Some (Fulfilled (JData f))) /\
    (forall ms, ms < tmo -> Engine.state_of t (Loop.advance E 2 ms w1) = Some Pending) /\
    (forall ms, tmo <= ms -> Engine.state_of t (Loop.advance E 2 ms w1) = Some (Rejected e)) /\
    matches "Timeout" (message_of e) = true.
Proof.
  intros E.
  apply (emit_is_acknowledged_or_times_out E (Some 50) (VStr "hi") [] empty_world 2).
  - reflexivity.
  - reflexivity.
  - reflexivity.
  - reflexivity.
  - lia.
Defined.

(** * The registry at work *)










Lemma non_null_object_typeof a : non_null_object a = true -> typeof_js a = "object".
Proof. destruct a as [[]| | | |]; try discriminate; reflexivity. Qed.

Lemma non_null_object_on a :
  non_null_object a = true -> jget a "on" = Some (default (FData VUndef) (jget a "on")).
Proof. destruct a as [[]| | | |]; try discriminate; reflexivity. Qed.

Lemma jget_wrap_emit k id a key :
  key <> "emit" -> jget (Actors.wrap_emit k id a) key = jget a key.
Proof.
  intros Hne. destruct a as [v| | | |o]; try reflexivity.
  cbn [Actors.wrap_emit jget]. by rewrite assoc_assign_ne.
Qed.

Lemma add_listener_internal ev l w :
  internal l = true -> registrations_internal w ->
  registrations_internal (Engine.add_listener Engine.ActorRegistrations ev l w).
Proof.
  intros Hl Hint ev'. specialize (Hint ev'). unfold Engine.listeners in *.
  cbn [Engine.add_listener Engine.set_table Engine.table set_actorRegistrations
       actorRegistrations] in *.
  destruct (decide (ev = ev')) as [<-|Hne].
  - rewrite lookup_insert_eq. change (default [] (Some ?x)) with x.
    rewrite forallb_app, Hint. cbn. by rewrite Hl.
  - by rewrite lookup_insert_ne.
Qed.

(** X15: [exposeActor] binds a free id (other than the names of
    [Object.prototype], which [actors[id]] finds) to a non-null
    object: afterwards the id is bound to that object (but for its
    [emit], which may be instrumented); every other id is bound, free
    or expired as it was and reads as before on every field but
    [emit] (the one field the exposure writes, on the object itself,
    which may sit in another slot too); and a second [exposeActor] of
    the same id throws [duplicate actor id] and changes nothing. *)
Theorem exposeActor_binds_once E id a b w :
  non_null_object a = true -> inherited id = false -> bound id w = false ->
  registrations_internal w ->
  exists w1,
    Actors.exposeActor E id a w = (w1, Ok tt) /\
    bound id w1 = true /\
    (forall key, key <> "emit" -> jget (Actors.slot id w1) key = jget a key) /\
    (forall id', id' <> id ->
       bound id' w1 = bound id' w /\
       (expired id' w1 <-> expired id' w) /\
       forall key, key <> "emit" ->
         jget (Actors.slot id' w1) key = jget (Actors.slot id' w) key) /\
    (typeof_js b = "object" ->
     Actors.exposeActor E id b w1
     = (w1, Throw (new_error ("duplicate actor id: " +:+ id)))).
Proof.
  intros Ha _ Hb Hint.
  assert (exists w0,
    (bind (modify (set_actors (fun m => <[id := a]> m)))
          (fun _ => Actors.exposeActorEvents id a)) w = (w0, Ok tt) /\
    registrations_internal w0 /\
    (Actors.slot id w0 = a \/ exists k, Actors.slot id w0 = Actors.wrap_emit k id a) /\
    (forall id', id' <> id -> Actors.slot id' w0 = Actors.slot id' w)) as (w0 & Hw0 & Hint0 & Hs0 & Ho0).
  { unfold Actors.exposeActorEvents, bind, modify. rewrite (non_null_object_on a Ha).
    destruct (is_function (default (FData VUndef) (jget a "on"))).
    - eexists. split; [reflexivity|]. split; [|split].
      + apply add_listener_internal; [reflexivity|]. exact Hint.
      + right. eexists. unfold Actors.slot. cbn. rewrite lookup_insert_eq. reflexivity.
      + intros id' Hne. unfold Actors.slot. cbn. by rewrite !lookup_insert_ne.
    - eexists. split; [reflexivity|]. split; [exact Hint|]. split.
      + left. unfold Actors.slot. cbn. by rewrite lookup_insert_eq.
      + intros id' Hne. unfold Actors.slot. cbn. by rewrite lookup_insert_ne. }
  destruct (registry_emit_ok E ("register:" +:+ id) [] w0 Hint0 eq_refl)
    as (x & w1 & Hemit & Hacts).
  assert (Actors.exposeActor E id a w = (w1, Ok tt)) as Hexp.
  { unfold Actors.exposeActor. rewrite (non_null_object_typeof a Ha).
    change (negb (String.eqb "object" "object")) with false. cbv beta iota.
    unfold bound in Hb. unfold bind at 1, gets at 1. cbv beta iota. rewrite Hb.
    unfold bind, modify in Hw0. unfold bind, modify. rewrite Hw0, Hemit. reflexivity. }
  assert (forall id', Actors.slot id' w1 = Actors.slot id' w0) as Hsame.
  { intros id'. unfold Actors.slot. by rewrite Hacts. }
  assert (bound id w1 = true) as Hb1.
  { unfold bound. rewrite Hsame.
    destruct Hs0 as [-> | [k ->]]; destruct a as [[]| | | |]; try discriminate; reflexivity. }
  exists w1. split; [exact Hexp|]. split; [exact Hb1|]. split; [|split].
  - intros key Hkey. rewrite Hsame.
    destruct Hs0 as [-> | [k ->]]; [reflexivity | by apply jget_wrap_emit].
  - intros id' Hne. unfold bound, expired. rewrite Hsame, (Ho0 id' Hne). done.
  - intros Hty. by apply exposeActor_duplicate.
Qed.

Lemma exposeActor_binds_once_witness :
  let E := test_env "server" in
  let a := JObject [("value", FData (VNum 0)); ("increment", FMethod (fun _ => Returns (VNum 1)))] in
  exists w1,
    Actors.exposeActor E "incrementer-1" a empty_world = (w1, Ok tt) /\
    bound "incrementer-1" w1 = true /\
    (forall key, key <> "emit" -> jget (Actors.slot "incrementer-1" w1) key = jget a key) /\
    (forall id', id' <> "incrementer-1" ->
       bound id' w1 = bound id' empty_world /\
       (expired id' w1 <-> expired id' empty_world) /\
       forall key, key <> "emit" ->
         jget (Actors.slot id' w1) key = jget (Actors.slot id' empty_world) key) /\
    (typeof_js a = "object" ->
     Actors.exposeActor E "incrementer-1" a w1
     = (w1, Throw (new_error ("duplicate actor id: " +:+ "incrementer-1")))).
Proof.
  intros E a. apply (exposeActor_binds_once E "incrementer-1" a a empty_world).
  - reflexivity.
  - reflexivity.
  - reflexivity.
  - intros ev. reflexivity.
Defined.

(** X16: the events of an actor.  When an actor with an [on] function is
    exposed under a free id, in a registry that is exposed on a node,
    its [emit] is instrumented: applied to [name, ...args] it sends
    the peer a [notify] frame for the event [remote:<id>:<name>] with
    [args], and then applies the actor's own [emit]: what that throws,
    the instrumented [emit] throws, after the frame was sent; what it
    returns is dropped.  Once the id is expired the instrumented
    [emit] sends nothing any more; the actor's own [emit] is still
    applied. *)
Theorem actor_events_are_forwarded_until_expiry E id o own args x w :
  send E = send_queue ->
  exposed w = true ->
  inherited id = false -> bound id w = false ->
  Engine.listeners Engine.ActorRegistrations ("register:" +:+ id) w = [] ->
  Engine.listeners Engine.ActorRegistrations ("deregister:" +:+ id) w = [] ->
  is_function (default (FData VUndef) (assoc "on" o)) = true ->
  assoc "emit" o = Some (FMethod own) ->
  own args = Returns x \/ own args = Throws x ->
  exists w1 fld w2 w3,
    Actors.exposeActor E id (JObject o) w = (w1, Ok tt) /\
    jget (Actors.slot id w1) "emit" = Some fld /\
    Actors.apply_field (node_emit E) fld args w1
    = (w2, match own args with
           | Throws e => Throw e
           | _ => Ok (Helpers.RValue VUndef)
           end) /\
    outbox w2
    = outbox w1 ++ [notify_frame (VStr (next_id E w1))
                      (VStr ("remote:" +:+ id +:+ ":" +:+ to_string (default VUndef (head args))))
                      (tail args)] /\
    Actors.expireActor E id w1 = (w3, Ok tt) /\
    Actors.apply_field (node_emit E) fld args w3
    = (w3, match own args with
           | Throws e => Throw e
           | _ => Ok (Helpers.RValue VUndef)
           end).
Proof.
  intros HE _ _ Hb Hreg Hdereg Hon Hemit Hown.
  destruct w as [ps js ts nw oid ms0 ll acts regs prx ex ob tr].
  unfold bound, Actors.slot in Hb. cbn [actors] in Hb.
  unfold Engine.listeners in Hreg, Hdereg. cbn [Engine.table actorRegistrations] in Hreg, Hdereg.
  unfold Actors.exposeActor, Actors.slot. step. rewrite Hb. step.
  unfold Actors.exposeActorEvents. cbn [jget]. rewrite Hon. step.
  unfold Engine.emit, Engine.listeners. step.
  rewrite lookup_insert_ne by (intros H; apply (f_equal (fun s => String.get 0 s)) in H; discriminate H).
  rewrite Hreg. step. rewrite Hdereg. cbn [app].
  eexists _, _, _, _. split; [reflexivity|].
  unfold Actors.slot. step. rewrite lookup_insert_eq. cbn [default from_option Datatypes.id jget].
  rewrite assoc_assign_eq. rewrite Hemit. unfold Datatypes.id. cbn [default from_option].
  unfold Datatypes.id.
  split; [reflexivity|].
  assert ((prx ++ [true]) !! length prx = Some true) as Hk
    by (apply list_lookup_middle; reflexivity).
  split; [|split; [|split]].
  - cbn [Actors.apply_field]. unfold bind at 1, gets at 1. cbv beta iota.
    cbn [proxies]. rewrite Hk. cbn [default from_option Datatypes.id].
    unfold Actors.fireEvents, node_emit, Actors.actorEventName, Rpcjs.emit,
      Rpcjs.createNextOutgoingId, Rpcjs.acknowledgedWrite, Rpcjs.resultEvent, Rpcjs.read,
      Engine.eventToPromise, Rpcjs.call_send.
    rewrite HE.
    cbn -[String.append pretty to_string Engine.timeoutPromise Z.add].
    timeout1. destruct Hown as [Hown|Hown]; rewrite Hown; step; reflexivity.
  - reflexivity.
  - unfold Actors.expireActor, Engine.emit, Engine.listeners. step.
    rewrite lookup_insert_eq. step. rewrite lookup_insert_eq. step.
    rewrite decide_True by reflexivity. step. reflexivity.
  - cbn [Actors.apply_field]. unfold bind at 1, gets at 1. cbv beta iota.
    cbn [proxies]. rewrite list_lookup_insert_eq by (rewrite length_app; cbn; lia).
    cbn [default]. step. destruct Hown as [Hown|Hown]; rewrite Hown; step; reflexivity.
Qed.

(** At an emitter exposed as [incrementer-1] whose own [emit] throws
    when there is no listener, and that emits [blah]. *)
Lemma actor_events_are_forwarded_until_expiry_witness :
  let E := test_env "server" in
  let own := fun _ : list val => Throws (new_error "no listener") in
  let o := [("value", FData (VNum 0));
            ("on", FMethod (fun _ => Returns VUndef));
            ("emit", FMethod own)] in
  let w := run E [DoExposeRegistry] empty_world in
  let args := [VStr "blah"; VObj [("value", VNum 15)]; VNum 2] in
  exists w1 fld w2 w3,
    Actors.exposeActor E "incrementer-1" (JObject o) w = (w1, Ok tt) /\
    jget (Actors.slot "incrementer-1" w1) "emit" = Some fld /\
    Actors.apply_field (node_emit E) fld args w1
    = (w2, match own args with
           | Throws e => Throw e
           | _ => Ok (Helpers.RValue VUndef)
           end) /\
    outbox w2
    = outbox w1 ++ [notify_frame (VStr (next_id E w1))
                      (VStr ("remote:" +:+ "incrementer-1" +:+ ":"
                             +:+ to_string (default VUndef (head args))))
                      (tail args)] /\
    Actors.expireActor E "incrementer-1" w1 = (w3, Ok tt) /\
    Actors.apply_field (node_emit E) fld args w3
    = (w3, match own args with
           | Throws e => Throw e
           | _ => Ok (Helpers.RValue VUndef)
           end).
Proof.
  intros E own o w args.
  apply (actor_events_are_forwarded_until_expiry E "incrementer-1" o own args
           (new_error "no listener") w).
  - reflexivity.
  - reflexivity.
  - reflexivity.
  - reflexivity.
  - reflexivity.
  - reflexivity.
  - reflexivity.
  - reflexivity.
  - right. reflexivity.
Defined.

(** The same actor, run: the frame leaves and the own [emit] throws;
    after expiry the own [emit] throws and nothing leaves. *)
Example emit_of_exposed_actor :
  let E := test_env "server" in
  let own := fun _ : list val => Throws (new_error "no listener") in
  let o := [("on", FMethod (fun _ => Returns VUndef)); ("emit", FMethod own)] in
  let w1 := run E [DoExposeRegistry; DoExposeActor "incrementer-1" (JObject o)] empty_world in
  let w3 := run E [DoExpireActor "incrementer-1"] w1 in
  let fld := default (FData VUndef) (assoc "emit" (match Actors.slot "incrementer-1" w1 with
                                                    | JObject o' => o'
                                                    | _ => []
                                                    end)) in
  let live := Actors.apply_field (node_emit E) fld [VStr "blah"; VNum 15] w1 in
  let dead := Actors.apply_field (node_emit E) fld [VStr "blah"; VNum 15] w3 in
  live.2 = Throw (new_error "no listener") /\
  outbox live.1 = [notify_frame (VStr "server:1") (VStr "remote:incrementer-1:blah") [VNum 15]] /\
  dead.2 = Throw (new_error "no listener") /\
  outbox dead.1 = [].
Proof. vm_compute. repeat split. Qed.

Lemma reply_sent Sv rid s w d c :
  send Sv = send_queue -> answered s = true ->
  promises w !! d = Some (Promise c Pending []) ->
  exists w',
    Loop.run_job Sv (Job (KReply rid) d s) w = (w', Ok tt) /\
    w' = set_promises (fun ps => <[d := Promise c (Fulfilled (JData VUndef)) []]> ps)
           (set_outbox (fun o => o ++ [reply_frame rid s])
              (set_trace (fun t => t ++ [EvSend (reply_frame rid s)]) w)).
Proof.
  intros HS Hans Hd. unfold Loop.run_job, Loop.run_cont, j_cont, j_state, j_target, attempt, bind.
  destruct s as [|x|e]; [discriminate| |].
  - unfold Rpcjs.sendResult, Rpcjs.write, Rpcjs.call_send, attempt, bind, modify. rewrite HS.
    eexists. split; [|reflexivity]. cbn -[String.append]. unfold Engine.settle.
    cbn -[String.append]. rewrite Hd. cbn -[String.append]. rewrite app_nil_r. reflexivity.
  - cbn [answered] in Hans. apply negb_true_iff in Hans.
    rewrite (sendError_frame Sv rid e w HS Hans).
    eexists. split; [|reflexivity]. cbn -[String.append error_frame]. unfold Engine.settle.
    cbn -[String.append error_frame]. rewrite Hd. cbn -[String.append error_frame].
    rewrite app_nil_r. reflexivity.
Qed.


(** The server's half of a call of an exposed method. *)
Lemma handler_served Sv ws id method params h s fuel :
  send Sv = send_queue -> jobs ws = [] ->
  methods ws !! to_string method = Some (HUser h) ->
  settles_as (h params) s -> answered s = true -> (1 <= fuel)%nat ->
  exists ws1,
    Rpcjs.incoming Sv (call_frame id method params) ws = (ws1, Ok VUndef) /\
    outbox ws1 = outbox ws /\
    outbox (Loop.drain Sv fuel ws1) = outbox ws ++ [reply_frame id s].
Proof.
  intros HS Hj Hm Hs Hans Hfuel. unfold call_frame.
  destruct ws as [ps js ts nw oid ms ll acts regs prx ex ob tr].
  cbn [jobs methods] in Hj, Hm. subst js.
  unfold Rpcjs.incoming, Rpcjs.callIncoming, Rpcjs.read.
  cbn -[String.append pretty Helpers.runEnsuringPromise Engine.then_ to_string Loop.drain].
  rewrite Hm.
  unfold Helpers.runEnsuringPromise, Rpcjs.apply_handler.
  unfold settles_as in Hs.
  destruct fuel as [|fuel]; [lia|].
  destruct (h params) as [v|e|c [[v|e]|ms1 s1|]] eqn:Hh; try contradiction;
    [destruct Hs as [Hthen ->]; unfold thenless in Hthen; apply negb_true_iff in Hthen
    | subst s | subst s | subst s];
    step; rewrite Hh; step; rewrite ?Hthen; step; then1;
    (eexists; split; [reflexivity|]; split; [reflexivity|]);
    erewrite drain_step by reflexivity;
    match goal with |- context [Loop.run_job Sv (Job (KReply id) ?d ?s) ?w] =>
      edestruct (reply_sent Sv id s w d) as (w' & Hrun & Hw'); [exact HS|exact Hans|lk|];
      rewrite Hrun, Hw'
    end;
    cbn -[String.append pretty Loop.drain reply_frame]; rewrite drain_idle by reflexivity;
    reflexivity.
Qed.

(** X17: a call from end to end.  The client calls a method the server
    has exposed, the two frames cross, each side drains its queue: the
    client's promise is fulfilled with the value the handler returned
    or resolved with, [null] when that value is falsy. *)
Theorem call_round_trip C Sv wc ws options method params h v fuel :
  send C = send_queue -> send Sv = send_queue ->
  jobs wc = [] ->
  Engine.listeners Engine.LocalListeners ("result:" +:+ next_id C wc) wc = [] ->
  jobs ws = [] -> methods ws !! to_string method = Some (HUser h) ->
  settles_as (h params) (Fulfilled (JData v)) ->
  (3 <= fuel)%nat ->
  exists r wc1 frame1 frame2,
    Rpcjs.call C options method params wc = (wc1, Ok r) /\
    outbox wc1 = outbox wc ++ [frame1] /\
    outbox (Loop.drain Sv fuel (Rpcjs.incoming Sv frame1 ws).1) = outbox ws ++ [frame2] /\
    Engine.state_of r (Loop.drain C fuel (Rpcjs.incoming C frame2 wc1).1)
    = Some (Fulfilled (JData (js_or v VNull))).
Proof.
  intros HC HS Hjc Hfresh Hjs Hm Hs Hfuel.
  destruct (call_queued C options method params wc HC Hjc Hfresh)
    as (q & t & r & wc1 & Hcall & Haw & Hob).
  destruct (handler_served Sv ws (VStr (next_id C wc)) method params h _ fuel
              HS Hjs Hm Hs eq_refl) as (ws1 & Hin & _ & Hob'); [lia|].
  eexists r, wc1, _, _. split; [exact Hcall|]. split; [exact Hob|].
  rewrite Hin. split; [exact Hob'|].
  destruct (first_result_settles C _ q t r wc1
              (reply_frame (VStr (next_id C wc)) (Fulfilled (JData v)))
              (VStr (next_id C wc)) Haw)
    as (wc2 & Hin2 & Hd); [split; reflexivity | reflexivity |].
  rewrite Hin2. destruct (Hd fuel Hfuel) as (Hst & _). exact Hst.
Qed.

(** At [add(10, 5)] of the tests. *)
Lemma call_round_trip_witness :
  let C := test_env "client" in
  let Sv := test_env "server" in
  let add := fun args : list val =>
               match args with
               | [VNum a; VNum b] => Returns (VNum (a + b))
               | _ => Returns VUndef
               end in
  let ws := (Rpcjs.expose "add" (HUser add) empty_world).1 in
  exists r wc1 frame1 frame2,
    Rpcjs.call C None (VStr "add") [VNum 10; VNum 5] empty_world = (wc1, Ok r) /\
    outbox wc1 = outbox empty_world ++ [frame1] /\
    outbox (Loop.drain Sv 3 (Rpcjs.incoming Sv frame1 ws).1) = outbox ws ++ [frame2] /\
    Engine.state_of r (Loop.drain C 3 (Rpcjs.incoming C frame2 wc1).1)
    = Some (Fulfilled (JData (js_or (VNum 15) VNull))).
Proof.
  intros C Sv add ws.
  apply (call_round_trip C Sv empty_world ws None (VStr "add") [VNum 10; VNum 5] add (VNum 15) 3).
  - reflexivity.
  - reflexivity.
  - reflexivity.
  - reflexivity.
  - reflexivity.
  - reflexivity.
  - split; reflexivity.
  - lia.
Defined.








(** ** Scoped event names *)

Lemma append_length a b : String.length (a +:+ b) = (String.length a + String.length b)%nat.
Proof. induction a as [|c a IH]; [reflexivity|]. simpl. by rewrite IH. Qed.

Lemma actorEventName_longer id name : Actors.actorEventName id name <> name.
Proof.
  intros H. apply (f_equal String.length) in H. unfold Actors.actorEventName in H.
  rewrite !append_length in H. cbn in H. lia.
Qed.


Lemma colon_splits id1 : forall id2 n1 n2,
  has_colon id1 = false -> has_colon id2 = false ->
  id1 +:+ ":" +:+ n1 = id2 +:+ ":" +:+ n2 -> id1 = id2 /\ n1 = n2.
Proof.
  induction id1 as [|c id1 IH]; intros [|c2 id2] n1 n2 H1 H2 Heq; cbn in *.
  - by injection Heq.
  - injection Heq as <- _. apply orb_false_iff in H2 as [H2 _]. discriminate.
  - injection Heq as -> _. apply orb_false_iff in H1 as [H1 _]. discriminate.
  - injection Heq as <- Heq. apply orb_false_iff in H1 as [_ H1].
    apply orb_false_iff in H2 as [_ H2].
    destruct (IH id2 n1 n2 H1 H2 Heq) as [-> ->]. done.
Qed.

(** X21: the scoped name of an actor event tells the actor and the event
    apart, as long as the ids hold no colon. *)
Theorem actorEventName_unambiguous id1 id2 n1 n2 :
  has_colon id1 = false -> has_colon id2 = false ->
  Actors.actorEventName id1 n1 = Actors.actorEventName id2 n2 ->
  id1 = id2 /\ n1 = n2.
Proof.
  intros H1 H2 Heq. unfold Actors.actorEventName in Heq.
  apply (colon_splits id1 id2 n1 n2 H1 H2).
  cbn in Heq. by simplify_eq.
Qed.

Lemma actorEventName_unambiguous_witness :
  has_colon "incrementer-1" = false /\
  ("incrementer-1" = "incrementer-1" /\ "blah" = "blah").
Proof.
  split; [reflexivity|].
  apply (actorEventName_unambiguous "incrementer-1" "incrementer-1" "blah" "blah");
    reflexivity.
Defined.

(** With a colon in an id two actors can share a scoped name. *)
Example actorEventName_collision :
  Actors.actorEventName "a:b" "c" = Actors.actorEventName "a" "b:c".
Proof. reflexivity. Qed.

(** X22: event scoping at the subscriber.  With one listener subscribed
    through [RemoteActor.on] and one through [pair.on] to the same
    event name, a notification of the actor's event reaches the first
    only, and a plain notification of that name the second only; both
    are acknowledged first. *)
Theorem actor_events_are_scoped E id name u u' rid data w :
  send E = send_queue -> (forall fn, wrapEffects E fn = fn) ->
  Engine.listeners Engine.LocalListeners name w = [] ->
  Engine.listeners Engine.LocalListeners (Actors.actorEventName id name) w = [] ->
  user E u data = None -> user E u' data = None ->
  let w0 := (Rpcjs.on name u' (Remote.on id name u w).1).1 in
  exists w1 w2,
    Rpcjs.incoming E (notify_frame rid (VStr (Actors.actorEventName id name)) data) w0
    = (w1, Ok VUndef) /\
    trace w1 = trace w ++ [EvSend (ack rid); EvListener u data] /\
    Rpcjs.incoming E (notify_frame rid (VStr name) data) w0 = (w2, Ok VUndef) /\
    trace w2 = trace w ++ [EvSend (ack rid); EvListener u' data].
Proof.
  intros HE Hwrap Hplain Hscoped Hu Hu' w0. subst w0.
  pose proof (actorEventName_longer id name) as Hne.
  set (scoped := Actors.actorEventName id name) in *.
  destruct w as [ps js ts nw oid ms ll acts regs prx ex ob tr].
  unfold Engine.listeners in Hplain, Hscoped. cbn [Engine.table localListeners] in *.
  unfold Remote.on, Rpcjs.on. fold scoped.
  cbn -[String.append scoped].
  rewrite Hscoped. rewrite lookup_insert_ne by exact Hne. rewrite Hplain. cbn [app].
  unfold notify_frame, Rpcjs.incoming, Rpcjs.notifyIncoming, Rpcjs.read,
    Rpcjs.sendResult, Rpcjs.write, Rpcjs.call_send.
  cbn -[String.append scoped wrapEffects Rpcjs.deliver send].
  rewrite HE, !Hwrap.
  unfold Rpcjs.deliver, Rpcjs.read, Engine.emit, Engine.listeners.
  cbn -[String.append scoped].
  rewrite lookup_insert_eq.
  rewrite lookup_insert_ne by (intros H; apply Hne; symmetry; exact H).
  rewrite lookup_insert_eq.
  cbn -[String.append scoped]. rewrite Hu, Hu'.
  eexists _, _. repeat split; cbn; by rewrite <- app_assoc.
Qed.

(** At the event [emittedActor] of the tests. *)
Lemma actor_events_are_scoped_witness :
  let E := test_env "client" in
  let w0 := (Rpcjs.on "emittedActor" 1%nat
               (Remote.on "incrementer-1" "emittedActor" 0%nat empty_world).1).1 in
  exists w1 w2,
    Rpcjs.incoming E (notify_frame (VStr "server:1")
                        (VStr (Actors.actorEventName "incrementer-1" "emittedActor")) []) w0
    = (w1, Ok VUndef) /\
    trace w1 = trace empty_world ++ [EvSend (ack (VStr "server:1")); EvListener 0 []] /\
    Rpcjs.incoming E (notify_frame (VStr "server:1") (VStr "emittedActor") []) w0
    = (w2, Ok VUndef) /\
    trace w2 = trace empty_world ++ [EvSend (ack (VStr "server:1")); EvListener 1 []].
Proof.
  intros E.
  apply (actor_events_are_scoped E "incrementer-1" "emittedActor" 0%nat 1%nat (VStr "server:1")
           [] empty_world).
  - reflexivity.
  - intros fn. reflexivity.
  - reflexivity.
  - reflexivity.
  - reflexivity.
  - reflexivity.
Defined.

(** * Exposing an object of handlers *)

Lemma fold_expose entries : forall (acc : M (option unit)) w w0 r0,
  acc w = (w0, Ok r0) ->
  fold_left (fun acc kv => do! acc in mapM Some (Rpcjs.expose kv.1 kv.2)) entries acc w
  = (set_methods (fun m => fold_left (fun m kv => <[kv.1 := kv.2]> m) entries m) w0,
     Ok (match entries with [] => r0 | _ => Some tt end)).
Proof.
  induction entries as [|[k h] entries IH]; intros acc w w0 r0 Hacc; cbn [fold_left fst snd].
  - rewrite Hacc. by destruct w0.
  - erewrite (IH _ w (set_methods (fun m => <[k := h]> m) w0) (Some tt)).
    + destruct entries; reflexivity.
    + unfold bind, mapM, Rpcjs.expose, modify. rewrite Hacc. reflexivity.
Qed.

Lemma fold_insert_lookup (entries : list (string * handler)) : forall (m : gmap string handler) k,
  NoDup (map fst entries) ->
  fold_left (fun m kv => <[kv.1 := kv.2]> m) entries m !! k
  = match assoc k entries with Some h => Some h | None => m !! k end.
Proof.
  induction entries as [|[k0 h0] entries IH]; intros m k Hnd; cbn [fold_left fst snd assoc].
  - reflexivity.
  - cbn [map fst] in Hnd. apply NoDup_cons in Hnd as [Hk0 Hnd]. rewrite (IH _ _ Hnd).
    destruct (String.eqb_spec k k0) as [->|Hne].
    + assert (assoc k0 entries = None) as ->.
      { clear -Hk0. induction entries as [|[k1 h1] entries IH]; cbn; [reflexivity|].
        cbn in Hk0. apply not_elem_of_cons in Hk0 as [Hne Hk0].
        destruct (String.eqb_spec k0 k1); [done|by apply IH]. }
      apply lookup_insert_eq.
    + destruct (assoc k entries); [reflexivity|]. by apply lookup_insert_ne.
Qed.

(** X23: [expose] of an object of handlers, none of them named
    [__proto__], registers every entry: each name of the object then
    answers with its handler, every other name is as before, and
    nothing but the table of methods changes. *)
Theorem expose_object_registers entries w :
  NoDup (map fst entries) -> "__proto__" ∉ map fst entries ->
  exists w',
    expose_any (Decorators.ObjectOf entries) w
    = (w', Ok (match entries with [] => None | _ => Some tt end)) /\
    (forall k, methods w' !! k
               = match assoc k entries with Some h => Some h | None => methods w !! k end) /\
    w' = set_methods (fun _ => methods w') w.
Proof.
  intros Hnd _. unfold expose_any, Decorators.keyValueOrObject.
  rewrite (fold_expose entries (ret None) w w None eq_refl).
  eexists. split; [reflexivity|]. split; [|reflexivity].
  intros k. cbn [methods set_methods]. by apply fold_insert_lookup.
Qed.

(** At the object of handlers of the tests, cut to two. *)
Lemma expose_object_registers_witness :
  let add := HUser (fun _ => Returns (VNum 15)) in
  let throws := HUser (fun _ => Throws (new_error "threw")) in
  let entries := [("add", add); ("throws", throws)] in
  exists w',
    expose_any (Decorators.ObjectOf entries) empty_world
    = (w', Ok (match entries with [] => None | _ => Some tt end)) /\
    (forall k, methods w' !! k
               = match assoc k entries with
                 | Some h => Some h
                 | None => methods empty_world !! k
                 end) /\
    w' = set_methods (fun _ => methods w') empty_world.
Proof.
  intros add throws entries.
  apply (expose_object_registers entries empty_world).
  - apply (bool_decide_unpack _). by vm_compute.
  - apply (bool_decide_unpack _). by vm_compute.
Defined.

(** * The stream transport: framing *)

Lemma split_nonempty s : StreamTransport.split s <> [].
Proof.
  destruct s as [|c s]; cbn [StreamTransport.split]; [discriminate|].
  repeat case_match; discriminate.
Qed.

Lemma split_cons c s :
  StreamTransport.split (String c s)
  = if Ascii.eqb c StreamTransport.newline then EmptyString :: StreamTransport.split s
    else String c (hd EmptyString (StreamTransport.split s)) :: tl (StreamTransport.split s).
Proof.
  cbn [StreamTransport.split]. destruct (Ascii.eqb c StreamTransport.newline); [reflexivity|].
  destruct (StreamTransport.split s) eqn:H; [by apply split_nonempty in H|reflexivity].
Qed.

Lemma complete_cons c s :
  complete (String c s)
  = if Ascii.eqb c StreamTransport.newline then EmptyString :: complete s
    else match complete s with
         | [] => []
         | l :: ls => String c l :: ls
         end.
Proof.
  unfold complete. rewrite split_cons.
  destruct (StreamTransport.split s) as [|l ls] eqn:H; [by apply split_nonempty in H|].
  destruct (Ascii.eqb c StreamTransport.newline); [reflexivity|].
  cbn [hd tl]. destruct ls; reflexivity.
Qed.

Lemma partial_cons c s :
  partial (String c s)
  = if Ascii.eqb c StreamTransport.newline then partial s
    else match complete s with
         | [] => String c (partial s)
         | _ => partial s
         end.
Proof.
  unfold partial, complete. rewrite split_cons.
  destruct (StreamTransport.split s) as [|l ls] eqn:H; [by apply split_nonempty in H|].
  destruct (Ascii.eqb c StreamTransport.newline); [reflexivity|].
  cbn [hd tl]. destruct ls; reflexivity.
Qed.

(** One chunk after a stream already read: the lines of the whole are
    the lines of the first part, then those of its partial line
    followed by the chunk. *)
Lemma complete_append a : forall b,
  complete (a +:+ b) = complete a ++ complete (partial a +:+ b) /\
  partial (a +:+ b) = partial (partial a +:+ b).
Proof.
  induction a as [|c a IH]; intros b.
  - split; reflexivity.
  - destruct (IH b) as [IH1 IH2].
    change (String c a +:+ b) with (String c (a +:+ b)).
    rewrite !complete_cons, !partial_cons.
    destruct (Ascii.eqb c StreamTransport.newline) eqn:Hc.
    + rewrite IH1, IH2. split; reflexivity.
    + destruct (complete a) as [|l ls] eqn:Ha.
      * cbn [app] in *.
        change (String c (partial a) +:+ b) with (String c (partial a +:+ b)).
        rewrite complete_cons, partial_cons, Hc, IH1, IH2. split; reflexivity.
      * rewrite IH1. cbn [app]. rewrite IH2. split; reflexivity.
Qed.

Lemma append_assoc a b c : (a +:+ b) +:+ c = a +:+ (b +:+ c).
Proof.
  induction a as [|x a IH]; [reflexivity|].
  change (String x ((a +:+ b) +:+ c) = String x (a +:+ (b +:+ c))). by rewrite IH.
Qed.

Lemma append_empty a : a +:+ EmptyString = a.
Proof.
  induction a as [|x a IH]; [reflexivity|].
  change (String x (a +:+ EmptyString) = String x a). by rewrite IH.
Qed.

Lemma partial_is_partial s : complete (partial s) = [] /\ partial (partial s) = partial s.
Proof.
  destruct (complete_append s EmptyString) as [H1 H2]. rewrite !append_empty in *.
  split; [|by symmetry].
  apply (f_equal (@length _)) in H1. rewrite length_app in H1.
  destruct (complete (partial s)); [reflexivity|]. cbn in H1. lia.
Qed.

Lemma framed_from_partial {D} (text_of : D -> string) chunks : forall buf,
  complete buf = [] -> partial buf = buf ->
  StreamTransport.framed text_of buf chunks
  = (complete (buf +:+ joined (map text_of chunks)),
     partial (buf +:+ joined (map text_of chunks))).
Proof.
  induction chunks as [|d chunks IH]; intros buf Hc Hp;
    cbn [StreamTransport.framed map joined fold_right].
  - by rewrite append_empty, Hc, Hp.
  - fold (joined (map text_of chunks)).
    fold (complete (buf +:+ text_of d)). fold (partial (buf +:+ text_of d)).
    destruct (partial_is_partial (buf +:+ text_of d)) as [Hc' Hp'].
    rewrite (IH _ Hc' Hp').
    destruct (complete_append (buf +:+ text_of d) (joined (map text_of chunks))) as [H1 H2].
    rewrite append_assoc in H1, H2. by rewrite H1, H2.
Qed.

(** X24: framing by newlines.  Fed chunk by chunk from an empty
    buffer, the listener of [data] completes the lines of the text
    that [buf += data] has put together, in order, and is left with
    what follows the last newline in [buf]: the result depends on the
    chunks through the strings they are converted to, joined, and not
    on where the cuts fall in that text.  (It is each chunk that is
    converted: the bytes of a character cut by the end of a [Buffer]
    are not part of that text.) *)
Theorem framing_joins_chunk_texts {D} (text_of : D -> string) (chunks : list D) :
  StreamTransport.framed text_of EmptyString chunks
  = (removelast (StreamTransport.split (joined (map text_of chunks))),
     List.last (StreamTransport.split (joined (map text_of chunks))) EmptyString).
Proof. apply (framed_from_partial text_of chunks EmptyString); reflexivity. Qed.

(** A stream of strings cut in the middle of a line and at a newline. *)
Example framing_of_three_chunks :
  let nl := String StreamTransport.newline EmptyString in
  StreamTransport.framed (fun s : string => s) EmptyString
    ["ab"; "c" +:+ nl +:+ "d"; nl +:+ "e"]
  = (["abc"; "d"], "e").
Proof. vm_compute. reflexivity. Qed.

Lemma complete_line l rest :
  newline_free l = true ->
  complete (l +:+ String StreamTransport.newline rest) = l :: complete rest /\
  partial (l +:+ String StreamTransport.newline rest) = partial rest.
Proof.
  induction l as [|c l IH]; intros Hl.
  - change (EmptyString +:+ String StreamTransport.newline rest)
      with (String StreamTransport.newline rest).
    rewrite complete_cons, partial_cons.
    by rewrite (proj2 (Ascii.eqb_eq StreamTransport.newline StreamTransport.newline) eq_refl).
  - cbn [newline_free] in Hl. apply andb_prop in Hl as [Hc Hl]. apply negb_true_iff in Hc.
    destruct (IH Hl) as [IH1 IH2].
    change (String c l +:+ String StreamTransport.newline rest)
      with (String c (l +:+ String StreamTransport.newline rest)).
    rewrite complete_cons, partial_cons, Hc, IH1, IH2. split; reflexivity.
Qed.

Lemma encoded_lines stringify ms :
  forallb (fun m => newline_free (stringify m)) ms = true ->
  complete (encoded stringify ms) = map stringify ms /\
  partial (encoded stringify ms) = EmptyString.
Proof.
  induction ms as [|m ms IH]; intros Hms; [split; reflexivity|].
  cbn [forallb] in Hms. apply andb_prop in Hms as [Hm Hms]. destruct (IH Hms) as [IH1 IH2].
  unfold encoded. cbn [map joined fold_right].
  fold (joined (map (StreamTransport.written stringify) ms)). fold (encoded stringify ms).
  unfold StreamTransport.written. rewrite append_assoc.
  change (String StreamTransport.newline EmptyString +:+ encoded stringify ms)
    with (String StreamTransport.newline (encoded stringify ms)).
  destruct (complete_line (stringify m) (encoded stringify ms) Hm) as [-> ->].
  by rewrite IH1, IH2.
Qed.

Lemma forEach_parsed E parse stringify stream_error ms :
  Forall (fun m => parse (stringify m) = Ok m) ms ->
  forall w, StreamTransport.forEach E parse stream_error (map stringify ms) w
            = incoming_each E ms w.
Proof.
  induction 1 as [|m ms Hm _ IH]; intros w; [reflexivity|].
  cbn [map StreamTransport.forEach incoming_each].
  unfold StreamTransport.deliver_line, bind. rewrite Hm. unfold ret.
  destruct (Rpcjs.incoming E m w) as [w1 [x|x]]; [apply IH|reflexivity].
Qed.

(** X25: what [send] writes, the listener of [data] reads back.  When
    no encoded message holds a newline and each decodes to itself, and
    the chunks, each converted to a string, join to the text written
    for [ms] (a stream that gives strings, or buffers that end between
    characters), the chunks are framed into the encodings of [ms] with
    nothing left over; a chunk that holds the whole text hands each
    message of [ms] to [pair.incoming], in order. *)
Theorem stream_round_trip E parse stringify stream_error {D} (text_of : D -> string) ms chunks :
  forallb (fun m => newline_free (stringify m)) ms = true ->
  Forall (fun m => parse (stringify m) = Ok m) ms ->
  joined (map text_of chunks) = encoded stringify ms ->
  StreamTransport.framed text_of EmptyString chunks = (map stringify ms, EmptyString) /\
  forall data, text_of data = encoded stringify ms ->
    (StreamTransport.on_data E parse stream_error text_of EmptyString data).1 = EmptyString /\
    forall w, (StreamTransport.on_data E parse stream_error text_of EmptyString data).2 w
              = incoming_each E ms w.
Proof.
  intros Hnl Hparse Hchunks. destruct (encoded_lines stringify ms Hnl) as [Hc Hp]. split.
  - rewrite (framed_from_partial text_of chunks EmptyString) by reflexivity.
    change (EmptyString +:+ joined (map text_of chunks)) with (joined (map text_of chunks)).
    by rewrite Hchunks, Hc, Hp.
  - intros data Hdata. unfold StreamTransport.on_data.
    change (EmptyString +:+ text_of data) with (text_of data). rewrite Hdata.
    fold (complete (encoded stringify ms)). fold (partial (encoded stringify ms)).
    rewrite Hc, Hp. split; [reflexivity|]. intros w. by apply forEach_parsed.
Qed.

(** With numbers written in decimal and a stream that gives strings:
    two messages cut after the first digit. *)
Lemma stream_round_trip_witness :
  let E := test_env "server" in
  let parse := fun s => if String.eqb s "1" then Ok (VNum 1)
                        else if String.eqb s "2" then Ok (VNum 2)
                        else Throw (VStr "SyntaxError") in
  let nl := String StreamTransport.newline EmptyString in
  let text_of := fun s : string => s in
  let chunks := ["1"; nl +:+ "2" +:+ nl] in
  let ms := [VNum 1; VNum 2] in
  StreamTransport.framed text_of EmptyString chunks = (map to_string ms, EmptyString) /\
  forall data, text_of data = encoded to_string ms ->
    (StreamTransport.on_data E parse (fun _ => ret tt) text_of EmptyString data).1
    = EmptyString /\
    forall w, (StreamTransport.on_data E parse (fun _ => ret tt) text_of EmptyString data).2 w
              = incoming_each E ms w.
Proof.
  intros E parse nl text_of chunks ms.
  apply (stream_round_trip E parse to_string (fun _ => ret tt) text_of ms chunks).
  - reflexivity.
  - repeat constructor.
  - reflexivity.
Defined.

(** X26: a line that does not parse.  The error is emitted on the
    stream, and then [pair.incoming] is applied to [undefined] and
    throws: the listener ends there, and the lines after it in the
    chunk are never delivered. *)
Theorem unparsable_line_ends_chunk E parse stream_error line rest e w :
  parse line = Throw e ->
  exists x,
    StreamTransport.forEach E parse stream_error (line :: rest) w
    = ((stream_error (VErr (VStr "RpcStreamTransportJsonParseError")
                           (VStr "Error: RpcStreamTransportJsonParseError")
                           [("line", VStr line); ("original", e)]) w).1,
       Throw x).
Proof.
  intros Hparse. cbn [StreamTransport.forEach]. unfold StreamTransport.deliver_line.
  rewrite Hparse. unfold bind, ret.
  destruct (stream_error _ w) as [w1 [[]|x]]; cbn [fst].
  - unfold Rpcjs.incoming, Rpcjs.read, bind. cbn. eexists; reflexivity.
  - eexists; reflexivity.
Qed.

Lemma unparsable_line_ends_chunk_witness :
  let E := test_env "server" in
  let parse := fun _ : string => @Throw val (VStr "SyntaxError") in
  exists x,
    StreamTransport.forEach E parse (fun _ => ret tt) ["{"; "1"] empty_world
    = (empty_world, Throw x).
Proof.
  intros E parse.
  apply (unparsable_line_ends_chunk E parse (fun _ => ret tt) "{" ["1"] (VStr "SyntaxError")
           empty_world).
  reflexivity.
Defined.

(** * Correlation ids *)

(** What one [call] does to the counter and to the transport. *)
Lemma call_counts E options method params w :
  send E = send_queue ->
  exists r w1,
    Rpcjs.call E options method params w = (w1, Ok r) /\
    outgoingId w1 = outgoingId w + 1 /\
    outbox w1 = outbox w ++ [call_frame (VStr (next_id E w)) method params].
Proof.
  intros HE. unfold call_frame, next_id in *.
  destruct w as [ps js ts nw oid ms ll acts regs prx ex ob tr].
  cbn [outgoingId] in *.
  unfold Rpcjs.call, Rpcjs.createNextOutgoingId, Rpcjs.acknowledgedWrite, Rpcjs.resultEvent,
    Rpcjs.read, Engine.eventToPromise, Rpcjs.call_send.
  rewrite HE.
  cbn -[String.append pretty Engine.timeoutPromise Engine.then_ Z.add].
  timeout1. then1.
  eexists _, _. split; [reflexivity|]. split; reflexivity.
Qed.

Lemma emit_counts E options evt data w :
  send E = send_queue ->
  exists t w1,
    Rpcjs.emit E options evt data w = (w1, Ok t) /\
    outgoingId w1 = outgoingId w + 1 /\
    outbox w1 = outbox w ++ [notify_frame (VStr (next_id E w)) evt data].
Proof.
  intros HE. unfold notify_frame, next_id in *.
  destruct w as [ps js ts nw oid ms ll acts regs prx ex ob tr].
  cbn [outgoingId] in *.
  unfold Rpcjs.emit, Rpcjs.createNextOutgoingId, Rpcjs.acknowledgedWrite, Rpcjs.resultEvent,
    Rpcjs.read, Engine.eventToPromise, Rpcjs.call_send.
  rewrite HE.
  cbn -[String.append pretty Engine.timeoutPromise Z.add].
  timeout1.
  eexists _, _. split; [reflexivity|]. split; reflexivity.
Qed.

Lemma send_one_counts E o w :
  send E = send_queue ->
  exists p w1,
    send_one E o w = (w1, Ok p) /\
    outgoingId w1 = outgoingId w + 1 /\
    outbox w1 = outbox w ++ [frame_of (next_id E w) o].
Proof.
  intros HE. destruct o as [options method params|options evt data]; cbn [send_one frame_of].
  - by apply call_counts.
  - by apply emit_counts.
Qed.

Lemma frame_of_id id o : vget (frame_of id o) "id" = Some (VStr id).
Proof. destruct o; reflexivity. Qed.

Lemma prefixed_inj (p a b : string) : p +:+ a = p +:+ b -> a = b.
Proof.
  induction p as [|c p IH]; [done|].
  change (String c p +:+ a) with (String c (p +:+ a)).
  change (String c p +:+ b) with (String c (p +:+ b)).
  intros H. apply IH. by simplify_eq.
Qed.

(** The ids from a counter are those of greater numbers. *)
Lemma frames_from_ids E os : forall k x,
  Some (VStr x) ∈ map (fun f => vget f "id") (frames_from E k os) ->
  exists j, k < j /\ x = name E +:+ ":" +:+ pretty j.
Proof.
  induction os as [|o os IH]; intros k x Hin; cbn [frames_from map] in Hin.
  - by apply elem_of_nil in Hin.
  - apply elem_of_cons in Hin as [Heq|Hin].
    + rewrite frame_of_id in Heq. exists (k + 1). split; [lia|]. by simplify_eq.
    + destruct (IH (k + 1) x Hin) as (j & Hj & ->). exists j. split; [lia|reflexivity].
Qed.

Lemma frames_from_NoDup E os : forall k,
  NoDup (map (fun f => vget f "id") (frames_from E k os)).
Proof.
  induction os as [|o os IH]; intros k; cbn [frames_from map].
  - apply NoDup_nil_2.
  - apply NoDup_cons. split; [|apply IH].
    rewrite frame_of_id. intros Hin.
    destruct (frames_from_ids E os (k + 1) _ Hin) as (j & Hj & Heq).
    apply prefixed_inj, prefixed_inj in Heq.
    apply (inj pretty) in Heq. lia.
Qed.

(** X27: correlation ids are fresh.  Whatever calls and emits a program
    makes in a row on a pair, each message moves the counter by one and
    is written under the pair's name and the new count, so that no two
    of the frames carry the same id. *)
Theorem outgoing_ids_are_fresh E os w :
  send E = send_queue ->
  exists w',
    send_all E os w = (w', Ok tt) /\
    outbox w' = outbox w ++ frames_from E (outgoingId w) os /\
    outgoingId w' = outgoingId w + Z.of_nat (length os) /\
    NoDup (map (fun f => vget f "id") (frames_from E (outgoingId w) os)).
Proof.
  intros HE.
  enough (exists w', send_all E os w = (w', Ok tt) /\
                     outbox w' = outbox w ++ frames_from E (outgoingId w) os /\
                     outgoingId w' = outgoingId w + Z.of_nat (length os)) as (w' & H1 & H2 & H3).
  { exists w'. repeat split; try assumption. apply frames_from_NoDup. }
  revert w. induction os as [|o os IH]; intros w.
  - exists w. cbn [send_all frames_from length]. unfold ret.
    rewrite app_nil_r. repeat split. lia.
  - destruct (send_one_counts E o w HE) as (p & w1 & Hrun & Hid & Hout).
    destruct (IH w1) as (w' & Hall & Hout' & Hid').
    exists w'. cbn [send_all frames_from length]. unfold bind at 1. rewrite Hrun.
    split; [exact Hall|]. split.
    + rewrite Hout', Hout, Hid, <- app_assoc. reflexivity.
    + rewrite Hid', Hid. lia.
Qed.

(** At [add(10, 5)], an [emit] and [add(1, 2)] of the client of the
    tests. *)
Lemma outgoing_ids_are_fresh_witness :
  let E := test_env "client" in
  let os := [OCall None (VStr "add") [VNum 10; VNum 5];
             OEmit None (VStr "hi") [];
             OCall (Some 50) (VStr "add") [VNum 1; VNum 2]] in
  exists w',
    send_all E os empty_world = (w', Ok tt) /\
    outbox w' = outbox empty_world ++ frames_from E (outgoingId empty_world) os /\
    outgoingId w' = outgoingId empty_world + Z.of_nat (length os) /\
    NoDup (map (fun f => vget f "id") (frames_from E (outgoingId empty_world) os)).
Proof.
  intros E os. apply (outgoing_ids_are_fresh E os empty_world). reflexivity.
Defined.

(** The three frames of that run. *)
Example ids_of_three_messages :
  map (fun f => vget f "id")
      (outbox (send_all (test_env "client")
                 [OCall None (VStr "add") [VNum 10; VNum 5];
                  OEmit None (VStr "hi") [];
                  OCall (Some 50) (VStr "add") [VNum 1; VNum 2]] empty_world).1)
  = [Some (VStr "client:1"); Some (VStr "client:2"); Some (VStr "client:3")].
Proof. reflexivity. Qed.

